(** * GeoPlot: reconciliation of borehole fragments and cross-section layout

    A shallow embedding of the two algorithmic parts of the application:

    - [mergeBoreholes] of the [App] component (its text follows
      services/geminiService.ts in the sources), which folds the fragments
      returned by the extraction service into one record per borehole
      name, and
    - [SoilProfileChart] (components/SoilProfileChart.tsx), which turns the
      reconciled records into the geometry of the cross-section drawing.

    Around them it embeds the code that feeds and follows them:

    - the extraction service (services/geminiService.ts): [generateId],
      [callWithRetry], [parseBoreholeLog] and the classification of soils
      by [inferUSCS], [mapUSCSToPattern] and [mapUSCSToColor];
    - the handlers of the [App] component: [handleFilesSelect],
      [handleValidationConfirm] and [handleReset];
    - the handlers of the review tables
      (components/ValidationTables.tsx).

    Modelling conventions.

    - A JavaScript number is modelled by the type [number]: a rational
      ([Fin q]), one of the two infinities, or NaN.  Arithmetic is exact:
      the rounding and the overflow of IEEE doubles are not modelled.  The
      depths and SPT values of the records are finite numbers (they come
      out of [JSON.parse] or of a numeric input field) and are kept as [Q];
      two rationals denote the same number when they are [Qeq].
    - A JavaScript string is a [string] of code units below 256.
    - Header objects live in a store ([heap]) and records refer to them by
      location: [{ ...item }] copies the reference, so the record kept in
      [mergedMap] and the fragment it was copied from share one header
      object.  Arrays of layers and of SPT records are values; the in-place
      [sort] of the chart is modelled by returning the records as the
      component leaves them.
    - Code that can throw runs in the monad [JS], a state-and-exception
      monad over the store of header objects.
    - The messages and the captions of the program, which are not
      confined to the code units below 256, are [text]: lists of UTF-16
      code units.
    - Asynchronous code runs in the monad [Task] over a [World]: the
      store, what the program has asked of its platform so far, and the
      state of the [App].  What the platform answers (random numbers, the
      model, [JSON.parse]) is given by a [Host]. *)

From Stdlib Require Import QArith Qround Lqa ZArith Lia List String Ascii
  Sorted Permutation Bool.
From Stdlib Require Import DecimalString DecimalN DecimalPos HexadecimalString
  HexadecimalN.
From stdpp Require Import base gmap strings list.
Import ListNotations.

(** ** JavaScript numbers *)

Inductive number : Type :=
  | NaN
  | NegInfinity
  | Fin (q : Q)
  | Infinity.

Module Num.

(** [a + b] *)
Definition add (a b : number) : number :=
  match a, b with
  | NaN, _ | _, NaN => NaN
  | Infinity, NegInfinity | NegInfinity, Infinity => NaN
  | Infinity, _ | _, Infinity => Infinity
  | NegInfinity, _ | _, NegInfinity => NegInfinity
  | Fin x, Fin y => Fin (x + y)
  end.

(** [-a] *)
Definition neg (a : number) : number :=
  match a with
  | NaN => NaN
  | NegInfinity => Infinity
  | Infinity => NegInfinity
  | Fin x => Fin (- x)
  end.

(** [a - b] *)
Definition sub (a b : number) : number := add a (neg b).

(** The sign of an infinity times a finite factor; zero gives NaN. *)
Definition scaleInf (pos : bool) (x : Q) : number :=
  match (0 ?= x)%Q with
  | Eq => NaN
  | Lt => if pos then Infinity else NegInfinity
  | Gt => if pos then NegInfinity else Infinity
  end.

(** [a * b] *)
Definition mul (a b : number) : number :=
  match a, b with
  | NaN, _ | _, NaN => NaN
  | Fin x, Fin y => Fin (x * y)
  | Infinity, Fin x | Fin x, Infinity => scaleInf true x
  | NegInfinity, Fin x | Fin x, NegInfinity => scaleInf false x
  | Infinity, Infinity | NegInfinity, NegInfinity => Infinity
  | Infinity, NegInfinity | NegInfinity, Infinity => NaN
  end.

(** [a / b] for a finite non-zero constant divisor [b]. *)
Definition divc (a : number) (b : Q) : number := mul a (Fin (/ b)).

(** [a < b]; any comparison with NaN is false. *)
Definition ltb (a b : number) : bool :=
  match a, b with
  | NaN, _ | _, NaN => false
  | _, NegInfinity => false
  | NegInfinity, _ => true
  | Infinity, _ => false
  | Fin _, Infinity => true
  | Fin x, Fin y => match (x ?= y)%Q with Lt => true | _ => false end
  end.

(** [a > b] *)
Definition gtb (a b : number) : bool := ltb b a.

(** [Math.ceil] and [Math.floor] *)
Definition ceil (a : number) : number :=
  match a with Fin x => Fin (inject_Z (Qceiling x)) | _ => a end.

Definition floor (a : number) : number :=
  match a with Fin x => Fin (inject_Z (Qfloor x)) | _ => a end.

(** [Math.max(...xs)] and [Math.min(...xs)]: the empty call gives
    [-Infinity], respectively [Infinity], and NaN is contagious. *)
Definition max2 (acc x : number) : number :=
  match acc, x with
  | NaN, _ | _, NaN => NaN
  | _, _ => if ltb acc x then x else acc
  end.

Definition min2 (acc x : number) : number :=
  match acc, x with
  | NaN, _ | _, NaN => NaN
  | _, _ => if ltb x acc then x else acc
  end.

Definition max (xs : list number) : number := fold_left max2 xs NegInfinity.
Definition min (xs : list number) : number := fold_left min2 xs Infinity.

(** [isNaN(a)] *)
Definition isNaN (a : number) : bool :=
  match a with NaN => true | _ => false end.

(** Two modelled numbers denote the same JavaScript number. *)
Definition same (a b : number) : Prop :=
  match a, b with
  | NaN, NaN | NegInfinity, NegInfinity | Infinity, Infinity => True
  | Fin x, Fin y => (x == y)%Q
  | _, _ => False
  end.

Definition isFin (a : number) : Prop :=
  match a with Fin _ => True | _ => False end.

End Num.

Declare Scope number_scope.
Delimit Scope number_scope with num.
Bind Scope number_scope with number.
Infix "+" := Num.add : number_scope.
Infix "-" := Num.sub : number_scope.
Infix "*" := Num.mul : number_scope.
Infix "<?" := Num.ltb : number_scope.
Infix ">?" := Num.gtb (at level 70) : number_scope.
Infix "≃" := Num.same (at level 70) : number_scope.

(** ** JavaScript strings *)

Definition codeUnit (c : ascii) : N := N_of_ascii c.

(** [\d] of a regular expression without the unicode flag. *)
Definition isDigit (c : ascii) : bool :=
  (48 <=? codeUnit c)%N && (codeUnit c <=? 57)%N.

Definition digitValue (c : ascii) : N := (codeUnit c - 48)%N.

(** White space and line terminators among the code units below 256. *)
Definition isWhiteSpace (c : ascii) : bool :=
  let n := codeUnit c in
  ((9 <=? n)%N && (n <=? 13)%N) || (n =? 32)%N || (n =? 160)%N.

Fixpoint trimStart (s : string) : string :=
  match s with
  | EmptyString => EmptyString
  | String c r => if isWhiteSpace c then trimStart r else s
  end.

Fixpoint trimEnd (s : string) : string :=
  match s with
  | EmptyString => EmptyString
  | String c r =>
      match trimEnd r with
      | EmptyString => if isWhiteSpace c then EmptyString else String c EmptyString
      | r' => String c r'
      end
  end.

(** [s.trim()] *)
Definition trim (s : string) : string := trimEnd (trimStart s).

(** A string in a boolean context: only the empty string is falsy. *)
Definition truthy (s : string) : bool :=
  match s with EmptyString => false | _ => true end.

(** [s.replace(/[^\d.-]/g, '')] *)
Fixpoint stripNonNumeric (s : string) : string :=
  match s with
  | EmptyString => EmptyString
  | String c r =>
      if isDigit c || Ascii.eqb c "." || Ascii.eqb c "-"
      then String c (stripNonNumeric r)
      else stripNonNumeric r
  end.

(** The longest run of decimal digits at the front of a string, and what
    follows it. *)
Fixpoint spanDigits (s : string) : list N * string :=
  match s with
  | String c r =>
      if isDigit c
      then let '(ds, rest) := spanDigits r in (digitValue c :: ds, rest)
      else ([], s)
  | EmptyString => ([], s)
  end.

Definition digitsToN (ds : list N) : N :=
  fold_left (fun acc d => (10 * acc + d)%N) ds 0%N.

Fixpoint pow10 (n : nat) : positive :=
  match n with O => 1%positive | S k => (10 * pow10 k)%positive end.

(** The mathematical value of the decimal literal [ip.fp]. *)
Definition decimalValue (ip fp : list N) : Q :=
  (inject_Z (Z.of_N (digitsToN ip))
   + (Z.of_N (digitsToN fp) # pow10 (List.length fp)))%Q.

(** [parseFloat(s)]: the longest prefix of the trimmed string that is a
    decimal literal, NaN when there is none.  Exponents and the literal
    [Infinity] are left out: the only caller strips every letter first. *)
Definition parseUnsigned (s : string) : option Q :=
  let '(ip, r) := spanDigits s in
  match r with
  | String "." r' =>
      let '(fp, _) := spanDigits r' in
      match ip, fp with
      | [], [] => None
      | _, _ => Some (decimalValue ip fp)
      end
  | _ => match ip with [] => None | _ => Some (decimalValue ip []) end
  end.

Definition parseFloat (s : string) : number :=
  match trimStart s with
  | String "-" r =>
      match parseUnsigned r with Some q => Fin (- q) | None => NaN end
  | String "+" r =>
      match parseUnsigned r with Some q => Fin q | None => NaN end
  | r => match parseUnsigned r with Some q => Fin q | None => NaN end
  end.

(** ** [Array.prototype.sort]

    The sort is stable, and with a consistent comparator its result does
    not depend on the algorithm of the engine: it is modelled by a stable
    insertion sort.  The comparator returns a number; an element moves
    behind another one only when the comparator is positive. *)

Section ArraySort.
Context {A : Type}.
Variable compareFn : A -> A -> Q.

Fixpoint insertSorted (x : A) (l : list A) : list A :=
  match l with
  | [] => [x]
  | y :: r =>
      match (0 ?= compareFn x y)%Q with
      | Lt => y :: insertSorted x r
      | _ => x :: l
      end
  end.

Fixpoint Array_sort (l : list A) : list A :=
  match l with
  | [] => []
  | x :: r => insertSorted x (Array_sort r)
  end.

(** The comparator does not put [x] behind [y]. *)
Definition before (x y : A) : Prop := (compareFn x y <= 0)%Q.
End ArraySort.

(** The comparator [(a, b) => num(a) - num(b)] and the order it sorts by. *)
Definition compareNum {A} (num : A -> Q) (a b : A) : Q := (num a - num b)%Q.
Definition leNum {A} (num : A -> Q) (a b : A) : Prop := (num a <= num b)%Q.

(** The elements whose number is [d]. *)
Definition inClass {A} (num : A -> Q) (d : Q) (x : A) : bool :=
  Qeq_bool (num x) d.

(** ** [Array.prototype.filter] with a [Set] of seen keys

    [const seen = new Set(); xs.filter(x => { if (seen.has(key(x)))
    return false; seen.add(key(x)); return true; })] *)

Section FilterSeen.
Context {A K : Type}.
Variable sameKey : K -> K -> bool.
Variable key : A -> K.

Definition Set_has (seen : list K) (k : K) : bool := existsb (sameKey k) seen.

Fixpoint filterSeen (seen : list K) (l : list A) : list A :=
  match l with
  | [] => []
  | x :: r =>
      if Set_has seen (key x) then filterSeen seen r
      else x :: filterSeen (key x :: seen) r
  end.

Definition hasKey (k : K) (x : A) : bool := sameKey k (key x).

(** No two elements of the list have the same key. *)
Definition DistinctKeys (l : list A) : Prop :=
  ForallOrdPairs (fun a b => sameKey (key a) (key b) = false) l.
End FilterSeen.

(** ** The data model (types.ts) *)

Inductive Pattern : Type := dots | diagonal | circles | solid | none.

Record SoilLayer : Type := {
  layerId : string;
  depthFrom : Q;
  depthTo : Q;
  description : string;
  uscs : string;
  finePercent : option string;
  plasticity : option string;
  swelling : option string;
  colorText : option string;
  color : option string;
  pattern : option Pattern
}.

Record SPTRecord : Type := {
  sptId : string;
  depth : Q;
  value : Q;
  notes : option string
}.

Record HeaderData : Type := {
  projectName : string;
  boreholeName : string;
  date : string;
  elevation : string;
  coordinates : string;
  client : string;
  waterTable : string
}.

(** A reference to a header object. *)
Definition loc : Type := nat.

Record ExtractedData : Type := {
  internalId : string;
  header : loc;
  layers : list SoilLayer;
  spt : list SPTRecord
}.

(** Assignments to one property of an object. *)
Definition set_projectName (v : string) (h : HeaderData) : HeaderData :=
  {| projectName := v; boreholeName := boreholeName h; date := date h;
     elevation := elevation h; coordinates := coordinates h;
     client := client h; waterTable := waterTable h |}.

Definition set_elevation (v : string) (h : HeaderData) : HeaderData :=
  {| projectName := projectName h; boreholeName := boreholeName h;
     date := date h; elevation := v; coordinates := coordinates h;
     client := client h; waterTable := waterTable h |}.

Definition set_coordinates (v : string) (h : HeaderData) : HeaderData :=
  {| projectName := projectName h; boreholeName := boreholeName h;
     date := date h; elevation := elevation h; coordinates := v;
     client := client h; waterTable := waterTable h |}.

Definition set_waterTable (v : string) (h : HeaderData) : HeaderData :=
  {| projectName := projectName h; boreholeName := boreholeName h;
     date := date h; elevation := elevation h; coordinates := coordinates h;
     client := client h; waterTable := v |}.

Definition set_layers (v : list SoilLayer) (d : ExtractedData) : ExtractedData :=
  {| internalId := internalId d; header := header d; layers := v; spt := spt d |}.

Definition set_spt (v : list SPTRecord) (d : ExtractedData) : ExtractedData :=
  {| internalId := internalId d; header := header d; layers := layers d; spt := v |}.

(** ** The store of header objects and the monad of throwing code *)

Abbreviation heap := (gmap loc HeaderData).

Inductive jsError : Type := TypeError | RangeError.

Inductive completion (A : Type) : Type :=
  | Normal (a : A)
  | Throw (e : jsError).
Arguments Normal {A} a.
Arguments Throw {A} e.

Definition JS (A : Type) : Type := heap -> completion (A * heap).

Definition ret {A} (a : A) : JS A := fun h => Normal (a, h).

Definition bind {A B} (m : JS A) (k : A -> JS B) : JS B :=
  fun h => match m h with
           | Normal (a, h') => k a h'
           | Throw e => Throw e
           end.

Definition throw {A} (e : jsError) : JS A := fun _ => Throw e.

Notation "x <- m ;; k" := (bind m (fun x => k))
  (at level 90, m at level 80, right associativity).
Notation "m ;;; k" := (bind m (fun _ => k))
  (at level 90, right associativity).

(** Reading a property of the object behind a reference; a reference to
    nothing stands for [undefined], whose properties cannot be read. *)
Definition deref (l : loc) : JS HeaderData :=
  fun h => match h !! l with
           | Some v => Normal (v, h)
           | None => Throw TypeError
           end.

(** Writing a property of the object behind a reference. *)
Definition modify (l : loc) (f : HeaderData -> HeaderData) : JS unit :=
  fun h => match h !! l with
           | Some v => Normal (tt, <[l := f v]> h)
           | None => Throw TypeError
           end.

(** [xs.forEach(x => body)] over a local variable [s] that the body
    updates. *)
Fixpoint forEach {A S} (body : A -> S -> JS S) (xs : list A) (s : S) : JS S :=
  match xs with
  | [] => ret s
  | x :: r => s' <- body x s ;; forEach body r s'
  end.

Fixpoint mapM {A B} (f : A -> JS B) (xs : list A) : JS (list B) :=
  match xs with
  | [] => ret []
  | x :: r => y <- f x ;; ys <- mapM f r ;; ret (y :: ys)
  end.

(** ** [mergedMap]: a plain object used as a dictionary

    The own properties are kept in insertion order.  The object is created
    by [{}], so a key that is not an own property is looked up on
    [Object.prototype]. *)

Definition Object_prototype_keys : list string :=
  [ "constructor"; "__defineGetter__"; "__defineSetter__"; "hasOwnProperty";
    "__lookupGetter__"; "__lookupSetter__"; "isPrototypeOf";
    "propertyIsEnumerable"; "toString"; "valueOf"; "__proto__";
    "toLocaleString" ]%string.

Inductive property (V : Type) : Type :=
  | Own (v : V)          (* an own property *)
  | Inherited            (* a built-in of [Object.prototype] *)
  | Undefined.
Arguments Own {V} v.
Arguments Inherited {V}.
Arguments Undefined {V}.

Section PlainObject.
Context {V : Type}.

Fixpoint getOwn (o : list (string * V)) (k : string) : option V :=
  match o with
  | [] => None
  | (k', v) :: r => if String.eqb k k' then Some v else getOwn r k
  end.

(** [o[k]] *)
Definition getProperty (o : list (string * V)) (k : string) : property V :=
  match getOwn o k with
  | Some v => Own v
  | None =>
      if existsb (String.eqb k) Object_prototype_keys then Inherited
      else Undefined
  end.

(** [o[k] = v] for a key that is not on the prototype: an existing own
    property keeps its place, a new one goes last. *)
Fixpoint setOwn (o : list (string * V)) (k : string) (v : V)
  : list (string * V) :=
  match o with
  | [] => [(k, v)]
  | (k', v') :: r =>
      if String.eqb k k' then (k, v) :: r else (k', v') :: setOwn r k v
  end.

(** A key is an array index when it is the canonical decimal form of an
    integer below 2^32 - 1. *)
Definition arrayIndex (k : string) : option N :=
  match spanDigits k with
  | (d :: ds, EmptyString) =>
      let n := digitsToN (d :: ds) in
      if (N.eqb d 0 && negb (Nat.eqb (List.length ds) 0))
         || (4294967295 <=? n)%N
      then None else Some n
  | _ => None
  end.

Definition indexOf (kv : string * V) : Z :=
  match arrayIndex (fst kv) with Some n => Z.of_N n | None => 0 end.

Definition isIndexed (kv : string * V) : bool :=
  match arrayIndex (fst kv) with Some _ => true | None => false end.

(** [Object.values(o)]: the array-index keys in ascending order, then the
    other keys in insertion order. *)
Definition Object_values (o : list (string * V)) : list V :=
  List.map snd
    (Array_sort (fun a b => inject_Z (indexOf a - indexOf b))
                (List.filter isIndexed o)
     ++ List.filter (fun kv => negb (isIndexed kv)) o).
End PlainObject.

(** ** [String.prototype.localeCompare] with [{numeric: true,
    sensitivity: 'base'}]

    The collation of the platform is not part of the program.  It is
    modelled by its sort keys at primary strength: every character
    contributes the primary weight that the locale data give it (the
    parameter [primary]), and a run of decimal digits contributes one
    element, placed where the digits are and ordered by the value of the
    run. *)

Section Collation.
Variable primary : ascii -> N.

Definition flushDigits (cur : option N) : list (N * N) :=
  match cur with
  | Some n => [(primary "0", n)]
  | None => []
  end.

Fixpoint sortKeyFrom (s : string) (cur : option N) : list (N * N) :=
  match s with
  | EmptyString => flushDigits cur
  | String c r =>
      if isDigit c
      then sortKeyFrom r
             (Some (10 * (match cur with Some n => n | None => 0 end)
                    + digitValue c)%N)
      else flushDigits cur ++ (primary c, 0%N) :: sortKeyFrom r None
  end.

Definition sortKey (s : string) : list (N * N) := sortKeyFrom s None.

Definition compareElement (a b : N * N) : comparison :=
  match (fst a ?= fst b)%N with
  | Eq => (snd a ?= snd b)%N
  | c => c
  end.

Fixpoint compareKeys (a b : list (N * N)) : comparison :=
  match a, b with
  | [], [] => Eq
  | [], _ :: _ => Lt
  | _ :: _, [] => Gt
  | x :: a', y :: b' =>
      match compareElement x y with
      | Eq => compareKeys a' b'
      | c => c
      end
  end.

Definition localeCompare (a b : string) : Q :=
  match compareKeys (sortKey a) (sortKey b) with
  | Lt => (-1)%Q
  | Eq => 0%Q
  | Gt => 1%Q
  end.
End Collation.

(** ** [mergeBoreholes] (the [App] component) *)

Definition layerKey (l : SoilLayer) : Q * Q := (depthFrom l, depthTo l).

(** Two layers have the same key [`${l.depthFrom}-${l.depthTo}`] exactly
    when both numbers agree: the decimal form of a finite number has no
    [-] behind its first character unless it follows an exponent mark, so
    the template string determines both parts. *)
Definition sameLayerKey (a b : Q * Q) : bool :=
  Qeq_bool (fst a) (fst b) && Qeq_bool (snd a) (snd b).

Definition mergeLayers (existing incoming : list SoilLayer) : list SoilLayer :=
  filterSeen sameLayerKey layerKey []
    (Array_sort (fun a b => depthFrom a - depthFrom b)%Q (existing ++ incoming)).

Abbreviation byDepthFrom := (leNum depthFrom).
Abbreviation byDepth := (leNum depth).
Abbreviation hasLayerKey := (hasKey sameLayerKey layerKey).
Abbreviation hasDepth := (hasKey Qeq_bool depth).
Abbreviation DistinctLayers := (DistinctKeys sameLayerKey layerKey).
Abbreviation DistinctDepths := (DistinctKeys Qeq_bool depth).

Definition mergeSpt (existing incoming : list SPTRecord) : list SPTRecord :=
  filterSeen Qeq_bool depth []
    (Array_sort (fun a b => depth a - depth b)%Q (existing ++ incoming)).

(** [if (cond(existing.header)) existing.header.f = item.header.f;] *)
Definition assignFromItem (cond : HeaderData -> bool)
    (get : HeaderData -> string) (set : string -> HeaderData -> HeaderData)
    (existing item : loc) : JS unit :=
  e <- deref existing ;;
  if cond e then i <- deref item ;; modify existing (set (get i)) else ret tt.

(** [// Merge Headers (take non-empty values)] *)
Definition mergeHeaders (existing item : loc) : JS unit :=
  assignFromItem (fun e => negb (truthy (projectName e)))
    projectName set_projectName existing item ;;;
  assignFromItem (fun e => negb (truthy (elevation e))
                           || String.eqb (elevation e) "0.00")
    elevation set_elevation existing item ;;;
  assignFromItem (fun e => negb (truthy (coordinates e)))
    coordinates set_coordinates existing item ;;;
  assignFromItem (fun e => String.eqb (waterTable e) "-"
                           || negb (truthy (waterTable e)))
    waterTable set_waterTable existing item.

(** The body of [rawList.forEach]. *)
Definition mergeItem (item : ExtractedData)
    (mergedMap : list (string * ExtractedData))
  : JS (list (string * ExtractedData)) :=
  ih <- deref (header item) ;;
  let name := trim (boreholeName ih) in
  if negb (truthy name) then ret mergedMap
  else
    match getProperty mergedMap name with
    | Undefined =>
        (* [mergedMap[name] = { ...item }] *)
        ret (setOwn mergedMap name item)
    | Inherited =>
        (* [existing] is a built-in: it has no [layers], no [spt] and no
           [header].  Spreading [existing.layers] or [existing.spt] throws,
           and with neither to merge, reading [existing.header.projectName]
           does. *)
        throw TypeError
    | Own existing =>
        let existing :=
          if (0 <? List.length (layers item))%nat
          then set_layers (mergeLayers (layers existing) (layers item)) existing
          else existing in
        let existing :=
          if (0 <? List.length (spt item))%nat
          then set_spt (mergeSpt (spt existing) (spt item)) existing
          else existing in
        mergeHeaders (header existing) (header item) ;;;
        ret (setOwn mergedMap name existing)
    end.

Section MergeBoreholes.
Variable primary : ascii -> N.

(** [a.header.boreholeName], read for the comparator. *)
Definition withName (d : ExtractedData) : JS (string * ExtractedData) :=
  hd <- deref (header d) ;; ret (boreholeName hd, d).

(** [Object.values(mergedMap).sort((a, b) =>
    a.header.boreholeName.localeCompare(b.header.boreholeName, ...))].
    The names are read once: the comparator does not change them. *)
Definition sortByName (values : list ExtractedData)
  : JS (list ExtractedData) :=
  named <- mapM withName values ;;
  ret (List.map snd
         (Array_sort (fun a b => localeCompare primary (fst a) (fst b))
                     named)).

Definition mergeBoreholes (rawList : list ExtractedData)
  : JS (list ExtractedData) :=
  mergedMap <- forEach mergeItem rawList [] ;;
  sortByName (Object_values mergedMap).
End MergeBoreholes.

(** ** [SoilProfileChart] (components/SoilProfileChart.tsx)

    The component is modelled up to the geometry it hands to the SVG
    elements: colours, fonts and fixed captions are left out. *)

Inductive GridLabel : Type :=
  | DepthLabel (i : nat)          (* [`-${i}m`] *)
  | ElevLabel (elev : number).

Record GridLine : Type := {
  gridIndex : nat;
  gridElev : number;
  gridY : number;
  gridX1 : number;
  gridX2 : number;
  gridLabel : GridLabel
}.

Record LayerBox : Type := {
  boxLayer : SoilLayer;
  boxX : number;               (* [xL] *)
  boxYTop : number;
  boxYBot : number;            (* also the place of the depth mark *)
  boxHeight : number;
  boxLabelY : number;          (* [yTop + Math.min(h/2, 15)] *)
  boxParamsX : number;         (* [xP] *)
  boxDescX : number            (* [xD] *)
}.

Record SptPoint : Type := {
  pointRecord : SPTRecord;
  pointX : number;
  pointY : number
}.

Record Column : Type := {
  startX : number;
  surfElev : number;
  columnName : string;
  columnElevation : string;
  columnCoordinates : string;
  columnLayers : list LayerBox;
  sptX : number;               (* [xS] *)
  sptPolyline : list SptPoint;
  sptCircles : list SptPoint
}.

Record LayoutModel : Type := {
  canvasWidth : number;
  canvasHeight : number;
  chartHeight : number;
  relativeMode : bool;
  topElevation : number;       (* [maxAbsElev] after rounding *)
  bottomElevation : number;    (* [minAbsElev] after rounding *)
  grid : list GridLine;
  columns : list Column;
  legendX : number;
  legendY : number;
  legendProject : string
}.

Definition ofNat (n : nat) : number := Fin (inject_Z (Z.of_nat n)).

Definition COLUMN_WIDTH : number := Fin 420.
Definition COLUMN_GAP : number := Fin 50.
Definition MARGIN_TOP : number := Fin 100.
Definition MARGIN_BOTTOM : number := Fin 220.
Definition MARGIN_SIDES : number := Fin 80.
Definition PIXELS_PER_METER : number := Fin 70.

Definition parseElevation (s : string) : number :=
  let v := parseFloat (stripNonNumeric s) in
  if Num.isNaN v then Fin 0 else v.

(** [xs[i]] used as a number: a missing element is [undefined], which
    arithmetic turns into NaN. *)
Definition at_ (xs : list number) (i : nat) : number :=
  match xs !! i with Some x => x | None => NaN end.

(** [xs.map((x, i) => f(x, i))] *)
Fixpoint mapiFrom {A B} (f : A -> nat -> B) (i : nat) (xs : list A) : list B :=
  match xs with
  | [] => []
  | x :: r => f x i :: mapiFrom f (S i) r
  end.

Definition mapi {A B} (f : A -> nat -> B) (xs : list A) : list B :=
  mapiFrom f 0 xs.

Fixpoint mapiMFrom {A B} (f : A -> nat -> JS B) (i : nat) (xs : list A)
  : JS (list B) :=
  match xs with
  | [] => ret []
  | x :: r => y <- f x i ;; ys <- mapiMFrom f (S i) r ;; ret (y :: ys)
  end.

(** [Array.from({ length: n })], as the list of its indices.  [ToLength]
    clamps the length to [0 .. 2^53 - 1]; an array cannot be longer than
    [2^32 - 1]. *)
Definition toLength (n : number) : Z :=
  match n with
  | NaN | NegInfinity => 0%Z
  | Infinity => (2 ^ 53 - 1)%Z
  | Fin q => Z.min (Z.max 0 (Qfloor q)) (2 ^ 53 - 1)
  end.

Definition Array_from_length (n : number) : JS (list nat) :=
  let len := toLength n in
  if (2 ^ 32 - 1 <? len)%Z then throw RangeError
  else ret (seq 0 (Z.to_nat len)).

Definition isRelativeMode (elevations : list number) (length : nat) : bool :=
  ((Num.max elevations - Num.min elevations)%num >? Fin 50)%num
  || (length <? 2)%nat.

Definition plotElevations (data : list ExtractedData)
    (elevations : list number) (isRelativeMode : bool) : list number :=
  mapi (fun (_ : ExtractedData) i =>
          if isRelativeMode then Fin 0 else at_ elevations i) data.

(** The deepest thing to draw in one borehole, at least 10. *)
Definition maxDepth (bh : ExtractedData) : number :=
  Num.max (List.map (fun l => Fin (depthTo l)) (layers bh)
           ++ List.map (fun s => Fin (depth s)) (spt bh)
           ++ [Fin 10]).

(** The loop over [data] that finds the highest surface and the lowest
    bottom; the state is [(maxAbsElev, minAbsElev)]. *)
Fixpoint extentFrom (plot : list number) (idx : nat)
    (data : list ExtractedData) (acc : number * number) : number * number :=
  match data with
  | [] => acc
  | bh :: r =>
      let surf := at_ plot idx in
      let maxD := maxDepth bh in
      let maxAbsElev := if (surf >? fst acc)%num then surf else fst acc in
      let minAbsElev :=
        if ((surf - maxD) <? snd acc)%num then (surf - maxD)%num
        else snd acc in
      extentFrom plot (S idx) r (maxAbsElev, minAbsElev)
  end.

Definition getY (maxAbsElev abs : number) : number :=
  (MARGIN_TOP + (maxAbsElev - abs) * PIXELS_PER_METER)%num.

Section Render.
Variable isRelative : bool.
Variable maxAbsElev : number.
Variable CANVAS_WIDTH : number.
Variable plot : list number.

Definition gridLine (i : nat) : GridLine :=
  let elev := (maxAbsElev - ofNat i)%num in
  let y := getY maxAbsElev elev in
  {| gridIndex := i; gridElev := elev; gridY := y;
     gridX1 := MARGIN_SIDES;
     gridX2 := (CANVAS_WIDTH - MARGIN_SIDES)%num;
     gridLabel := if isRelative then DepthLabel i else ElevLabel elev |}.

Definition layerBox (startX surfElev : number) (l : SoilLayer) : LayerBox :=
  let yTop := getY maxAbsElev (surfElev - Fin (depthFrom l))%num in
  let yBot := getY maxAbsElev (surfElev - Fin (depthTo l))%num in
  let h := (yBot - yTop)%num in
  let xL := (startX + Fin 30)%num in
  let xP := (xL + Fin 50)%num in
  let xD := (xP + Fin 100)%num in
  {| boxLayer := l; boxX := xL; boxYTop := yTop; boxYBot := yBot;
     boxHeight := h;
     boxLabelY := (yTop + Num.min [Num.divc h 2; Fin 15])%num;
     boxParamsX := xP; boxDescX := xD |}.

Definition sptPoint (xS surfElev : number) (p : SPTRecord) : SptPoint :=
  {| pointRecord := p;
     pointX := (xS + Num.divc (Num.min [Fin (value p); Fin 50]) 50
                     * Fin 100)%num;
     pointY := getY maxAbsElev (surfElev - Fin (depth p))%num |}.

(** One borehole column, given the header of the borehole.
    [bh.spt.sort(...)] sorts the array of the record itself: the circles
    are drawn from the sorted array, and the record is returned as the
    column leaves it. *)
Definition columnFor (hd : HeaderData) (bh : ExtractedData) (idx : nat)
  : Column * ExtractedData :=
  let startX :=
    (MARGIN_SIDES + Fin 50 + ofNat idx * (COLUMN_WIDTH + COLUMN_GAP))%num in
  let surfElev := at_ plot idx in
  let boxes := List.map (layerBox startX surfElev) (layers bh) in
  let xS := (startX + COLUMN_WIDTH - Fin 100)%num in
  let sorted := Array_sort (fun a b => depth a - depth b)%Q (spt bh) in
  let bh := set_spt sorted bh in
  let points := List.map (sptPoint xS surfElev) sorted in
  let dots := List.map (sptPoint xS surfElev) (spt bh) in
  ({| startX := startX; surfElev := surfElev;
      columnName := boreholeName hd;
      columnElevation := elevation hd;
      columnCoordinates := coordinates hd;
      columnLayers := boxes; sptX := xS;
      sptPolyline := points; sptCircles := dots |}, bh).

Definition column (bh : ExtractedData) (idx : nat)
  : JS (Column * ExtractedData) :=
  hd <- deref (header bh) ;; ret (columnFor hd bh idx).
End Render.

(** [parseElevation(d.header.elevation)] *)
Definition headerElevation (d : ExtractedData) : JS number :=
  hd <- deref (header d) ;; ret (parseElevation (elevation hd)).

(** The component.  Besides the layout it returns the array [data] as the
    render leaves it. *)
Definition SoilProfileChart (data : list ExtractedData)
  : JS (LayoutModel * list ExtractedData) :=
  elevations <- mapM headerElevation data ;;
  let isRelative := isRelativeMode elevations (List.length data) in
  let plot := plotElevations data elevations isRelative in
  let '(maxAbsElev, minAbsElev) :=
    extentFrom plot 0 data (NegInfinity, Infinity) in
  let maxAbsElev := (Num.ceil maxAbsElev + Fin 1)%num in
  let minAbsElev := (Num.floor minAbsElev - Fin 1)%num in
  let elevRange := (maxAbsElev - minAbsElev)%num in
  let CHART_HEIGHT := (elevRange * PIXELS_PER_METER)%num in
  let CONTENT_WIDTH :=
    (MARGIN_SIDES * Fin 2 + ofNat (List.length data) * COLUMN_WIDTH
     + (ofNat (List.length data) - Fin 1) * COLUMN_GAP)%num in
  let CANVAS_WIDTH := (CONTENT_WIDTH + Fin 100)%num in
  let CANVAS_HEIGHT := (CHART_HEIGHT + MARGIN_TOP + MARGIN_BOTTOM)%num in
  indices <- Array_from_length (Num.ceil elevRange + Fin 1)%num ;;
  let lines := List.map (gridLine isRelative maxAbsElev CANVAS_WIDTH) indices in
  cols <- mapiMFrom (column maxAbsElev plot) 0 data ;;
  let data := List.map snd cols in
  (* [data[0].header.projectName] *)
  match data with
  | [] => throw TypeError
  | first :: _ =>
      hd <- deref (header first) ;;
      ret ({| canvasWidth := CANVAS_WIDTH; canvasHeight := CANVAS_HEIGHT;
              chartHeight := CHART_HEIGHT; relativeMode := isRelative;
              topElevation := maxAbsElev; bottomElevation := minAbsElev;
              grid := lines; columns := List.map fst cols;
              legendX := (CANVAS_WIDTH - Fin 450)%num;
              legendY := (CANVAS_HEIGHT - Fin 180)%num;
              legendProject := projectName hd |}, data)
  end.

(** ** Descriptions used in the statements

    What [mergeItem] does to a record that is already in [mergedMap], to
    its header, and what the loop has filed under a name. *)

Definition appendLayers (existing incoming : list SoilLayer) : list SoilLayer :=
  if (0 <? List.length incoming)%nat then mergeLayers existing incoming
  else existing.

Definition appendSpt (existing incoming : list SPTRecord) : list SPTRecord :=
  if (0 <? List.length incoming)%nat then mergeSpt existing incoming
  else existing.

Definition mergeData (existing item : ExtractedData) : ExtractedData :=
  {| internalId := internalId existing; header := header existing;
     layers := appendLayers (layers existing) (layers item);
     spt := appendSpt (spt existing) (spt item) |}.

Definition backfilled (e i : HeaderData) : HeaderData :=
  {| projectName := if truthy (projectName e) then projectName e
                    else projectName i;
     boreholeName := boreholeName e;
     date := date e;
     elevation :=
       if negb (truthy (elevation e)) || String.eqb (elevation e) "0.00"
       then elevation i else elevation e;
     coordinates := if truthy (coordinates e) then coordinates e
                    else coordinates i;
     client := client e;
     waterTable :=
       if String.eqb (waterTable e) "-" || negb (truthy (waterTable e))
       then waterTable i else waterTable e |}.

(** The key of a fragment: its trimmed borehole name. *)
Definition nameOf (h : heap) (item : ExtractedData) : string :=
  match h !! header item with
  | Some hd => trim (boreholeName hd)
  | None => EmptyString
  end.

(** The fragments of a list that carry a given name, in arrival order. *)
Definition fragmentsOf (h : heap) (k : string) (rawList : list ExtractedData)
  : list ExtractedData :=
  List.filter (fun item => String.eqb (nameOf h item) k) rawList.

(** The record that a group of fragments is folded into, first to last. *)
Definition reconcile (frags : list ExtractedData) : option ExtractedData :=
  match frags with
  | [] => None
  | first :: later => Some (fold_left mergeData later first)
  end.

Definition isPrototypeKey (k : string) : bool :=
  existsb (String.eqb k) Object_prototype_keys.

(** The state of the loop once the fragments [done] have been visited:
    the names in the store are those of the start, [mergedMap] holds under
    every name the fold of the fragments that carry it, and no visited
    fragment was unreadable or named like a built-in. *)
Record MergeInv (h0 : heap) (done : list ExtractedData)
    (m : list (string * ExtractedData)) (h : heap) : Prop := {
  inv_names : forall l, boreholeName <$> (h !! l) = boreholeName <$> (h0 !! l);
  inv_own : forall k, k <> EmptyString ->
            getOwn m k = reconcile (fragmentsOf h0 k done);
  inv_named : getOwn m EmptyString = None;
  inv_nodup : NoDup (List.map fst m);
  inv_alloc : forall item, In item done -> is_Some (h0 !! header item);
  inv_proto : forall item, In item done ->
              isPrototypeKey (nameOf h0 item) = false
}.

(** The order of the elements of a sort key. *)
Definition ltElement (a b : N * N) : Prop :=
  (fst a < fst b \/ (fst a = fst b /\ snd a < snd b))%N.

(** The name that the final sort reads in a record, and the order it
    sorts by. *)
Definition nameIn (h : heap) (d : ExtractedData) : string :=
  match h !! header d with
  | Some hd => boreholeName hd
  | None => EmptyString
  end.

Definition nameOrder (primary : ascii -> N) (h : heap) (a b : ExtractedData)
  : Prop :=
  (localeCompare primary (nameIn h a) (nameIn h b) <= 0)%Q.

(** The quantities that [SoilProfileChart] computes on the way, as
    functions of the store and of the records. *)
Definition emptyHeader : HeaderData :=
  {| projectName := EmptyString; boreholeName := EmptyString;
     date := EmptyString; elevation := EmptyString;
     coordinates := EmptyString; client := EmptyString;
     waterTable := EmptyString |}.

Definition headerOf (h : heap) (d : ExtractedData) : HeaderData :=
  match h !! header d with Some hd => hd | None => emptyHeader end.

Definition elevationsOf (h : heap) (data : list ExtractedData) : list number :=
  List.map (fun d => parseElevation (elevation (headerOf h d))) data.

Definition modeOf (h : heap) (data : list ExtractedData) : bool :=
  isRelativeMode (elevationsOf h data) (List.length data).

Definition plotOf (h : heap) (data : list ExtractedData) : list number :=
  plotElevations data (elevationsOf h data) (modeOf h data).

Definition topOf (h : heap) (data : list ExtractedData) : number :=
  (Num.ceil (fst (extentFrom (plotOf h data) 0 data (NegInfinity, Infinity)))
   + Fin 1)%num.

Definition bottomOf (h : heap) (data : list ExtractedData) : number :=
  (Num.floor (snd (extentFrom (plotOf h data) 0 data (NegInfinity, Infinity)))
   - Fin 1)%num.

Definition canvasWidthOf (data : list ExtractedData) : number :=
  (MARGIN_SIDES * Fin 2 + ofNat (List.length data) * COLUMN_WIDTH
   + (ofNat (List.length data) - Fin 1) * COLUMN_GAP + Fin 100)%num.

(** The record that a column leaves behind. *)
Definition sortedSpt (bh : ExtractedData) : ExtractedData :=
  set_spt (Array_sort (compareNum depth) (spt bh)) bh.



(** ** Data for the examples *)

Module Sample.

(** A primary weight table: letters without their case, every other code
    unit by its number. *)
Definition primary (c : ascii) : N :=
  let n := codeUnit c in
  if ((65 <=? n) && (n <=? 90))%N then (n + 32)%N else n.

Definition hdr (name elev project day : string) : HeaderData :=
  {| projectName := project; boreholeName := name; date := day;
     elevation := elev; coordinates := EmptyString; client := EmptyString;
     waterTable := "-" |}.

Definition layer (id : string) (from to : Q) (desc : string) : SoilLayer :=
  {| layerId := id; depthFrom := from; depthTo := to; description := desc;
     uscs := "CL"; finePercent := None; plasticity := None; swelling := None;
     colorText := None; color := Some "#FFFFFF"%string;
     pattern := Some diagonal |}.

Definition test (id : string) (d n : Q) : SPTRecord :=
  {| sptId := id; depth := d; value := n; notes := Some EmptyString |}.

Definition frag (id : string) (hd : loc) (ls : list SoilLayer)
    (ss : list SPTRecord) : ExtractedData :=
  {| internalId := id; header := hd; layers := ls; spt := ss |}.

End Sample.

(** ** [ValidationTables] (components/ValidationTables.tsx)

    The component keeps the list of records under review and the index of
    the tab that is open.  Its handlers build new objects and hand the new
    list to [setDataList]; they are modelled by the list they hand over.
    A handler that edits a record reads [dataList[activeTab]] first, which
    throws when there is no such record. *)

(** [`${n}`] for a whole number that is not negative. *)
Definition decimal (n : N) : string :=
  DecimalString.NilZero.string_of_uint (N.to_uint n).

(** [{ ...object }] and object literals for headers: a new object in the
    store. *)
Definition alloc (hd : HeaderData) : JS loc :=
  fun h => let l := fresh (dom h) in Normal (l, <[l := hd]> h).

Definition set_boreholeName (v : string) (h : HeaderData) : HeaderData :=
  {| projectName := projectName h; boreholeName := v; date := date h;
     elevation := elevation h; coordinates := coordinates h;
     client := client h; waterTable := waterTable h |}.

Definition set_date (v : string) (h : HeaderData) : HeaderData :=
  {| projectName := projectName h; boreholeName := boreholeName h; date := v;
     elevation := elevation h; coordinates := coordinates h;
     client := client h; waterTable := waterTable h |}.

Definition set_client (v : string) (h : HeaderData) : HeaderData :=
  {| projectName := projectName h; boreholeName := boreholeName h;
     date := date h; elevation := elevation h; coordinates := coordinates h;
     client := v; waterTable := waterTable h |}.

Definition set_header (v : loc) (d : ExtractedData) : ExtractedData :=
  {| internalId := internalId d; header := v; layers := layers d;
     spt := spt d |}.

(** [keyof HeaderData] *)
Inductive HeaderKey : Type :=
  | K_projectName | K_boreholeName | K_date | K_elevation | K_coordinates
  | K_client | K_waterTable.

(** [{ ...header, [field]: value }], as a change of the copy. *)
Definition assignHeader (field : HeaderKey) (value : string)
  : HeaderData -> HeaderData :=
  match field with
  | K_projectName => set_projectName value
  | K_boreholeName => set_boreholeName value
  | K_date => set_date value
  | K_elevation => set_elevation value
  | K_coordinates => set_coordinates value
  | K_client => set_client value
  | K_waterTable => set_waterTable value
  end.

(** [field === 'projectName' || field === 'client'] *)
Definition isProjectWide (field : HeaderKey) : bool :=
  match field with K_projectName | K_client => true | _ => false end.

(** A key of [SoilLayer] with a value of its type, for
    [{ ...l, [field]: value }]. *)
Inductive LayerAssignment : Type :=
  | A_id (v : string)
  | A_depthFrom (v : Q)
  | A_depthTo (v : Q)
  | A_description (v : string)
  | A_uscs (v : string)
  | A_finePercent (v : option string)
  | A_plasticity (v : option string)
  | A_swelling (v : option string)
  | A_colorText (v : option string)
  | A_color (v : option string)
  | A_pattern (v : option Pattern).

Definition assignLayer (a : LayerAssignment) (l : SoilLayer) : SoilLayer :=
  {| layerId := match a with A_id v => v | _ => layerId l end;
     depthFrom := match a with A_depthFrom v => v | _ => depthFrom l end;
     depthTo := match a with A_depthTo v => v | _ => depthTo l end;
     description := match a with A_description v => v | _ => description l end;
     uscs := match a with A_uscs v => v | _ => uscs l end;
     finePercent := match a with A_finePercent v => v | _ => finePercent l end;
     plasticity := match a with A_plasticity v => v | _ => plasticity l end;
     swelling := match a with A_swelling v => v | _ => swelling l end;
     colorText := match a with A_colorText v => v | _ => colorText l end;
     color := match a with A_color v => v | _ => color l end;
     pattern := match a with A_pattern v => v | _ => pattern l end |}.

(** A key of [SPTRecord] with a value of its type. *)
Inductive SptAssignment : Type :=
  | A_sptId (v : string)
  | A_depth (v : Q)
  | A_value (v : Q)
  | A_notes (v : option string).

Definition assignSpt (a : SptAssignment) (s : SPTRecord) : SPTRecord :=
  {| sptId := match a with A_sptId v => v | _ => sptId s end;
     depth := match a with A_depth v => v | _ => depth s end;
     value := match a with A_value v => v | _ => value s end;
     notes := match a with A_notes v => v | _ => notes s end |}.

(** [{ ...item, header: { ...item.header, [field]: value } }].  The header
    objects of the model have all their properties, so the copy is made
    of a header that is there: the handlers run from the controls of a
    render, which has read the header of every record (see [rendered]). *)
Definition withNewHeader (field : HeaderKey) (value : string)
    (item : ExtractedData) : JS ExtractedData :=
  ihd <- deref (header item) ;;
  l <- alloc (assignHeader field value ihd) ;;
  ret (set_header l item).

Section ValidationTables.
Variable dataList : list ExtractedData.
Variable activeTab : nat.

(** [const newDataList = [...dataList]; newDataList[activeTab] =
    updatedData;].  The callers have read [dataList[activeTab]] before, so
    the index is within the list. *)
Definition updateActiveBorehole (updatedData : ExtractedData)
  : list ExtractedData :=
  <[activeTab := updatedData]> dataList.

(** [dataList[activeTab]], read for one of its properties. *)
Definition getCurrentData : JS ExtractedData :=
  match dataList !! activeTab with
  | Some d => ret d
  | None => throw TypeError
  end.

Definition handleHeaderChange (field : HeaderKey) (value : string)
  : JS (list ExtractedData) :=
  currentData <- getCurrentData ;;
  hd <- deref (header currentData) ;;
  newHeader <- alloc (assignHeader field value hd) ;;
  if isProjectWide field
  then mapM (withNewHeader field value) dataList
  else ret (<[activeTab := set_header newHeader currentData]> dataList).

Definition handleLayerChange (id : string) (a : LayerAssignment)
  : JS (list ExtractedData) :=
  currentData <- getCurrentData ;;
  let newLayers :=
    List.map (fun l => if String.eqb (layerId l) id then assignLayer a l else l)
      (layers currentData) in
  ret (updateActiveBorehole (set_layers newLayers currentData)).

Definition handleSPTChange (id : string) (a : SptAssignment)
  : JS (list ExtractedData) :=
  currentData <- getCurrentData ;;
  let newSPT :=
    List.map (fun s => if String.eqb (sptId s) id then assignSpt a s else s)
      (spt currentData) in
  ret (updateActiveBorehole (set_spt newSPT currentData)).

(** The handlers that the render builds for the record [activeData] it
    shows: the delete buttons of a layer and of an SPT record, and the
    button that adds an SPT record, [now] being the value of
    [Date.now()]. *)
Definition deleteLayer (activeData : ExtractedData) (id : string)
  : list ExtractedData :=
  updateActiveBorehole
    (set_layers
       (List.filter (fun x => negb (String.eqb (layerId x) id))
          (layers activeData))
       activeData).

Definition deleteSpt (activeData : ExtractedData) (id : string)
  : list ExtractedData :=
  updateActiveBorehole
    (set_spt
       (List.filter (fun x => negb (String.eqb (sptId x) id)) (spt activeData))
       activeData).

Definition addSpt (activeData : ExtractedData) (now : N)
  : list ExtractedData :=
  updateActiveBorehole
    (set_spt
       (spt activeData
        ++ [{| sptId := "new-" ++ decimal now; depth := 0; value := 0;
               notes := None |}])
       activeData).
End ValidationTables.

(** The state of the component and what the user can do with it: open a
    tab, type into a field of the header, of a layer or of an SPT record,
    delete a layer or an SPT record, and add an SPT record.  The button
    that adds a layer is left out: the description that [addLayer] gives
    the new layer is not a string of code units below 256. *)
Record Tables : Type := {
  dataList : list ExtractedData;
  activeTab : nat
}.

Inductive TablesEvent : Type :=
  | SelectTab (idx : nat)
  | ChangeHeader (field : HeaderKey) (value : string)
  | ChangeLayer (id : string) (a : LayerAssignment)
  | ChangeSPT (id : string) (a : SptAssignment)
  | DeleteLayer (id : string)
  | DeleteSpt (id : string)
  | AddSpt (now : N).

Definition withDataList (t : Tables) (m : JS (list ExtractedData))
  : JS Tables :=
  l <- m ;; ret {| dataList := l; activeTab := activeTab t |}.

(** What the render shows: nothing when there is no [dataList[activeTab]]
    ([if (!activeData) return null]), and nothing when a header of the
    list is missing, since the caption of every tab reads
    [item.header.boreholeName] and the render throws. *)
Definition rendered (t : Tables) (h : heap) : option ExtractedData :=
  match dataList t !! activeTab t with
  | None => None
  | Some activeData =>
      match mapM (fun item => deref (header item)) (dataList t) h with
      | Normal _ => Some activeData
      | Throw _ => None
      end
  end.

(** The state after an event; [None] when the render offers no control
    for it: there is a tab for every index of the list and for no other,
    and the tables and the buttons are those of [activeData]. *)
Definition dispatch (t : Tables) (h : heap) (e : TablesEvent)
  : option (JS Tables) :=
  match rendered t h with
  | None => None
  | Some activeData =>
      match e with
      | SelectTab idx =>
          if (idx <? List.length (dataList t))%nat
          then Some (ret {| dataList := dataList t; activeTab := idx |})
          else None
      | ChangeHeader field value =>
          Some (withDataList t
                  (handleHeaderChange (dataList t) (activeTab t) field value))
      | ChangeLayer id a =>
          Some (withDataList t
                  (handleLayerChange (dataList t) (activeTab t) id a))
      | ChangeSPT id a =>
          Some (withDataList t
                  (handleSPTChange (dataList t) (activeTab t) id a))
      | DeleteLayer id =>
          Some (withDataList t
                  (ret (deleteLayer (dataList t) (activeTab t) activeData id)))
      | DeleteSpt id =>
          Some (withDataList t
                  (ret (deleteSpt (dataList t) (activeTab t) activeData id)))
      | AddSpt now =>
          Some (withDataList t
                  (ret (addSpt (dataList t) (activeTab t) activeData now)))
      end
  end.

(** One event of a session, and a session: the component and the store
    before and after. *)
Inductive step : Tables * heap -> TablesEvent -> Tables * heap -> Prop :=
  | step_event t (h : heap) e m t' h' :
      dispatch t h e = Some m -> m h = Normal (t', h') ->
      step (t, h) e (t', h').

Inductive steps : Tables * heap -> list TablesEvent -> Tables * heap -> Prop :=
  | steps_done s : steps s [] s
  | steps_next s e s' es s'' :
      step s e s' -> steps s' es s'' -> steps s (e :: es) s''.

(** ** Text

    The messages of the service, the captions of the interface and the
    soil descriptions are not confined to the code units below 256: a
    text is the list of its UTF-16 code units.  The literals of the
    program are written below as Rocq strings, which hold the bytes of
    their UTF-8 form; [utf16] gives their code units (all of them are in
    the basic plane, three bytes at most). *)

Definition text : Type := list N.

Definition codeUnits (s : string) : text :=
  List.map codeUnit (list_ascii_of_string s).

Fixpoint utf16 (s : string) : text :=
  match s with
  | EmptyString => []
  | String c r =>
      let n := codeUnit c in
      if (n <? 128)%N then n :: utf16 r
      else
        match r with
        | EmptyString => []
        | String c2 r2 =>
            if (n <? 224)%N
            then ((n - 192) * 64 + (codeUnit c2 - 128))%N :: utf16 r2
            else
              match r2 with
              | EmptyString => []
              | String c3 r3 =>
                  ((n - 224) * 4096 + (codeUnit c2 - 128) * 64
                   + (codeUnit c3 - 128))%N :: utf16 r3
              end
        end
  end.

(** [a === b] on strings *)
Fixpoint sameText (a b : text) : bool :=
  match a, b with
  | [], [] => true
  | x :: a', y :: b' => N.eqb x y && sameText a' b'
  | _, _ => false
  end.

(** [s.startsWith(p)] and [s.includes(p)] *)
Fixpoint startsWith (s p : text) {struct p} : bool :=
  match p, s with
  | [], _ => true
  | _ :: _, [] => false
  | y :: p', x :: s' => N.eqb x y && startsWith s' p'
  end.

Fixpoint includes (s p : text) : bool :=
  startsWith s p
  || match s with
     | [] => false
     | _ :: r => includes r p
     end.

(** White space and line terminators, for [trim]. *)
Definition isWhiteSpaceUnit (n : N) : bool :=
  ((9 <=? n) && (n <=? 13) || (n =? 32) || (n =? 160) || (n =? 5760)
   || (8192 <=? n) && (n <=? 8202) || (n =? 8232) || (n =? 8233)
   || (n =? 8239) || (n =? 8287) || (n =? 12288) || (n =? 65279))%N.

Fixpoint trimTextStart (s : text) : text :=
  match s with
  | [] => []
  | c :: r => if isWhiteSpaceUnit c then trimTextStart r else s
  end.

Fixpoint trimTextEnd (s : text) : text :=
  match s with
  | [] => []
  | c :: r =>
      match trimTextEnd r with
      | [] => if isWhiteSpaceUnit c then [] else [c]
      | r' => c :: r'
      end
  end.

Definition trimText (s : text) : text := trimTextEnd (trimTextStart s).

(** [s.toUpperCase()] for a string of code units below 256.  Among them
    the small letters a to z and à to þ (but not ÷) have a capital 32
    below; µ goes to the Greek capital Μ, ÿ to Ÿ, and ß to SS. *)
Definition upperUnit (c : ascii) : text :=
  let n := codeUnit c in
  if ((97 <=? n) && (n <=? 122))%N then [(n - 32)%N]
  else if (n =? 181)%N then [924%N]
  else if (n =? 223)%N then [83%N; 83%N]
  else if ((224 <=? n) && (n <=? 254) && negb (n =? 247))%N then [(n - 32)%N]
  else if (n =? 255)%N then [376%N]
  else [n].

Definition toUpperCase (s : string) : text :=
  List.flat_map upperUnit (list_ascii_of_string s).

(** ** The extraction service (services/geminiService.ts)

    The service talks to the world: it draws random numbers, asks the
    model and waits.  What the world answers is given by a [Host]; what
    the program has done to it so far is a [World].  The console is left
    out. *)

(** A value that is thrown. *)
Inductive exn : Type :=
  | ErrorObject (message : text)   (* [new Error(message)], an error of the SDK *)
  | Native (e : jsError)           (* thrown by the engine *)
  | JSONSyntaxError                (* thrown by [JSON.parse] *)
  | UndefinedThrown.               (* [throw undefined] *)

Inductive outcome (A : Type) : Type :=
  | Fulfilled (a : A)
  | Rejected (e : exn).
Arguments Fulfilled {A} a.
Arguments Rejected {A} e.

(** The answer of the model as the response schema of the request
    describes it: [required] properties are there, the others may be
    missing. *)
Module Raw.
Record Header : Type := {
  projectName : option string;
  boreholeName : string;
  date : option string;
  elevation : option string;
  coordinates : option string;
  waterTable : option string
}.

Record Layer : Type := {
  depthFrom : Q;
  depthTo : Q;
  description : string;
  finePercent : option string;
  plasticity : option string;
  swelling : option string;
  colorText : option string;
  uscs : option string
}.

Record Spt : Type := {
  depth : Q;
  value : Q;
  notes : option string
}.

Record Data : Type := {
  header : option Header;
  layers : option (list Layer);
  spt : option (list Spt)
}.
End Raw.

(** The parts of a request.  The instruction text of the program is a
    constant and is kept as [Prompt]. *)
Inductive Part : Type :=
  | InlineData (data : text)       (* an image, [mimeType: "image/jpeg"] *)
  | HtmlContent (html : text)      (* [`HTML CONTENT:\n${input.html}`] *)
  | Prompt.

(** [{ base64?: string, html?: string }] *)
Record Source : Type := {
  base64 : option text;
  html : option text
}.

Inductive AppStage : Type := upload | validation | result.

(** The state of the [App] component. *)
Record AppState : Type := {
  stage : AppStage;
  loading : bool;
  loadingProgress : text;
  isGeneratingPDF : bool;
  extractedDataList : option (list ExtractedData)
}.

Record World : Type := {
  store : heap;                    (* the header objects *)
  drawn : nat;                     (* calls of [Math.random] *)
  issued : nat;                    (* calls of [crypto.randomUUID] *)
  sent : list (list Part);         (* the requests, the latest first *)
  timers : list Q;                 (* the delays that were waited for *)
  alerts : list text;              (* the messages of [alert] *)
  app : AppState
}.

Record Host : Type := {
  (* the [n]-th result of [Math.random()] *)
  random : nat -> Q;
  (* [crypto.randomUUID], where the platform has it *)
  randomUUID : option (nat -> string);
  (* the [n]-th answer of [generateContent]: [response.text], which may be
     undefined, or the error it rejects with *)
  generateContent : nat -> list Part -> outcome (option text);
  (* [JSON.parse] of a text that holds a value of the response schema;
     [None] stands for its [SyntaxError] *)
  JSON_parse : text -> option (list Raw.Data);
  (* [String.prototype.toLowerCase] *)
  toLowerCase : text -> text;
  (* the [message] of an error that the engine throws *)
  nativeMessage : exn -> text;
  (* the primary weights of the collation *)
  weights : ascii -> N
}.

(** Asynchronous code that awaits one thing after the other. *)
Definition Task (A : Type) : Type := World -> outcome A * World.

Definition resolve {A} (a : A) : Task A := fun w => (Fulfilled a, w).

Definition reject {A} (e : exn) : Task A := fun w => (Rejected e, w).

Definition andThen {A B} (m : Task A) (k : A -> Task B) : Task B :=
  fun w => match m w with
           | (Fulfilled a, w') => k a w'
           | (Rejected e, w') => (Rejected e, w')
           end.

(** [try { m } catch (error) { handler(error) }] *)
Definition tryCatch {A} (m : Task A) (handler : exn -> Task A) : Task A :=
  fun w => match m w with
           | (Fulfilled a, w') => (Fulfilled a, w')
           | (Rejected e, w') => handler e w'
           end.

(** [try { m } finally { f }] *)
Definition tryFinally {A} (m : Task A) (f : Task unit) : Task A :=
  fun w => match m w with
           | (r, w') =>
               match f w' with
               | (Fulfilled _, w'') => (r, w'')
               | (Rejected e, w'') => (Rejected e, w'')
               end
           end.

Notation "x <~ m ;; k" := (andThen m (fun x => k))
  (at level 90, m at level 80, right associativity).
Notation "m ;;~ k" := (andThen m (fun _ => k))
  (at level 90, right associativity).

Definition set_store (v : heap) (w : World) : World :=
  {| store := v; drawn := drawn w; issued := issued w; sent := sent w;
     timers := timers w; alerts := alerts w; app := app w |}.

Definition set_app (v : AppState) (w : World) : World :=
  {| store := store w; drawn := drawn w; issued := issued w; sent := sent w;
     timers := timers w; alerts := alerts w; app := v |}.

(** Code of the [JS] monad run on the store of the world.  What it wrote
    before it threw is lost with the records it wrote to. *)
Definition liftJS {A} (m : JS A) : Task A :=
  fun w => match m (store w) with
           | Normal (a, h) => (Fulfilled a, set_store h w)
           | Throw e => (Rejected (Native e), w)
           end.

Section Service.
Variable host : Host.

(** [Math.random()] *)
Definition Math_random : Task Q :=
  fun w => (Fulfilled (random host (drawn w)),
            {| store := store w; drawn := S (drawn w); issued := issued w;
               sent := sent w; timers := timers w; alerts := alerts w;
               app := app w |}).

(** [await new Promise(resolve => setTimeout(resolve, ms))] *)
Definition sleep (ms : Q) : Task unit :=
  fun w => (Fulfilled tt,
            {| store := store w; drawn := drawn w; issued := issued w;
               sent := sent w; timers := timers w ++ [ms]; alerts := alerts w;
               app := app w |}).

(** [alert(message)] *)
Definition alert (message : text) : Task unit :=
  fun w => (Fulfilled tt,
            {| store := store w; drawn := drawn w; issued := issued w;
               sent := sent w; timers := timers w;
               alerts := alerts w ++ [message]; app := app w |}).

(** [x | 0] for a finite number: the whole part, wrapped into the signed
    32-bit integers. *)
Definition toInt32 (x : Q) : Z :=
  let whole := if Qle_bool 0 x then Qfloor x else Qceiling x in
  ((whole + 2 ^ 31) mod 2 ^ 32 - 2 ^ 31)%Z.

(** [v.toString(16)] for an integer *)
Definition toString16 (v : Z) : string :=
  match v with
  | Zneg p => ("-" ++ HexadecimalString.NilZero.string_of_uint
                        (N.to_hex_uint (Npos p)))%string
  | _ => HexadecimalString.NilZero.string_of_uint (N.to_hex_uint (Z.to_N v))
  end.

(** The callback of the [replace] in [generateId]. *)
Definition randomDigit (c : ascii) : Task string :=
  x <~ Math_random ;;
  let r := toInt32 (x * 16) in
  let v := if Ascii.eqb c "x" then r else Z.lor (Z.land r 3) 8 in
  resolve (toString16 v).

(** [template.replace(/[xy]/g, callback)] *)
Fixpoint replaceXY (template : string) : Task string :=
  match template with
  | EmptyString => resolve EmptyString
  | String c r =>
      if Ascii.eqb c "x" || Ascii.eqb c "y"
      then d <~ randomDigit c ;; rest <~ replaceXY r ;; resolve (d ++ rest)%string
      else rest <~ replaceXY r ;; resolve (String c rest)
  end.

Definition generateId : Task string :=
  match randomUUID host with
  | Some uuid =>
      fun w => (Fulfilled (uuid (issued w)),
                {| store := store w; drawn := drawn w; issued := S (issued w);
                   sent := sent w; timers := timers w; alerts := alerts w;
                   app := app w |})
  | None => replaceXY "xxxxxxxx-xxxx-4xxx-yxxx-xxxxxxxxxxxx"
  end.

(** [error?.message || ""] *)
Definition messageOf (error : exn) : text :=
  match error with
  | ErrorObject message => message
  | UndefinedThrown => []
  | _ => nativeMessage host error
  end.

Definition isQuotaError (error : exn) : bool :=
  let errorMessage := messageOf error in
  includes errorMessage (utf16 "429")
  || includes errorMessage (utf16 "RESOURCE_EXHAUSTED")
  || includes errorMessage (utf16 "quota").

(** [Math.pow(2, i) * 5000 + Math.random() * 1000] *)
Definition waitTime (i : nat) (x : Q) : Q :=
  (inject_Z (2 ^ Z.of_nat i) * 5000 + x * 1000)%Q.

(** The loop of [callWithRetry] from the iteration [i] on, with [left]
    iterations to go. *)
Fixpoint retryFrom {A} (fn : Task A) (maxRetries : nat) (left i : nat)
    (lastError : exn) : Task A :=
  match left with
  | O => reject lastError
  | S left' =>
      tryCatch fn (fun error =>
        if isQuotaError error
           && (Z.of_nat i <? Z.of_nat maxRetries - 1)%Z
        then x <~ Math_random ;;
             sleep (waitTime i x) ;;~
             retryFrom fn maxRetries left' (S i) error
        else reject error)
  end.

Definition callWithRetry {A} (fn : Task A) (maxRetries : nat) : Task A :=
  retryFrom fn maxRetries maxRetries 0 UndefinedThrown.

(** [genAI.models.generateContent({ model, contents, config })] *)
Definition askModel (contents : list Part) : Task (option text) :=
  fun w => (generateContent host (List.length (sent w)) contents,
            {| store := store w; drawn := drawn w; issued := issued w;
               sent := contents :: sent w; timers := timers w;
               alerts := alerts w; app := app w |}).

(** What a [match] of [/```json\n?|```/] at the front of a text takes:
    nothing when there is no match. *)
Definition fenceLength (s : text) : nat :=
  if startsWith s (utf16 "```json" ++ [10%N]) then 8
  else if startsWith s (utf16 "```json") then 7
  else if startsWith s (utf16 "```") then 3
  else 0.

(** [s.replace(/```json\n?|```/g, '')]; [skip] code units of a match are
    still to be dropped. *)
Fixpoint stripFencesFrom (skip : nat) (s : text) : text :=
  match s with
  | [] => []
  | c :: r =>
      match skip with
      | S k => stripFencesFrom k r
      | O =>
          match fenceLength s with
          | O => c :: stripFencesFrom 0 r
          | S k => stripFencesFrom k r
          end
      end
  end.

Definition stripFences (s : text) : text := stripFencesFrom 0 s.

Definition cleanText (s : text) : text := trimText (stripFences s).

Definition inferUSCS (desc : text) : string :=
  match desc with
  | [] => "CL"
  | _ =>
      let d := toLowerCase host desc in
      if includes d (utf16 "חול")
         && (includes d (utf16 "כורכר") || includes d (utf16 "נקי"))
      then "SP"
      else if includes d (utf16 "חול") && includes d (utf16 "חרסיתי")
      then "SC"
      else if includes d (utf16 "חרסית") && includes d (utf16 "שמנה")
      then "CH"
      else if includes d (utf16 "חרסית") then "CL"
      else if includes d (utf16 "מילוי") then "Fill"
      else "CL"
  end.

Definition mapUSCSToPattern (uscs : string) : Pattern :=
  let code := if truthy uscs then toUpperCase uscs else [] in
  if includes code (utf16 "S") && negb (includes code (utf16 "C"))
     && negb (includes code (utf16 "M"))
  then dots
  else if includes code (utf16 "C") || includes code (utf16 "CLAY")
  then diagonal
  else if includes code (utf16 "G") || includes code (utf16 "GRAVEL")
  then circles
  else if includes code (utf16 "FILL") then solid
  else diagonal.

Definition mapUSCSToColor (uscs : string) : string :=
  let code := if truthy uscs then toUpperCase uscs else [] in
  if includes code (utf16 "SAND") || sameText code (utf16 "SP")
  then "#FEF9C3"
  else if includes code (utf16 "CLAY") || sameText code (utf16 "CH")
  then "#D7CCC8"
  else if includes code (utf16 "FILL") then "#DCFCE7"
  else "#FFFFFF".

(** [value || fallback] for a string that may be missing *)
Definition orElse (value : option string) (fallback : string) : string :=
  match value with
  | Some s => if truthy s then s else fallback
  | None => fallback
  end.

(** [rawData.header?.key || fallback] *)
Definition headerField (rawData : Raw.Data)
    (key : Raw.Header -> option string) (fallback : string) : string :=
  match Raw.header rawData with
  | Some hd => orElse (key hd) fallback
  | None => fallback
  end.

Definition toHeader (rawData : Raw.Data) : HeaderData :=
  {| projectName := headerField rawData Raw.projectName "";
     boreholeName :=
       headerField rawData (fun hd => Some (Raw.boreholeName hd)) "?";
     date := headerField rawData Raw.date "";
     elevation := headerField rawData Raw.elevation "0.00";
     coordinates := headerField rawData Raw.coordinates "";
     client := "";
     waterTable := headerField rawData Raw.waterTable "-" |}.

Definition toLayer (internalId : string) (l : Raw.Layer) (index : nat)
  : SoilLayer :=
  let uscs :=
    match Raw.uscs l with
    | Some s => if truthy s then s
                else inferUSCS (codeUnits (Raw.description l))
    | None => inferUSCS (codeUnits (Raw.description l))
    end in
  {| layerId := (internalId ++ "-layer-" ++ decimal (N.of_nat index))%string;
     depthFrom := Raw.depthFrom l; depthTo := Raw.depthTo l;
     description := Raw.description l;
     uscs := uscs;
     finePercent := Raw.finePercent l; plasticity := Raw.plasticity l;
     swelling := Raw.swelling l; colorText := Raw.colorText l;
     color := Some (mapUSCSToColor uscs);
     pattern := Some (mapUSCSToPattern uscs) |}.

Definition toSpt (internalId : string) (s : Raw.Spt) (index : nat)
  : SPTRecord :=
  {| sptId := (internalId ++ "-spt-" ++ decimal (N.of_nat index))%string;
     depth := Raw.depth s; value := Raw.value s;
     notes := Some (orElse (Raw.notes s) "") |}.

(** [xs || []] *)
Definition orEmpty {A} (xs : option (list A)) : list A :=
  match xs with Some l => l | None => [] end.

(** The callback of [rawDataArray.map]. *)
Definition toExtractedData (rawData : Raw.Data) : Task ExtractedData :=
  internalId <~ generateId ;;
  hd <~ liftJS (alloc (toHeader rawData)) ;;
  resolve {| internalId := internalId; header := hd;
             layers := mapi (toLayer internalId) (orEmpty (Raw.layers rawData));
             spt := mapi (toSpt internalId) (orEmpty (Raw.spt rawData)) |}.

Fixpoint mapTask {A B} (f : A -> Task B) (xs : list A) : Task (list B) :=
  match xs with
  | [] => resolve []
  | x :: r => y <~ f x ;; ys <~ mapTask f r ;; resolve (y :: ys)
  end.

(** [[image, html, prompt].filter(Boolean)] *)
Definition partsOf (input : Source) : list Part :=
  match base64 input with
  | Some (c :: d) => [InlineData (c :: d)]
  | _ => []
  end
  ++ match html input with
     | Some (c :: d) => [HtmlContent (c :: d)]
     | _ => []
     end
  ++ [Prompt].

Definition parseBoreholeLog (input : Source) : Task (list ExtractedData) :=
  tryCatch
    (let contents := partsOf input in
     response <~ callWithRetry (askModel contents) 3 ;;
     match response with
     | None | Some [] => reject (ErrorObject (utf16 "No data"))
     | Some text =>
         match JSON_parse host (cleanText text) with
         | None => reject JSONSyntaxError
         | Some rawDataArray => mapTask toExtractedData rawDataArray
         end
     end)
    (fun error => reject error).

(** ** The [App] component: the upload of the sources *)

Definition setLoading (v : bool) : Task unit :=
  fun w => (Fulfilled tt,
            set_app {| stage := stage (app w); loading := v;
                       loadingProgress := loadingProgress (app w);
                       isGeneratingPDF := isGeneratingPDF (app w);
                       extractedDataList := extractedDataList (app w) |} w).

Definition setLoadingProgress (v : text) : Task unit :=
  fun w => (Fulfilled tt,
            set_app {| stage := stage (app w); loading := loading (app w);
                       loadingProgress := v;
                       isGeneratingPDF := isGeneratingPDF (app w);
                       extractedDataList := extractedDataList (app w) |} w).

Definition setStage (v : AppStage) : Task unit :=
  fun w => (Fulfilled tt,
            set_app {| stage := v; loading := loading (app w);
                       loadingProgress := loadingProgress (app w);
                       isGeneratingPDF := isGeneratingPDF (app w);
                       extractedDataList := extractedDataList (app w) |} w).

Definition setExtractedDataList (v : option (list ExtractedData)) : Task unit :=
  fun w => (Fulfilled tt,
            set_app {| stage := stage (app w); loading := loading (app w);
                       loadingProgress := loadingProgress (app w);
                       isGeneratingPDF := isGeneratingPDF (app w);
                       extractedDataList := v |} w).

(** [`${n}`] in a text *)
Definition decimalText (n : nat) : text := codeUnits (decimal (N.of_nat n)).

Definition analysingPage (i total : nat) : text :=
  utf16 "מנתח עמוד " ++ decimalText (i + 1) ++ utf16 " מתוך "
  ++ decimalText total ++ utf16 "...".

Definition waitingForPage (i : nat) : text :=
  utf16 "ממתין בין עמודים (עמוד " ++ decimalText (i + 1) ++ utf16 ")...".

(** The loop over the sources from the page [i] on; the state is
    [(allExtracted, errorCount)]. *)
Fixpoint extractPages (total : nat) (sources : list Source) (i : nat)
    (acc : list ExtractedData * nat) : Task (list ExtractedData * nat) :=
  match sources with
  | [] => resolve acc
  | source :: rest =>
      setLoadingProgress (analysingPage i total) ;;~
      (if (0 <? i)%nat
       then setLoadingProgress (waitingForPage i) ;;~
            sleep 5000 ;;~
            setLoadingProgress (analysingPage i total)
       else resolve tt) ;;~
      acc' <~ tryCatch
                (arrayResult <~ parseBoreholeLog source ;;
                 resolve (fst acc ++ arrayResult, snd acc))
                (fun err => resolve (fst acc, S (snd acc))) ;;
      extractPages total rest (S i) acc'
  end.

Definition noPageExtracted : text :=
  utf16 "לא ניתן היה לחלץ נתונים מאף עמוד. וודא שאין חסימת מכסות (Quota).".

Definition somePagesFailed (errorCount : nat) : text :=
  utf16 "העיבוד הסתיים, אך " ++ decimalText errorCount
  ++ utf16 " עמודים נכשלו עקב חריגת מכסה או שגיאת פענוח.".

Definition analysisFailed : text :=
  utf16 "שגיאה בניתוח הלוגים. וודא שהתמונות ברורות ושמכסת ה-API שלך תקינה.".

Definition handleFilesSelect (sources : list Source) : Task unit :=
  setLoading true ;;~
  setLoadingProgress (utf16 "מאתחל עיבוד מרובה...") ;;~
  tryFinally
    (tryCatch
       (pages <~ extractPages (List.length sources) sources 0 ([], 0%nat) ;;
        let '(allExtracted, errorCount) := pages in
        match allExtracted with
        | [] => reject (ErrorObject noPageExtracted)
        | _ =>
            mergedResults <~ liftJS (mergeBoreholes (weights host) allExtracted) ;;
            setExtractedDataList (Some mergedResults) ;;~
            setStage validation ;;~
            if (0 <? errorCount)%nat then alert (somePagesFailed errorCount)
            else resolve tt
        end)
       (fun error =>
          (* [error.message || "..."] *)
          match error with
          | UndefinedThrown => reject (Native TypeError)
          | _ => alert (match messageOf error with
                        | [] => analysisFailed
                        | message => message
                        end)
          end))
    (setLoading false ;;~ setLoadingProgress []).

Definition handleValidationConfirm (finalData : list ExtractedData)
  : Task unit :=
  setExtractedDataList (Some finalData) ;;~ setStage result.

(** [handleReset]; [confirmed] is the answer to [window.confirm]. *)
Definition handleReset (confirmed : bool) : Task unit :=
  if confirmed
  then setStage upload ;;~ setExtractedDataList None
  else resolve tt.
End Service.

(** ** Descriptions used in the statements about the service *)

(** The small form of the capital letters A to Z. *)
Definition lowerAscii (s : string) : string :=
  string_of_list_ascii
    (List.map (fun c => let n := codeUnit c in
                        if ((65 <=? n) && (n <=? 90))%N
                        then ascii_of_N (n + 32) else c)
       (list_ascii_of_string s)).

(** The digits of [toString(16)]. *)
Definition isHexDigit (c : ascii) : bool :=
  let n := codeUnit c in
  ((48 <=? n) && (n <=? 57) || (97 <=? n) && (n <=? 102))%N.

(** A string has the form of a template of [generateId]: a hexadecimal
    digit for every [x], one of 8, 9, a and b for every [y], and the
    character of the template everywhere else. *)
Fixpoint matchesTemplate (template s : string) : bool :=
  match template, s with
  | EmptyString, EmptyString => true
  | String t tr, String c sr =>
      (if Ascii.eqb t "x" then isHexDigit c
       else if Ascii.eqb t "y"
            then Ascii.eqb c "8" || Ascii.eqb c "9" || Ascii.eqb c "a"
                 || Ascii.eqb c "b"
            else Ascii.eqb c t)
      && matchesTemplate tr sr
  | _, _ => false
  end.

(** The number of [x] and [y] in a template. *)
Fixpoint marks (template : string) : nat :=
  match template with
  | EmptyString => 0
  | String c r =>
      (if Ascii.eqb c "x" || Ascii.eqb c "y" then 1 else 0) + marks r
  end.

(** The world after [n] more calls of [Math.random]. *)
Definition afterDraws (n : nat) (w : World) : World :=
  {| store := store w; drawn := n + drawn w; issued := issued w;
     sent := sent w; timers := timers w; alerts := alerts w; app := app w |}.

(** The answer is the rejection of a quota error. *)
Definition quotaRejection (host : Host) (r : outcome (option text)) : bool :=
  match r with
  | Rejected e => isQuotaError host e
  | Fulfilled _ => false
  end.

(** The world after [k] attempts of a request that failed on the quota
    and were waited for, from the iteration [i] on, and one more
    attempt. *)
Definition afterAttempts (host : Host) (contents : list Part) (i k : nat)
    (w : World) : World :=
  {| store := store w; drawn := k + drawn w; issued := issued w;
     sent := repeat contents (S k) ++ sent w;
     timers := timers w
               ++ List.map (fun t => waitTime (i + t)
                                       (random host (drawn w + t)))
                    (seq 0 k);
     alerts := alerts w; app := app w |}.

(** Everything of the world but the two counters of random numbers and
    identifiers and the store. *)
Definition sameTraffic (w w' : World) : Prop :=
  sent w' = sent w /\ timers w' = timers w /\ alerts w' = alerts w
  /\ app w' = app w.

(** What the callback of [map] makes of one borehole of the answer. *)
Definition extractedFrom (host : Host) (w w' : World) (raw : Raw.Data)
    (d : ExtractedData) : Prop :=
  store w !! header d = None
  /\ store w' !! header d = Some (toHeader raw)
  /\ layers d = mapi (toLayer host (internalId d)) (orEmpty (Raw.layers raw))
  /\ spt d = mapi (toSpt (internalId d)) (orEmpty (Raw.spt raw)).

(** The value of a header property in the answer of the model, when it
    is there and not empty. *)
Definition given (rawData : Raw.Data) (key : Raw.Header -> option string)
  : option string :=
  match Raw.header rawData with
  | Some hd =>
      match key hd with
      | Some s => if truthy s then Some s else None
      | None => None
      end
  | None => None
  end.

(** The parts of the state of the [App] that the progress messages leave
    alone. *)
Definition sameScreen (a a' : AppState) : Prop :=
  stage a' = stage a /\ extractedDataList a' = extractedDataList a
  /\ isGeneratingPDF a' = isGeneratingPDF a.

(** The world after the [finally] block of the upload, after an alert,
    and after the merged list was put on the validation screen. *)
Definition settled (w : World) : World :=
  snd ((setLoading false ;;~ setLoadingProgress []) w).

Definition alerted (message : text) (w : World) : World :=
  snd (alert message w).

Definition presented (merged : list ExtractedData) (w : World) : World :=
  snd ((setExtractedDataList (Some merged) ;;~ setStage validation) w).

(** The world after an upload whose pages gave the records [pages] and
    failed [failed] times, and left the world [w] behind them. *)
Definition afterUpload (host : Host) (pages : list ExtractedData)
    (failed : nat) (w : World) : World :=
  match pages with
  | [] => settled (alerted noPageExtracted w)
  | _ :: _ =>
      match mergeBoreholes (weights host) pages (store w) with
      | Normal (merged, h) =>
          let shown := presented merged (set_store h w) in
          settled (if (0 <? failed)%nat
                   then alerted (somePagesFailed failed) shown
                   else shown)
      | Throw e =>
          settled (alerted (match nativeMessage host (Native e) with
                            | [] => analysisFailed
                            | message => message
                            end) w)
      end
  end.

(** What the user and the components do to the [App]. *)
Inductive AppEvent : Type :=
  | FilesSelected (sources : list Source)
  | ValidationConfirmed (finalData : list ExtractedData)
  | ResetAnswered (confirmed : bool).

Definition handleEvent (host : Host) (e : AppEvent) : Task unit :=
  match e with
  | FilesSelected sources => handleFilesSelect host sources
  | ValidationConfirmed finalData => handleValidationConfirm finalData
  | ResetAnswered confirmed => handleReset confirmed
  end.

(** The handlers of a list of events, one after the other. *)
Fixpoint handleEvents (host : Host) (es : list AppEvent) : Task unit :=
  match es with
  | [] => resolve tt
  | e :: r => handleEvent host e ;;~ handleEvents host r
  end.

(** ** Data for the examples of the service and of the components *)

Module Demo.

(** Two boreholes of one site, 1.5 apart in elevation, and the same two
    with headers that put them 70 apart. *)
Definition headers : heap :=
  {[ 1%nat := Sample.hdr "BH-1" "10" "Site A" "2024-01-01";
     2%nat := Sample.hdr "BH-2" "8.5" "Site B" "" ]}.

Definition farHeaders : heap :=
  {[ 1%nat := Sample.hdr "BH-1" "10" "Site A" "2024-01-01";
     2%nat := Sample.hdr "BH-2" "80" "Site B" "" ]}.

Definition first : ExtractedData :=
  Sample.frag "a" 1
    [Sample.layer "a-layer-0" 0 1 "clay";
     Sample.layer "a-layer-1" 1 (5 # 2) "sand"]
    [Sample.test "a-spt-0" 3 60; Sample.test "a-spt-1" 1 10].

Definition second : ExtractedData :=
  Sample.frag "b" 2 [Sample.layer "b-layer-0" (1 # 2) 2 "sand"] [].

Definition boreholes : list ExtractedData := [first; second].

(** The review tables opened on them, and a session of the user. *)
Definition tables : Tables := {| dataList := boreholes; activeTab := 0 |}.

Definition session : list TablesEvent :=
  [ ChangeHeader K_client "ACME"; AddSpt 5; SelectTab 1;
    ChangeHeader K_date "2024-02-02"; SelectTab 0; DeleteSpt "new-5" ].

(** A platform without [crypto.randomUUID] whose random numbers run
    through the sixteenths, and a model that is over its quota at the
    first request and answers every other one with a fenced array of one
    object without properties. *)
Definition answers (request : nat) (contents : list Part)
  : outcome (option text) :=
  match request with
  | O => Rejected (ErrorObject (utf16 "429 Too Many Requests"))
  | S _ => Fulfilled (Some (utf16 "```json[{}]```"))
  end.

Definition parse (t : text) : option (list Raw.Data) :=
  if sameText t (utf16 "[{}]")
  then Some [ {| Raw.header := None; Raw.layers := None; Raw.spt := None |} ]
  else None.

Definition lowerUnits (t : text) : text :=
  List.map (fun n => if ((65 <=? n) && (n <=? 90))%N then (n + 32)%N else n) t.

Definition host : Host :=
  {| random := fun n => Z.of_nat (n mod 16) # 16;
     randomUUID := None;
     generateContent := answers;
     JSON_parse := parse;
     toLowerCase := lowerUnits;
     nativeMessage := fun _ => utf16 "Cannot read properties of undefined";
     weights := Sample.primary |}.

(** The application as it starts. *)
Definition initial : World :=
  {| store := ∅; drawn := 0; issued := 0; sent := []; timers := [];
     alerts := [];
     app := {| stage := upload; loading := false; loadingProgress := [];
               isGeneratingPDF := false; extractedDataList := None |} |}.

(** An image, and what the user does with it. *)
Definition page : Source :=
  {| base64 := Some (utf16 "/9j/4AAQ"); html := None |}.

Definition visit : list AppEvent :=
  [ FilesSelected [page; page]; ValidationConfirmed boreholes;
    ResetAnswered false; ResetAnswered true ].

(** Two answers of the model for one borehole. *)
Definition rawFirst : Raw.Data :=
  {| Raw.header :=
       Some {| Raw.projectName := None; Raw.boreholeName := "1";
               Raw.date := Some "2024-01-01"%string;
               Raw.elevation := Some "0.00"%string;
               Raw.coordinates := None; Raw.waterTable := None |};
     Raw.layers := None; Raw.spt := None |}.

Definition rawSecond : Raw.Data :=
  {| Raw.header :=
       Some {| Raw.projectName := Some "Site A"%string;
               Raw.boreholeName := "1";
               Raw.date := None; Raw.elevation := Some "12.5"%string;
               Raw.coordinates := None;
               Raw.waterTable := Some "3.2"%string |};
     Raw.layers := None; Raw.spt := None |}.

(** The layers and the SPT records of an answer. *)
Definition rawLayers : list Raw.Layer :=
  [ {| Raw.depthFrom := 0; Raw.depthTo := 1; Raw.description := "clay";
       Raw.finePercent := None; Raw.plasticity := None;
       Raw.swelling := None; Raw.colorText := None;
       Raw.uscs := Some "CL"%string |};
    {| Raw.depthFrom := 1; Raw.depthTo := 3; Raw.description := "sand";
       Raw.finePercent := None; Raw.plasticity := None;
       Raw.swelling := None; Raw.colorText := None;
       Raw.uscs := Some "SP"%string |} ].

Definition rawSpt : list Raw.Spt :=
  [ {| Raw.depth := 1; Raw.value := 12; Raw.notes := None |} ].

End Demo.

(** * Properties *)

(** ** The helpers on a few inputs *)

Example trim_padded : trim "  BH 7  " = "BH 7"%string.
Proof. reflexivity. Qed.

Example trim_blank : trim "   " = EmptyString.
Proof. reflexivity. Qed.

Example parseFloat_decimal : parseFloat "12.50" = Fin (1250 # 100)%Q.
Proof. vm_compute. reflexivity. Qed.

Example parseFloat_no_digit : parseFloat "--5" = NaN.
Proof. reflexivity. Qed.

Example parseElevation_unit : parseElevation "+12.5 m" = Fin (125 # 10)%Q.
Proof. vm_compute. reflexivity. Qed.

Example parseElevation_text : parseElevation "n/a" = Fin 0.
Proof. reflexivity. Qed.

Example arrayIndex_canonical :
  (arrayIndex "10", arrayIndex "07", arrayIndex "BH-1")
  = (Some 10%N, None, None).
Proof. reflexivity. Qed.

Example Object_values_order :
  Object_values [("BH-2"%string, 1%nat); ("10"%string, 2%nat);
                 ("A"%string, 3%nat); ("2"%string, 4%nat)]
  = [4%nat; 2%nat; 1%nat; 3%nat].
Proof. reflexivity. Qed.

Example localeCompare_numeric :
  localeCompare Sample.primary "bh-2" "BH-10" = (-1)%Q.
Proof. reflexivity. Qed.

(** ** The sort *)

Section ArraySortFacts.
Context {A : Type}.
Variable compareFn : A -> A -> Q.

Lemma insertSorted_perm x l : Permutation (insertSorted compareFn x l) (x :: l).
Proof.
  induction l as [|y r IH]; simpl; [reflexivity|].
  destruct (0 ?= compareFn x y)%Q; try reflexivity.
  rewrite IH. apply perm_swap.
Qed.

Lemma Array_sort_perm l : Permutation (Array_sort compareFn l) l.
Proof.
  induction l as [|x r IH]; simpl; [reflexivity|].
  rewrite insertSorted_perm. now constructor.
Qed.

Lemma Array_sort_In x l : In x (Array_sort compareFn l) <-> In x l.
Proof.
  split; apply Permutation_in;
    [apply Array_sort_perm | symmetry; apply Array_sort_perm].
Qed.

Lemma Array_sort_length l : List.length (Array_sort compareFn l) = List.length l.
Proof. apply Permutation_length, Array_sort_perm. Qed.

(** Stability: elements that the comparator does not order strictly keep
    their relative order. *)
Lemma insertSorted_filter (p : A -> bool) x l :
  (forall y, p x = true -> p y = true -> ~ (0 < compareFn x y)%Q) ->
  List.filter p (insertSorted compareFn x l) = List.filter p (x :: l).
Proof.
  intros Hp. induction l as [|y r IH]; simpl; [reflexivity|].
  destruct (0 ?= compareFn x y)%Q eqn:E; try reflexivity.
  simpl in *. rewrite IH.
  destruct (p x) eqn:Px, (p y) eqn:Py; try reflexivity.
  exfalso. apply (Hp y eq_refl Py). now apply Qlt_alt.
Qed.

Lemma Array_sort_stable (p : A -> bool) l :
  (forall x y, p x = true -> p y = true -> ~ (0 < compareFn x y)%Q) ->
  List.filter p (Array_sort compareFn l) = List.filter p l.
Proof.
  intros Hp. induction l as [|x r IH]; simpl; [reflexivity|].
  rewrite insertSorted_filter by (intros; now apply Hp).
  simpl. now rewrite IH.
Qed.

Hypothesis compare_anti :
  forall x y, (0 < compareFn x y)%Q -> (compareFn y x <= 0)%Q.

Lemma insertSorted_sorted x l :
  Sorted (before compareFn) l -> Sorted (before compareFn) (insertSorted compareFn x l).
Proof.
  induction l as [|y r IH]; simpl; intros Hs.
  - repeat constructor.
  - destruct (0 ?= compareFn x y)%Q eqn:E.
    + constructor; [assumption|]. constructor. unfold before.
      apply Qeq_alt in E. rewrite <- E. apply Qle_refl.
    + inversion Hs as [|? ? Hr Hhd]; subst.
      constructor; [now apply IH|].
      apply Qlt_alt in E.
      destruct r as [|z r']; simpl.
      * constructor. now apply compare_anti.
      * destruct (0 ?= compareFn x z)%Q;
          constructor; try (now apply compare_anti);
          now inversion Hhd.
    + constructor; [assumption|]. constructor. unfold before.
      apply Qgt_alt in E. now apply Qlt_le_weak.
Qed.

Lemma Array_sort_sorted l : Sorted (before compareFn) (Array_sort compareFn l).
Proof.
  induction l as [|x r IH]; simpl; [constructor|].
  now apply insertSorted_sorted.
Qed.

(** A list that is already in order is left as it is. *)
Lemma insertSorted_head x l :
  Forall (before compareFn x) l -> insertSorted compareFn x l = x :: l.
Proof.
  destruct l as [|y r]; simpl; [reflexivity|].
  intros HF. inversion HF as [|? ? Hxy _]; subst.
  destruct (0 ?= compareFn x y)%Q eqn:E; try reflexivity.
  apply Qlt_alt in E. unfold before in Hxy.
  exfalso. eapply Qlt_irrefl, Qlt_le_trans; eassumption.
Qed.

Lemma Array_sort_id l : StronglySorted (before compareFn) l -> Array_sort compareFn l = l.
Proof.
  induction 1 as [|x l Hs IH HF]; simpl; [reflexivity|].
  rewrite IH. now apply insertSorted_head.
Qed.
End ArraySortFacts.

(** [find] sees only the elements that satisfy the predicate. *)
Lemma find_filter {A} (p : A -> bool) (l : list A) :
  List.find p l = List.head (List.filter p l).
Proof.
  induction l as [|x r IH]; simpl; [reflexivity|].
  destruct (p x); simpl; auto.
Qed.

Lemma filter_filter_sub {A} (p q : A -> bool) (l : list A) :
  (forall x, p x = true -> q x = true) ->
  List.filter p (List.filter q l) = List.filter p l.
Proof.
  intros Hpq. induction l as [|x r IH]; simpl; [reflexivity|].
  destruct (q x) eqn:Q; simpl.
  - destruct (p x); now rewrite IH.
  - destruct (p x) eqn:P; [|assumption].
    apply Hpq in P. congruence.
Qed.

(** ** The filter that drops the keys already seen *)

Section FilterSeenFacts.
Context {A K : Type}.
Variable sameKey : K -> K -> bool.
Variable key : A -> K.

Lemma filterSeen_In seen x l :
  In x (filterSeen sameKey key seen l) -> In x l.
Proof.
  revert seen. induction l as [|y r IH]; simpl; intros seen; [tauto|].
  destruct (Set_has sameKey seen (key y)).
  - intros H. right. eapply IH, H.
  - intros [->|H]; [now left|]. right. eapply IH, H.
Qed.

Lemma filterSeen_sublist seen l : sublist (filterSeen sameKey key seen l) l.
Proof.
  revert seen. induction l as [|y r IH]; simpl; intros seen; [constructor|].
  destruct (Set_has sameKey seen (key y)).
  - apply sublist_cons, IH.
  - apply sublist_skip, IH.
Qed.

Hypothesis sameKey_sym : forall a b, sameKey a b = sameKey b a.
Hypothesis sameKey_trans :
  forall a b c, sameKey a b = true -> sameKey b c = true -> sameKey a c = true.

Lemma Set_has_same seen a b :
  sameKey a b = true -> Set_has sameKey seen a = Set_has sameKey seen b.
Proof.
  intros Hab. unfold Set_has.
  induction seen as [|s r IH]; simpl; [reflexivity|].
  rewrite IH. f_equal.
  destruct (sameKey a s) eqn:E1, (sameKey b s) eqn:E2; try reflexivity.
  - rewrite sameKey_sym in Hab.
    rewrite (sameKey_trans _ _ _ Hab E1) in E2. discriminate.
  - rewrite (sameKey_trans _ _ _ Hab E2) in E1. discriminate.
Qed.

Lemma filterSeen_fresh seen x l :
  In x (filterSeen sameKey key seen l) ->
  Set_has sameKey seen (key x) = false.
Proof.
  revert seen. induction l as [|y r IH]; simpl; intros seen; [tauto|].
  destruct (Set_has sameKey seen (key y)) eqn:E.
  - apply IH.
  - intros [->|H]; [assumption|].
    apply IH in H. simpl in H. now apply orb_false_iff in H.
Qed.

Lemma filterSeen_distinct seen l :
  DistinctKeys sameKey key (filterSeen sameKey key seen l).
Proof.
  revert seen. induction l as [|y r IH]; simpl; intros seen; [constructor|].
  destruct (Set_has sameKey seen (key y)) eqn:E; [apply IH|].
  constructor; [|apply IH].
  apply List.Forall_forall. intros z Hz.
  apply filterSeen_fresh in Hz. simpl in Hz.
  apply orb_false_iff in Hz. rewrite sameKey_sym. tauto.
Qed.

(** The element that survives for a key is the first one of the list
    with that key. *)
Lemma filterSeen_find seen k l :
  List.find (hasKey sameKey key k) (filterSeen sameKey key seen l) =
  if Set_has sameKey seen k then None else List.find (hasKey sameKey key k) l.
Proof.
  revert seen. induction l as [|y r IH]; simpl; intros seen.
  - now destruct (Set_has sameKey seen k).
  - destruct (Set_has sameKey seen (key y)) eqn:E.
    + rewrite IH. destruct (Set_has sameKey seen k) eqn:Ek; [reflexivity|].
      unfold hasKey at 2. destruct (sameKey k (key y)) eqn:Eky; [|reflexivity].
      rewrite (Set_has_same seen _ _ Eky) in Ek. congruence.
    + simpl. unfold hasKey at 1 3.
      destruct (sameKey k (key y)) eqn:Eky.
      * rewrite (Set_has_same seen _ _ Eky), E. reflexivity.
      * rewrite IH. simpl. rewrite Eky. reflexivity.
  Qed.
End FilterSeenFacts.

Lemma filterSeen_sorted {A K} (sameKey : K -> K -> bool) (key : A -> K)
    (R : A -> A -> Prop) seen l :
  StronglySorted R l -> StronglySorted R (filterSeen sameKey key seen l).
Proof.
  intros Hs. revert seen.
  induction Hs as [|x l Hs IH HF]; simpl; intros seen; [constructor|].
  destruct (Set_has sameKey seen (key x)); [apply IH|].
  constructor; [apply IH|].
  apply List.Forall_forall. intros y Hy.
  apply filterSeen_In in Hy.
  revert y Hy. now apply List.Forall_forall.
Qed.

(** ** Merging the layers and the SPT records of two fragments *)

Lemma sameLayerKey_iff a b :
  sameLayerKey a b = true <-> (fst a == fst b)%Q /\ (snd a == snd b)%Q.
Proof.
  unfold sameLayerKey. rewrite andb_true_iff, !Qeq_bool_iff. tauto.
Qed.

Lemma sameLayerKey_sym a b : sameLayerKey a b = sameLayerKey b a.
Proof.
  apply eq_true_iff_eq. rewrite !sameLayerKey_iff.
  split; intros [H1 H2]; split; now symmetry.
Qed.

Lemma sameLayerKey_trans a b c :
  sameLayerKey a b = true -> sameLayerKey b c = true -> sameLayerKey a c = true.
Proof.
  rewrite !sameLayerKey_iff. intros [H1 H2] [H3 H4].
  split; etransitivity; eassumption.
Qed.

Lemma Qeq_bool_sym' a b : Qeq_bool a b = Qeq_bool b a.
Proof.
  apply eq_true_iff_eq. rewrite !Qeq_bool_iff. split; intros H; now symmetry.
Qed.

Lemma Qeq_bool_trans' a b c :
  Qeq_bool a b = true -> Qeq_bool b c = true -> Qeq_bool a c = true.
Proof. rewrite !Qeq_bool_iff. intros H1 H2. now rewrite H1. Qed.

Section SortedByKey.
Context {A : Type}.
Variable num : A -> Q.

Lemma sortByNum_sorted l : StronglySorted (leNum num) (Array_sort (compareNum num) l).
Proof.
  apply Sorted_StronglySorted.
  - intros x y z Hxy Hyz. unfold leNum in *. eapply Qle_trans; eassumption.
  - assert (Hs : Sorted (before (compareNum num)) (Array_sort (compareNum num) l)).
    { apply Array_sort_sorted. unfold compareNum. intros x y. lra. }
    induction Hs as [|a l' _ IH Hhd]; constructor; [assumption|].
    destruct Hhd as [|b l'' Hab]; constructor.
    unfold before, compareNum in Hab. unfold leNum. lra.
Qed.

Lemma sortByNum_stable (p : A -> bool) l :
  (forall x y, p x = true -> p y = true -> (num x == num y)%Q) ->
  List.filter p (Array_sort (compareNum num) l) = List.filter p l.
Proof.
  intros Hp. apply Array_sort_stable.
  intros x y Px Py. specialize (Hp x y Px Py). unfold compareNum. lra.
Qed.

Lemma sortByNum_id l :
  StronglySorted (leNum num) l -> Array_sort (compareNum num) l = l.
Proof.
  intros Hs. apply Array_sort_id.
  induction Hs as [|x l' Hs IH HF]; constructor; [assumption|].
  eapply List.Forall_impl; [|exact HF].
  intros y Hxy. unfold before, compareNum. unfold leNum in Hxy. lra.
Qed.
End SortedByKey.

Section StableSortUnique.
Context {A : Type}.
Variable num : A -> Q.

Lemma inClass_self x : inClass num (num x) x = true.
Proof. apply Qeq_bool_iff. reflexivity. Qed.

Lemma sorted_head_least x l y :
  StronglySorted (leNum num) (x :: l) -> In y (x :: l) -> (num x <= num y)%Q.
Proof.
  intros Hs [<-|Hin]; [apply Qle_refl|].
  apply StronglySorted_inv in Hs as [_ HF].
  rewrite List.Forall_forall in HF. now apply HF.
Qed.

(** Two arrangements in ascending order that keep, for every value of the
    key, the same elements in the same order, are the same list. *)
Lemma stable_sorted_unique l1 : forall l2,
  StronglySorted (leNum num) l1 -> StronglySorted (leNum num) l2 ->
  (forall d, List.filter (inClass num d) l1 = List.filter (inClass num d) l2) ->
  l1 = l2.
Proof.
  induction l1 as [|x r1 IH]; intros l2 Hs1 Hs2 Hcls.
  - destruct l2 as [|y r2]; [reflexivity|].
    specialize (Hcls (num y)). simpl in Hcls.
    rewrite inClass_self in Hcls. discriminate.
  - destruct l2 as [|y r2].
    { specialize (Hcls (num x)). simpl in Hcls.
      rewrite inClass_self in Hcls. discriminate. }
    assert (Hx : In x (y :: r2)).
    { assert (H : In x (List.filter (inClass num (num x)) (y :: r2))).
      { rewrite <- Hcls. simpl. rewrite inClass_self. now left. }
      now apply List.filter_In in H. }
    assert (Hy : In y (x :: r1)).
    { assert (H : In y (List.filter (inClass num (num y)) (x :: r1))).
      { rewrite Hcls. simpl. rewrite inClass_self. now left. }
      now apply List.filter_In in H. }
    pose proof (sorted_head_least _ _ _ Hs2 Hx) as Hyx.
    pose proof (sorted_head_least _ _ _ Hs1 Hy) as Hxy.
    assert (Hsame : inClass num (num x) y = true).
    { apply Qeq_bool_iff. lra. }
    pose proof (Hcls (num x)) as Hhead. simpl in Hhead.
    rewrite inClass_self, Hsame in Hhead. injection Hhead as -> _.
    f_equal. apply IH.
    + now apply StronglySorted_inv in Hs1.
    + now apply StronglySorted_inv in Hs2.
    + intros d. specialize (Hcls d). simpl in Hcls.
      destruct (inClass num d y); [now injection Hcls|assumption].
Qed.

(** The model of the sort is the only stable sort there is. *)
Theorem Array_sort_unique l l' :
  StronglySorted (leNum num) l' ->
  (forall d, List.filter (inClass num d) l' = List.filter (inClass num d) l) ->
  l' = Array_sort (compareNum num) l.
Proof.
  intros Hs Hcls. apply stable_sorted_unique; [assumption| |].
  - apply sortByNum_sorted.
  - intros d. rewrite Hcls. symmetry. apply sortByNum_stable.
    intros x y Hx Hy. unfold inClass in *.
    apply Qeq_bool_iff in Hx, Hy. now rewrite Hx, Hy.
Qed.
End StableSortUnique.

Lemma mergeLayers_sorted ex inc : StronglySorted byDepthFrom (mergeLayers ex inc).
Proof. apply filterSeen_sorted, (sortByNum_sorted depthFrom). Qed.

Lemma mergeLayers_distinct ex inc : DistinctLayers (mergeLayers ex inc).
Proof. apply filterSeen_distinct, sameLayerKey_sym. Qed.

Lemma mergeLayers_incl x ex inc : In x (mergeLayers ex inc) -> In x (ex ++ inc).
Proof. intros H. apply filterSeen_In in H. now apply Array_sort_In in H. Qed.

Lemma mergeLayers_first k ex inc :
  List.find (hasLayerKey k) (mergeLayers ex inc)
  = List.find (hasLayerKey k) (ex ++ inc).
Proof.
  unfold mergeLayers.
  rewrite filterSeen_find by (apply sameLayerKey_sym || apply sameLayerKey_trans).
  simpl. rewrite !find_filter. f_equal.
  apply (sortByNum_stable depthFrom).
  intros x y Hx Hy. unfold hasKey in *.
  apply sameLayerKey_iff in Hx, Hy. simpl in *.
  destruct Hx as [Hx _], Hy as [Hy _]. now rewrite <- Hx, <- Hy.
Qed.

Lemma mergeSpt_sorted ex inc : StronglySorted byDepth (mergeSpt ex inc).
Proof. apply filterSeen_sorted, (sortByNum_sorted depth). Qed.

Lemma mergeSpt_distinct ex inc : DistinctDepths (mergeSpt ex inc).
Proof. apply filterSeen_distinct, Qeq_bool_sym'. Qed.

Lemma mergeSpt_incl x ex inc : In x (mergeSpt ex inc) -> In x (ex ++ inc).
Proof. intros H. apply filterSeen_In in H. now apply Array_sort_In in H. Qed.

Lemma mergeSpt_first k ex inc :
  List.find (hasDepth k) (mergeSpt ex inc) = List.find (hasDepth k) (ex ++ inc).
Proof.
  unfold mergeSpt.
  rewrite filterSeen_find by (apply Qeq_bool_sym' || apply Qeq_bool_trans').
  simpl. rewrite !find_filter. f_equal.
  apply (sortByNum_stable depth).
  intros x y Hx Hy. unfold hasKey in *.
  apply Qeq_bool_iff in Hx, Hy. now rewrite <- Hx, <- Hy.
Qed.

(** ** The header back-fill *)

Lemma assignFromItem_spec cond get set (h : heap) le li e i :
  h !! le = Some e -> h !! li = Some i ->
  assignFromItem cond get set le li h
  = Normal (tt, <[le := if cond e then set (get i) e else e]> h).
Proof.
  intros He Hi. unfold assignFromItem, bind, deref, modify, ret.
  rewrite He. destruct (cond e).
  - rewrite Hi, He. reflexivity.
  - now rewrite insert_id.
Qed.

Ltac header_cases e :=
  destruct e as [pn bn dt el co cl wt]; unfold backfilled; simpl;
  destruct (truthy pn); simpl; destruct (truthy el); simpl;
  destruct (String.eqb el "0.00"); simpl; destruct (truthy co); simpl;
  destruct (String.eqb wt "-"); simpl; destruct (truthy wt); simpl;
  reflexivity.

Lemma mergeHeaders_spec (h : heap) le li e i :
  h !! le = Some e -> h !! li = Some i ->
  mergeHeaders le li h = Normal (tt, <[le := backfilled e i]> h).
Proof.
  intros He Hi. unfold mergeHeaders.
  unfold bind at 1 2 3.
  destruct (decide (le = li)) as [->|Hne].
  - assert (e = i) by congruence. subst i. clear Hi.
    repeat (erewrite assignFromItem_spec;
            [|first [eassumption | apply lookup_insert_eq]..];
            rewrite ?insert_insert_eq).
    do 3 f_equal. header_cases e.
  - erewrite assignFromItem_spec; [|eassumption..].
    do 3 (erewrite assignFromItem_spec;
          [|apply lookup_insert_eq
           |rewrite lookup_insert_ne by done; eassumption];
          rewrite insert_insert_eq).
    do 3 f_equal. header_cases e.
Qed.

(** ** The plain object used as a dictionary *)

Section PlainObjectFacts.
Context {V : Type}.
Implicit Types (o : list (string * V)) (k : string).

Lemma getOwn_setOwn o k v k' :
  getOwn (setOwn o k v) k' = if String.eqb k' k then Some v else getOwn o k'.
Proof.
  induction o as [|[k0 v0] r IH]; simpl.
  - reflexivity.
  - destruct (String.eqb k k0) eqn:E; simpl.
    + apply String.eqb_eq in E. subst k0.
      now destruct (String.eqb k' k).
    + rewrite IH. destruct (String.eqb k' k0) eqn:E0; [|reflexivity].
      apply String.eqb_eq in E0. subst k0.
      rewrite String.eqb_sym in E. now rewrite E.
Qed.

Lemma getOwn_None o k : getOwn o k = None <-> ~ In k (List.map fst o).
Proof.
  induction o as [|[k0 v0] r IH]; simpl; [tauto|].
  destruct (String.eqb k k0) eqn:E.
  - apply String.eqb_eq in E. subst. split; [discriminate|tauto].
  - apply String.eqb_neq in E. rewrite IH. split; [intros H [?|?]; congruence|tauto].
Qed.

Lemma getOwn_In o k v : getOwn o k = Some v -> In (k, v) o.
Proof.
  induction o as [|[k0 v0] r IH]; simpl; [discriminate|].
  destruct (String.eqb k k0) eqn:E.
  - apply String.eqb_eq in E. intros [= ->]. left. now subst.
  - intros H. right. now apply IH.
Qed.

Lemma In_getOwn o k v :
  NoDup (List.map fst o) -> In (k, v) o -> getOwn o k = Some v.
Proof.
  induction o as [|[k0 v0] r IH]; simpl; [tauto|].
  intros Hnd [H|H].
  - injection H as -> ->. now rewrite String.eqb_refl.
  - inversion Hnd as [|? ? Hni Hnd']; subst.
    destruct (String.eqb k k0) eqn:E.
    + apply String.eqb_eq in E. subst k0. exfalso. apply Hni.
      apply list_elem_of_In. apply (in_map fst) in H. exact H.
    + now apply IH.
Qed.

Lemma setOwn_keys_new o k v :
  getOwn o k = None -> setOwn o k v = o ++ [(k, v)].
Proof.
  induction o as [|[k0 v0] r IH]; simpl; [reflexivity|].
  destruct (String.eqb k k0); [discriminate|].
  intros H. now rewrite IH.
Qed.

Lemma setOwn_keys_old o k v :
  In k (List.map fst o) -> List.map fst (setOwn o k v) = List.map fst o.
Proof.
  induction o as [|[k0 v0] r IH]; simpl; [tauto|].
  destruct (String.eqb k k0) eqn:E.
  - apply String.eqb_eq in E. now subst.
  - apply String.eqb_neq in E. intros [?|H]; [congruence|].
    simpl. now rewrite IH.
Qed.

Lemma Object_values_perm o : Permutation (Object_values o) (List.map snd o).
Proof.
  unfold Object_values. apply Permutation_map.
  rewrite Array_sort_perm.
  induction o as [|kv r IH]; simpl; [reflexivity|].
  destruct (isIndexed kv); simpl.
  - now constructor.
  - etransitivity; [symmetry; apply Permutation_middle|]. now constructor.
Qed.
End PlainObjectFacts.

(** ** One step of the loop *)

Lemma truthy_false s : truthy s = false <-> s = EmptyString.
Proof. destruct s; simpl; split; congruence. Qed.

Lemma mergeItem_unnamed item m (h : heap) ih :
  h !! header item = Some ih -> trim (boreholeName ih) = EmptyString ->
  mergeItem item m h = Normal (m, h).
Proof.
  intros Hh Hn. unfold mergeItem, bind, deref. rewrite Hh, Hn. reflexivity.
Qed.

Lemma mergeItem_new item m (h : heap) ih :
  h !! header item = Some ih ->
  trim (boreholeName ih) <> EmptyString ->
  getOwn m (trim (boreholeName ih)) = None ->
  isPrototypeKey (trim (boreholeName ih)) = false ->
  mergeItem item m h = Normal (m ++ [(trim (boreholeName ih), item)], h).
Proof.
  intros Hh Hn Hown Hproto. unfold mergeItem, bind, deref. rewrite Hh.
  destruct (truthy (trim (boreholeName ih))) eqn:E;
    [|now apply truthy_false in E].
  simpl. unfold getProperty. rewrite Hown.
  unfold isPrototypeKey in Hproto. rewrite Hproto.
  unfold ret. now rewrite setOwn_keys_new.
Qed.

Lemma mergeItem_inherited item m (h : heap) ih :
  h !! header item = Some ih ->
  getOwn m (trim (boreholeName ih)) = None ->
  isPrototypeKey (trim (boreholeName ih)) = true ->
  mergeItem item m h = Throw TypeError.
Proof.
  intros Hh Hown Hproto. unfold mergeItem, bind, deref. rewrite Hh.
  destruct (truthy (trim (boreholeName ih))) eqn:E.
  - simpl. unfold getProperty. rewrite Hown.
    unfold isPrototypeKey in Hproto. now rewrite Hproto.
  - apply truthy_false in E. rewrite E in Hproto. discriminate.
Qed.

Lemma mergeData_inline existing item :
  (let existing' :=
     if (0 <? List.length (layers item))%nat
     then set_layers (mergeLayers (layers existing) (layers item)) existing
     else existing in
   if (0 <? List.length (spt item))%nat
   then set_spt (mergeSpt (spt existing') (spt item)) existing'
   else existing') = mergeData existing item.
Proof.
  unfold mergeData, appendLayers, appendSpt.
  destruct existing as [id hd ls ss]; simpl.
  destruct (0 <? List.length (layers item))%nat,
           (0 <? List.length (spt item))%nat; reflexivity.
Qed.

Lemma mergeItem_existing item m (h : heap) ih existing eh :
  h !! header item = Some ih ->
  trim (boreholeName ih) <> EmptyString ->
  getOwn m (trim (boreholeName ih)) = Some existing ->
  h !! header existing = Some eh ->
  mergeItem item m h
  = Normal (setOwn m (trim (boreholeName ih)) (mergeData existing item),
            <[header existing := backfilled eh ih]> h).
Proof.
  intros Hh Hn Hown He. unfold mergeItem, bind at 1, deref at 1. rewrite Hh.
  destruct (truthy (trim (boreholeName ih))) eqn:E;
    [|now apply truthy_false in E].
  simpl. unfold getProperty. rewrite Hown.
  pose proof (mergeData_inline existing item) as Hrec. simpl in Hrec.
  rewrite Hrec. unfold bind.
  replace (header (mergeData existing item)) with (header existing) by reflexivity.
  erewrite mergeHeaders_spec by eassumption. reflexivity.
Qed.

(** ** The loop *)

Lemma header_fold_mergeData later first :
  header (fold_left mergeData later first) = header first.
Proof.
  revert first. induction later as [|x r IH]; simpl; intros first; [reflexivity|].
  now rewrite IH.
Qed.

Lemma internalId_fold_mergeData later first :
  internalId (fold_left mergeData later first) = internalId first.
Proof.
  revert first. induction later as [|x r IH]; simpl; intros first; [reflexivity|].
  now rewrite IH.
Qed.

Lemma layers_fold_mergeData later first :
  layers (fold_left mergeData later first)
  = fold_left appendLayers (List.map layers later) (layers first).
Proof.
  revert first. induction later as [|x r IH]; simpl; intros first; [reflexivity|].
  now rewrite IH.
Qed.

Lemma spt_fold_mergeData later first :
  spt (fold_left mergeData later first)
  = fold_left appendSpt (List.map spt later) (spt first).
Proof.
  revert first. induction later as [|x r IH]; simpl; intros first; [reflexivity|].
  now rewrite IH.
Qed.

Lemma fragmentsOf_app h k l1 l2 :
  fragmentsOf h k (l1 ++ l2) = fragmentsOf h k l1 ++ fragmentsOf h k l2.
Proof. apply List.filter_app. Qed.

Lemma fragmentsOf_In h k rawList item :
  In item (fragmentsOf h k rawList) <-> In item rawList /\ nameOf h item = k.
Proof.
  unfold fragmentsOf. rewrite List.filter_In, String.eqb_eq. reflexivity.
Qed.

Lemma reconcile_snoc frags item :
  reconcile (frags ++ [item])
  = match reconcile frags with
    | Some existing => Some (mergeData existing item)
    | None => Some item
    end.
Proof.
  destruct frags as [|f0 rest]; simpl; [reflexivity|].
  now rewrite fold_left_app.
Qed.

Lemma reconcile_header frags existing :
  reconcile frags = Some existing ->
  exists first, In first frags /\ header existing = header first
                /\ internalId existing = internalId first.
Proof.
  destruct frags as [|f0 rest]; simpl; [discriminate|].
  intros [= <-]. exists f0. split; [now left|].
  now rewrite header_fold_mergeData, internalId_fold_mergeData.
Qed.

Lemma MergeInv_init h0 : MergeInv h0 [] [] h0.
Proof.
  constructor; simpl; try tauto; try reflexivity.
  constructor.
Qed.

Lemma nameOf_inv (h0 h : heap) item ih :
  (forall l, boreholeName <$> (h !! l) = boreholeName <$> (h0 !! l)) ->
  h !! header item = Some ih ->
  nameOf h0 item = trim (boreholeName ih).
Proof.
  intros Hn Hh. specialize (Hn (header item)). rewrite Hh in Hn.
  unfold nameOf. destruct (h0 !! header item); simpl in Hn; [|discriminate].
  now injection Hn as <-.
Qed.

Lemma is_Some_inv (h0 h : heap) l :
  (forall l, boreholeName <$> (h !! l) = boreholeName <$> (h0 !! l)) ->
  is_Some (h0 !! l) -> is_Some (h !! l).
Proof.
  intros Hn [v Hv]. specialize (Hn l). rewrite Hv in Hn.
  destruct (h !! l); [eauto|discriminate].
Qed.

Lemma mergeItem_preserves h0 done m h item m' h' :
  MergeInv h0 done m h ->
  mergeItem item m h = Normal (m', h') ->
  MergeInv h0 (done ++ [item]) m' h'.
Proof.
  intros Inv Hrun.
  destruct (h !! header item) as [ih|] eqn:Hh;
    [|unfold mergeItem, bind, deref in Hrun; now rewrite Hh in Hrun].
  pose proof (nameOf_inv h0 h item ih (inv_names _ _ _ _ Inv) Hh) as Hname.
  assert (Halloc : is_Some (h0 !! header item)).
  { pose proof (inv_names _ _ _ _ Inv (header item)) as Hn. rewrite Hh in Hn.
    destruct (h0 !! header item); [eauto|discriminate]. }
  destruct (string_dec (trim (boreholeName ih)) EmptyString) as [Hempty|Hne].
  - (* an unnamed fragment is skipped *)
    rewrite (mergeItem_unnamed item m h ih Hh Hempty) in Hrun.
    injection Hrun as <- <-.
    destruct Inv as [I1 I2 I3 I4 I5 I6].
    constructor; auto.
    + intros k Hk. rewrite fragmentsOf_app. simpl.
      rewrite Hname, Hempty.
      destruct (String.eqb EmptyString k) eqn:E;
        [apply String.eqb_eq in E; congruence|].
      rewrite app_nil_r. now apply I2.
    + intros x [Hx| [<-|[]]]%in_app_or; auto.
    + intros x [Hx| [<-|[]]]%in_app_or; auto.
      now rewrite Hname, Hempty.
  - destruct (getOwn m (trim (boreholeName ih))) as [existing|] eqn:Hown.
    + (* a later fragment of a borehole that is already there *)
      pose proof Hown as Hrec.
      rewrite (inv_own _ _ _ _ Inv _ Hne) in Hrec.
      destruct (reconcile_header _ _ Hrec) as (first & Hin & Hhd & _).
      apply fragmentsOf_In in Hin as [Hin Hfn].
      assert (He : is_Some (h !! header existing)).
      { rewrite Hhd. eapply is_Some_inv; [apply Inv|]. now apply (inv_alloc _ _ _ _ Inv). }
      destruct He as [eh He].
      rewrite (mergeItem_existing item m h ih existing eh Hh Hne Hown He) in Hrun.
      injection Hrun as <- <-.
      destruct Inv as [I1 I2 I3 I4 I5 I6].
      constructor.
      * intros l. destruct (decide (l = header existing)) as [->|Hl].
        -- rewrite lookup_insert_eq. rewrite <- I1, He. reflexivity.
        -- rewrite lookup_insert_ne by done. apply I1.
      * intros k Hk. rewrite getOwn_setOwn, fragmentsOf_app. simpl.
        rewrite Hname. rewrite (String.eqb_sym k).
        destruct (String.eqb (trim (boreholeName ih)) k) eqn:E.
        -- apply String.eqb_eq in E. subst k.
           rewrite reconcile_snoc, <- I2, Hown by assumption. reflexivity.
        -- rewrite app_nil_r. now apply I2.
      * rewrite getOwn_setOwn.
        destruct (String.eqb EmptyString (trim (boreholeName ih))) eqn:E;
          [apply String.eqb_eq in E; congruence|assumption].
      * rewrite setOwn_keys_old; [assumption|].
        apply getOwn_In in Hown. now apply (in_map fst) in Hown.
      * intros x [Hx| [<-|[]]]%in_app_or; auto.
      * intros x [Hx| [<-|[]]]%in_app_or; auto.
        rewrite Hname, <- Hfn. now apply I6.
    + (* the first fragment of a borehole *)
      destruct (isPrototypeKey (trim (boreholeName ih))) eqn:Ep.
      { now rewrite (mergeItem_inherited item m h ih Hh Hown Ep) in Hrun. }
      rewrite (mergeItem_new item m h ih Hh Hne Hown Ep) in Hrun.
      injection Hrun as <- <-.
      destruct Inv as [I1 I2 I3 I4 I5 I6].
      constructor; auto.
      * intros k Hk. rewrite <- setOwn_keys_new by assumption.
        rewrite getOwn_setOwn, fragmentsOf_app. simpl.
        rewrite Hname. rewrite (String.eqb_sym k).
        destruct (String.eqb (trim (boreholeName ih)) k) eqn:E.
        -- apply String.eqb_eq in E. subst k.
           rewrite reconcile_snoc, <- I2, Hown by assumption. reflexivity.
        -- rewrite app_nil_r. now apply I2.
      * rewrite <- setOwn_keys_new by assumption. rewrite getOwn_setOwn.
        destruct (String.eqb EmptyString (trim (boreholeName ih))) eqn:E;
          [apply String.eqb_eq in E; congruence|assumption].
      * rewrite List.map_app. simpl. apply NoDup_app. split; [assumption|].
        split; [|apply NoDup_singleton].
        intros k Hk Hk'. apply list_elem_of_In in Hk'.
        destruct Hk' as [Hk'|[]]. simpl in Hk'. subst k.
        apply getOwn_None in Hown. apply Hown. now apply list_elem_of_In.
      * intros x [Hx| [<-|[]]]%in_app_or; auto.
      * intros x [Hx| [<-|[]]]%in_app_or; auto.
        now rewrite Hname.
Qed.

Lemma mergeItem_progress h0 done m h item :
  MergeInv h0 done m h ->
  is_Some (h0 !! header item) ->
  isPrototypeKey (nameOf h0 item) = false ->
  exists m' h', mergeItem item m h = Normal (m', h').
Proof.
  intros Inv Halloc Hproto.
  destruct (is_Some_inv h0 h _ (inv_names _ _ _ _ Inv) Halloc) as [ih Hh].
  rewrite (nameOf_inv h0 h item ih (inv_names _ _ _ _ Inv) Hh) in Hproto.
  destruct (string_dec (trim (boreholeName ih)) EmptyString) as [Hempty|Hne].
  { rewrite (mergeItem_unnamed item m h ih Hh Hempty). eauto. }
  destruct (getOwn m (trim (boreholeName ih))) as [existing|] eqn:Hown.
  - pose proof Hown as Hrec.
    rewrite (inv_own _ _ _ _ Inv _ Hne) in Hrec.
    destruct (reconcile_header _ _ Hrec) as (first & Hin & Hhd & _).
    apply fragmentsOf_In in Hin as [Hin _].
    assert (He : is_Some (h !! header existing)).
    { rewrite Hhd. eapply is_Some_inv; [apply Inv|].
      now apply (inv_alloc _ _ _ _ Inv). }
    destruct He as [eh He].
    rewrite (mergeItem_existing item m h ih existing eh Hh Hne Hown He). eauto.
  - rewrite (mergeItem_new item m h ih Hh Hne Hown Hproto). eauto.
Qed.

Lemma forEach_mergeItem_inv h0 todo : forall done m h m' h',
  MergeInv h0 done m h ->
  forEach mergeItem todo m h = Normal (m', h') ->
  MergeInv h0 (done ++ todo) m' h'.
Proof.
  induction todo as [|x r IH]; simpl; intros done m h m' h' Inv Hrun.
  - injection Hrun as <- <-. now rewrite app_nil_r.
  - unfold bind in Hrun.
    destruct (mergeItem x m h) as [[m1 h1]|] eqn:E; [|discriminate].
    replace (done ++ x :: r) with ((done ++ [x]) ++ r)
      by now rewrite <- app_assoc.
    eapply IH; [|eassumption].
    eapply mergeItem_preserves; eassumption.
Qed.

Lemma forEach_mergeItem_returns h0 todo : forall done m h,
  MergeInv h0 done m h ->
  (forall item, In item todo ->
     is_Some (h0 !! header item) /\ isPrototypeKey (nameOf h0 item) = false) ->
  exists m' h', forEach mergeItem todo m h = Normal (m', h').
Proof.
  induction todo as [|x r IH]; simpl; intros done m h Inv Hok.
  - unfold ret. eauto.
  - destruct (Hok x (or_introl eq_refl)) as [Ha Hp].
    destruct (mergeItem_progress h0 done m h x Inv Ha Hp) as (m1 & h1 & E).
    unfold bind. rewrite E.
    eapply (IH (done ++ [x])).
    + eapply mergeItem_preserves; eassumption.
    + intros item Hin. apply Hok. now right.
Qed.

(** ** Reading the values out and sorting them by name *)

Lemma bind_Normal {A B} (m : JS A) (k : A -> JS B) h a h' :
  m h = Normal (a, h') -> bind m k h = k a h'.
Proof. intros H. unfold bind. now rewrite H. Qed.

Lemma bind_inv {A B} (m : JS A) (k : A -> JS B) h b h'' :
  bind m k h = Normal (b, h'') ->
  exists a h', m h = Normal (a, h') /\ k a h' = Normal (b, h'').
Proof.
  unfold bind. destruct (m h) as [[a h']|]; [eauto|discriminate].
Qed.

Lemma withName_spec (h : heap) d :
  withName d h = match h !! header d with
                 | Some hd => Normal ((boreholeName hd, d), h)
                 | None => Throw TypeError
                 end.
Proof. unfold withName, bind, deref, ret. now destruct (h !! header d). Qed.

Lemma mapM_withName (h : heap) values :
  (forall d, In d values -> is_Some (h !! header d)) ->
  mapM withName values h
  = Normal (List.map (fun d => (match h !! header d with
                                | Some hd => boreholeName hd
                                | None => EmptyString
                                end, d)) values, h).
Proof.
  induction values as [|d r IH]; simpl; intros Hok; [reflexivity|].
  destruct (Hok d (or_introl eq_refl)) as [hd Hd].
  erewrite bind_Normal by (rewrite withName_spec, Hd; reflexivity).
  erewrite bind_Normal by (apply IH; intros; apply Hok; now right).
  now rewrite Hd.
Qed.

Lemma mapM_withName_inv (h : heap) values named h' :
  mapM withName values h = Normal (named, h') ->
  forall d, In d values -> is_Some (h !! header d).
Proof.
  revert named h'.
  induction values as [|d r IH]; simpl; intros named h' Hrun x; [tauto|].
  apply bind_inv in Hrun as (a & h1 & H1 & Hrun).
  apply bind_inv in Hrun as (named' & h2 & H2 & Hrun).
  rewrite withName_spec in H1.
  destruct (h !! header d) as [hd|] eqn:Hd; [|discriminate].
  injection H1 as <- <-.
  intros [<-|Hin]; [rewrite Hd; eauto|]. eapply IH; eauto.
Qed.

(** ** The collation is a total preorder *)

Lemma compareElement_spec a b :
  CompareSpec (a = b) (ltElement a b) (ltElement b a) (compareElement a b).
Proof.
  destruct a as [a1 a2], b as [b1 b2]. unfold compareElement, ltElement. simpl.
  destruct (N.compare_spec a1 b1); subst.
  - destruct (N.compare_spec a2 b2); subst; constructor; auto.
  - constructor. auto.
  - constructor. auto.
Qed.

Lemma ltElement_irrefl a : ~ ltElement a a.
Proof. unfold ltElement. lia. Qed.

Lemma ltElement_trans a b c : ltElement a b -> ltElement b c -> ltElement a c.
Proof. unfold ltElement. lia. Qed.

Ltac element_order :=
  subst;
  repeat match goal with p : (N * N)%type |- _ => destruct p end;
  unfold ltElement in *; simpl in *; lia.

Lemma compareKeys_antisym a : forall b,
  compareKeys b a = CompOpp (compareKeys a b).
Proof.
  induction a as [|x a IH]; intros [|y b]; simpl; try reflexivity.
  destruct (compareElement_spec x y) as [Exy|Hxy|Hxy];
    destruct (compareElement_spec y x) as [Eyx|Hyx|Hyx];
    simpl; try reflexivity; try apply IH; exfalso; element_order.
Qed.

Lemma compareKeys_trans a : forall b c,
  compareKeys a b <> Gt -> compareKeys b c <> Gt -> compareKeys a c <> Gt.
Proof.
  induction a as [|x a IH]; intros [|y b] [|z c]; simpl; try congruence.
  destruct (compareElement_spec x y) as [Exy|Hxy|Hxy];
    destruct (compareElement_spec y z) as [Eyz|Hyz|Hyz];
    destruct (compareElement_spec x z) as [Exz|Hxz|Hxz];
    try congruence; try apply IH; intros _ _; exfalso; element_order.
Qed.

Section CollationFacts.
Variable primary : ascii -> N.

Lemma localeCompare_le a b :
  (localeCompare primary a b <= 0)%Q
  <-> compareKeys (sortKey primary a) (sortKey primary b) <> Gt.
Proof.
  unfold localeCompare.
  destruct (compareKeys (sortKey primary a) (sortKey primary b));
    split; intros H; try congruence; try (now compute); now compute in H.
Qed.

Lemma localeCompare_anti a b :
  (0 < localeCompare primary a b)%Q -> (localeCompare primary b a <= 0)%Q.
Proof.
  intros H. apply localeCompare_le. rewrite compareKeys_antisym.
  unfold localeCompare in H.
  destruct (compareKeys (sortKey primary a) (sortKey primary b));
    simpl; try congruence; now compute in H.
Qed.

Lemma localeCompare_trans a b c :
  (localeCompare primary a b <= 0)%Q -> (localeCompare primary b c <= 0)%Q ->
  (localeCompare primary a c <= 0)%Q.
Proof.
  rewrite !localeCompare_le. apply compareKeys_trans.
Qed.

Lemma localeCompare_total a b :
  (localeCompare primary a b <= 0)%Q \/ (localeCompare primary b a <= 0)%Q.
Proof.
  rewrite !localeCompare_le. rewrite (compareKeys_antisym (sortKey primary a)).
  destruct (compareKeys (sortKey primary a) (sortKey primary b)); simpl;
    [left|left|right]; congruence.
Qed.
End CollationFacts.

(** ** The result of [mergeBoreholes] *)

Lemma MergeInv_entry h0 done m h d :
  MergeInv h0 done m h ->
  In d (List.map snd m) <->
  exists k, k <> EmptyString /\ reconcile (fragmentsOf h0 k done) = Some d.
Proof.
  intros Inv. split.
  - intros Hin. apply in_map_iff in Hin as ([k d'] & Heq & Hin).
    simpl in Heq. subst d'.
    apply In_getOwn in Hin; [|apply Inv].
    assert (Hk : k <> EmptyString).
    { intros ->. rewrite (inv_named _ _ _ _ Inv) in Hin. discriminate. }
    exists k. split; [assumption|].
    now rewrite <- (inv_own _ _ _ _ Inv).
  - intros (k & Hk & Hrec).
    rewrite <- (inv_own _ _ _ _ Inv) in Hrec by assumption.
    apply getOwn_In in Hrec. now apply (in_map snd) in Hrec.
Qed.

Lemma reconcile_name h0 k done d :
  reconcile (fragmentsOf h0 k done) = Some d -> nameOf h0 d = k.
Proof.
  intros Hrec. destruct (reconcile_header _ _ Hrec) as (first & Hin & Hhd & _).
  apply fragmentsOf_In in Hin as [_ Hn].
  unfold nameOf in *. now rewrite Hhd.
Qed.

Lemma reconcile_alloc h0 k done d :
  (forall item, In item done -> is_Some (h0 !! header item)) ->
  reconcile (fragmentsOf h0 k done) = Some d -> is_Some (h0 !! header d).
Proof.
  intros Ha Hrec. destruct (reconcile_header _ _ Hrec) as (first & Hin & Hhd & _).
  apply fragmentsOf_In in Hin as [Hin _]. rewrite Hhd. now apply Ha.
Qed.

Section SortByNameFacts.
Variable primary : ascii -> N.

Lemma sortByName_spec (h : heap) values :
  (forall d, In d values -> is_Some (h !! header d)) ->
  sortByName primary values h
  = Normal (List.map snd
              (Array_sort (fun a b => localeCompare primary (fst a) (fst b))
                 (List.map (fun d => (nameIn h d, d)) values)), h).
Proof.
  intros Hok. unfold sortByName.
  erewrite bind_Normal by (apply mapM_withName, Hok). reflexivity.
Qed.

Lemma sortByName_inv (h : heap) values out h' :
  sortByName primary values h = Normal (out, h') ->
  h' = h /\ forall d, In d values -> is_Some (h !! header d).
Proof.
  intros Hrun. unfold sortByName in Hrun.
  apply bind_inv in Hrun as (named & h1 & H1 & Hrun).
  pose proof (mapM_withName_inv _ _ _ _ H1) as Hok.
  rewrite (mapM_withName h values Hok) in H1. injection H1 as <- <-.
  injection Hrun as <- <-. auto.
Qed.

Lemma sortByName_perm (h : heap) values out h' :
  sortByName primary values h = Normal (out, h') -> Permutation out values.
Proof.
  intros Hrun. destruct (sortByName_inv _ _ _ _ Hrun) as [-> Hok].
  rewrite (sortByName_spec h values Hok) in Hrun. injection Hrun as <-.
  rewrite Array_sort_perm, List.map_map. simpl. now rewrite List.map_id.
Qed.

Lemma sortByName_sorted (h : heap) values out h' :
  sortByName primary values h = Normal (out, h') ->
  StronglySorted (nameOrder primary h) out.
Proof.
  intros Hrun. destruct (sortByName_inv _ _ _ _ Hrun) as [-> Hok].
  rewrite (sortByName_spec h values Hok) in Hrun. injection Hrun as <-.
  set (cmp := fun a b : string * ExtractedData =>
                localeCompare primary (fst a) (fst b)).
  set (named := List.map (fun d => (nameIn h d, d)) values).
  assert (Hs : StronglySorted (before cmp) (Array_sort cmp named)).
  { apply Sorted_StronglySorted.
    - intros x y z. apply localeCompare_trans.
    - apply Array_sort_sorted. intros x y. apply localeCompare_anti. }
  assert (Hfst : forall p, In p (Array_sort cmp named) -> fst p = nameIn h (snd p)).
  { intros p Hp. apply Array_sort_In in Hp.
    apply in_map_iff in Hp as (d & <- & _). reflexivity. }
  induction Hs as [|p l Hs IH HF]; simpl; constructor.
  - apply IH. intros q Hq. apply Hfst. now right.
  - apply List.Forall_forall. intros d Hd.
    apply in_map_iff in Hd as (q & <- & Hq).
    rewrite List.Forall_forall in HF. specialize (HF q Hq).
    unfold before, cmp in HF. unfold nameOrder.
    rewrite <- (Hfst p (or_introl eq_refl)), <- (Hfst q (or_intror Hq)).
    exact HF.
Qed.

Theorem mergeBoreholes_spec h0 rawList out h :
  mergeBoreholes primary rawList h0 = Normal (out, h) ->
  exists m, MergeInv h0 rawList m h
            /\ Permutation out (List.map snd m)
            /\ StronglySorted (nameOrder primary h) out.
Proof.
  intros Hrun. unfold mergeBoreholes in Hrun.
  apply bind_inv in Hrun as (m & h1 & Hloop & Hsort).
  destruct (sortByName_inv _ _ _ _ Hsort) as [-> _].
  exists m. split; [|split].
  - apply (forEach_mergeItem_inv h0 rawList [] [] h0 m h1);
      [apply MergeInv_init | assumption].
  - rewrite (sortByName_perm _ _ _ _ Hsort). apply Object_values_perm.
  - eapply sortByName_sorted; eassumption.
Qed.

Theorem mergeBoreholes_returns h0 rawList :
  (forall item, In item rawList ->
     is_Some (h0 !! header item) /\ isPrototypeKey (nameOf h0 item) = false) ->
  exists out h, mergeBoreholes primary rawList h0 = Normal (out, h).
Proof.
  intros Hok.
  destruct (forEach_mergeItem_returns h0 rawList [] [] h0 (MergeInv_init h0) Hok)
    as (m & h & Hloop).
  pose proof (forEach_mergeItem_inv h0 rawList [] [] h0 m h (MergeInv_init h0) Hloop)
    as Inv. simpl in Inv.
  unfold mergeBoreholes. erewrite bind_Normal by eassumption.
  rewrite sortByName_spec; [eauto|].
  intros d Hd.
  apply (Permutation_in _ (Object_values_perm m)) in Hd.
  apply (MergeInv_entry _ _ _ _ _ Inv) in Hd as (k & Hk & Hrec).
  eapply is_Some_inv; [apply Inv|].
  eapply reconcile_alloc; [|eassumption]. apply Inv.
Qed.

(** The records of the output are the folds of the groups of fragments
    that share a name. *)
Theorem mergeBoreholes_In h0 rawList out h :
  mergeBoreholes primary rawList h0 = Normal (out, h) ->
  forall d, In d out <->
    exists k, k <> EmptyString
              /\ reconcile (fragmentsOf h0 k rawList) = Some d.
Proof.
  intros Hrun d.
  destruct (mergeBoreholes_spec _ _ _ _ Hrun) as (m & Inv & Hperm & _).
  rewrite <- (MergeInv_entry _ _ _ _ _ Inv).
  split; apply Permutation_in; [assumption | now symmetry].
Qed.
End SortByNameFacts.

(** ** Merging a later fragment into a record (claims C2 and C3) *)

Lemma length_pos_nonempty {A} (l : list A) :
  (0 <? List.length l)%nat = true <-> l <> [].
Proof.
  destruct l; simpl; split; intros H; try congruence; try discriminate.
  reflexivity.
Qed.

Lemma appendLayers_nonempty ex inc :
  inc <> [] -> appendLayers ex inc = mergeLayers ex inc.
Proof.
  intros H. unfold appendLayers. now apply length_pos_nonempty in H as ->.
Qed.

Lemma appendLayers_empty ex : appendLayers ex [] = ex.
Proof. reflexivity. Qed.

Lemma appendSpt_nonempty ex inc :
  inc <> [] -> appendSpt ex inc = mergeSpt ex inc.
Proof.
  intros H. unfold appendSpt. now apply length_pos_nonempty in H as ->.
Qed.

Lemma appendSpt_empty ex : appendSpt ex [] = ex.
Proof. reflexivity. Qed.

Lemma find_app_Some {A} (p : A -> bool) l1 l2 x :
  List.find p l1 = Some x -> List.find p (l1 ++ l2) = Some x.
Proof.
  induction l1 as [|y r IH]; simpl; [discriminate|].
  destruct (p y); auto.
Qed.

(** C2, as stated: the merged lists of a fragment that arrives for a name
    already seen are the existing lists followed by the incoming ones,
    sorted and stripped of repeated depths.  It fails when the incoming
    fragment has no layers: the existing list is left as it came, here out
    of order. *)
Lemma C2_counterexample :
  let h : heap := {[ 1%nat := Sample.hdr "A" "" "" ""; 2%nat := Sample.hdr "A" "" "" "" ]} in
  let existing :=
    Sample.frag "f1" 1 [Sample.layer "a" 2 3 "sand"; Sample.layer "b" 0 1 "clay"] [] in
  let item := Sample.frag "f2" 2 [] [] in
  exists merged h',
    mergeBoreholes Sample.primary [existing; item] h = Normal ([merged], h')
    /\ layers merged = [Sample.layer "a" 2 3 "sand"; Sample.layer "b" 0 1 "clay"]
    /\ mergeLayers (layers existing) (layers item)
       = [Sample.layer "b" 0 1 "clay"; Sample.layer "a" 2 3 "sand"]
    /\ layers merged <> mergeLayers (layers existing) (layers item).
Proof.
  simpl. eexists _, _. split; [vm_compute; reflexivity|].
  split; [reflexivity|]. split; [reflexivity|]. discriminate.
Qed.

(** C2, amended: when a fragment arrives for a name that is already in
    [mergedMap] and carries at least one layer, the layers of the record
    become the existing layers followed by the incoming ones, sorted by
    [depthFrom] and filtered to the first occurrence of every
    [(depthFrom, depthTo)] pair: the result is in ascending order of
    [depthFrom], no two of its layers have the same pair, and for every
    pair the layer kept is, whole, the first one of the concatenation with
    that pair, so an existing layer wins over an incoming one.  When the
    fragment carries no layer the existing list is left as it is.  The
    same holds for the SPT records and their depth. *)
Theorem C2_merge_of_later_fragment (h : heap) item mergedMap ih existing eh :
  h !! header item = Some ih ->
  trim (boreholeName ih) <> EmptyString ->
  getOwn mergedMap (trim (boreholeName ih)) = Some existing ->
  h !! header existing = Some eh ->
  exists mergedMap' h' merged,
    mergeItem item mergedMap h = Normal (mergedMap', h')
    /\ getOwn mergedMap' (trim (boreholeName ih)) = Some merged
    /\ (layers item <> [] ->
        layers merged
        = filterSeen sameLayerKey layerKey []
            (Array_sort (compareNum depthFrom) (layers existing ++ layers item))
        /\ StronglySorted byDepthFrom (layers merged)
        /\ DistinctLayers (layers merged)
        /\ (forall l, In l (layers merged) ->
                      In l (layers existing ++ layers item))
        /\ (forall k, List.find (hasLayerKey k) (layers merged)
                      = List.find (hasLayerKey k)
                          (layers existing ++ layers item))
        /\ (forall k l, List.find (hasLayerKey k) (layers existing) = Some l ->
                        List.find (hasLayerKey k) (layers merged) = Some l))
    /\ (layers item = [] -> layers merged = layers existing)
    /\ (spt item <> [] ->
        spt merged
        = filterSeen Qeq_bool depth []
            (Array_sort (compareNum depth) (spt existing ++ spt item))
        /\ StronglySorted byDepth (spt merged)
        /\ DistinctDepths (spt merged)
        /\ (forall s, In s (spt merged) -> In s (spt existing ++ spt item))
        /\ (forall d, List.find (hasDepth d) (spt merged)
                      = List.find (hasDepth d) (spt existing ++ spt item))
        /\ (forall d s, List.find (hasDepth d) (spt existing) = Some s ->
                        List.find (hasDepth d) (spt merged) = Some s))
    /\ (spt item = [] -> spt merged = spt existing).
Proof.
  intros Hh Hne Hown He.
  eexists _, _, (mergeData existing item).
  split; [apply (mergeItem_existing item mergedMap h ih existing eh); assumption|].
  split; [rewrite getOwn_setOwn; now rewrite String.eqb_refl|].
  simpl. split; [|split; [|split]].
  - intros Hl. rewrite appendLayers_nonempty by assumption.
    split; [reflexivity|].
    split; [apply mergeLayers_sorted|].
    split; [apply mergeLayers_distinct|].
    split; [intros l; apply mergeLayers_incl|].
    split; [intros k; apply mergeLayers_first|].
    intros k l Hf. rewrite mergeLayers_first. now apply find_app_Some.
  - intros ->. reflexivity.
  - intros Hs. rewrite appendSpt_nonempty by assumption.
    split; [reflexivity|].
    split; [apply mergeSpt_sorted|].
    split; [apply mergeSpt_distinct|].
    split; [intros s; apply mergeSpt_incl|].
    split; [intros d; apply mergeSpt_first|].
    intros d s Hf. rewrite mergeSpt_first. now apply find_app_Some.
  - intros ->. reflexivity.
Qed.

(** Two fragments of borehole A with a layer from 0 to 1 each: the record
    keeps the layer of the first one, clay, and the other layers and SPT
    records come out in order of depth. *)
Lemma C2_witness :
  let h : heap :=
    {[ 1%nat := Sample.hdr "A" "" "" ""; 2%nat := Sample.hdr " A " "" "" "" ]} in
  let existing :=
    Sample.frag "f1" 1 [Sample.layer "a" 0 1 "clay"] [Sample.test "s1" 3 12] in
  let item :=
    Sample.frag "f2" 2
      [Sample.layer "c" 1 2 "silt"; Sample.layer "b" 0 1 "sand"]
      [Sample.test "s2" 3 40; Sample.test "s3" (3 # 2) 7] in
  exists mergedMap' h' merged,
    mergeItem item [("A"%string, existing)] h = Normal (mergedMap', h')
    /\ getOwn mergedMap' "A" = Some merged
    /\ layers merged = [Sample.layer "a" 0 1 "clay"; Sample.layer "c" 1 2 "silt"]
    /\ spt merged = [Sample.test "s3" (3 # 2) 7; Sample.test "s1" 3 12].
Proof.
  intros h existing item.
  destruct (C2_merge_of_later_fragment h item [("A"%string, existing)]
              (Sample.hdr " A " "" "" "") existing (Sample.hdr "A" "" "" ""))
    as (m' & h' & merged & Hrun & Hget & Hl & _ & Hs & _);
    [reflexivity | discriminate | reflexivity | reflexivity |].
  exists m', h', merged.
  split; [exact Hrun|]. split; [exact Hget|].
  split.
  - destruct Hl as [-> _]; [discriminate|]. reflexivity.
  - destruct Hs as [-> _]; [discriminate|]. reflexivity.
Defined.

(** C3, as stated: the per-name merge does not back-fill [projectName].
    It does: an empty project name of the record is replaced by the one of
    the incoming fragment. *)
Lemma C3_counterexample :
  let h : heap :=
    {[ 1%nat := Sample.hdr "A" "12.5" "" "2024-01-01";
       2%nat := Sample.hdr "A" "13.0" "Harbour" "2024-02-02" ]} in
  let first := Sample.frag "f1" 1 [] [] in
  let second := Sample.frag "f2" 2 [] [] in
  exists merged h',
    mergeBoreholes Sample.primary [first; second] h = Normal ([merged], h')
    /\ header merged = 1%nat
    /\ projectName <$> h !! 1%nat = Some EmptyString
    /\ projectName <$> h' !! 1%nat = Some "Harbour"%string.
Proof.
  simpl. eexists _, _. split; [vm_compute; reflexivity|].
  repeat split.
Qed.

(** C3, amended: when a later fragment is merged into a record, each of
    the header fields [projectName], [elevation], [coordinates] and
    [waterTable] keeps the value the record has unless that value is empty
    or the placeholder of the field (["0.00"] for the elevation, ["-"] for
    the water table), in which case the value of the incoming fragment
    replaces it; [boreholeName] and [client] are left as they are. *)
Theorem C3_header_backfill (h : heap) item mergedMap ih existing eh :
  h !! header item = Some ih ->
  trim (boreholeName ih) <> EmptyString ->
  getOwn mergedMap (trim (boreholeName ih)) = Some existing ->
  h !! header existing = Some eh ->
  exists mergedMap' h' merged eh',
    mergeItem item mergedMap h = Normal (mergedMap', h')
    /\ getOwn mergedMap' (trim (boreholeName ih)) = Some merged
    /\ header merged = header existing
    /\ h' !! header merged = Some eh'
    /\ projectName eh'
       = (if String.eqb (projectName eh) "" then projectName ih
          else projectName eh)
    /\ elevation eh'
       = (if String.eqb (elevation eh) "" || String.eqb (elevation eh) "0.00"
          then elevation ih else elevation eh)
    /\ coordinates eh'
       = (if String.eqb (coordinates eh) "" then coordinates ih
          else coordinates eh)
    /\ waterTable eh'
       = (if String.eqb (waterTable eh) "" || String.eqb (waterTable eh) "-"
          then waterTable ih else waterTable eh)
    /\ boreholeName eh' = boreholeName eh
    /\ client eh' = client eh.
Proof.
  intros Hh Hne Hown He.
  eexists _, _, (mergeData existing item), (backfilled eh ih).
  split; [apply (mergeItem_existing item mergedMap h ih existing eh); assumption|].
  split; [rewrite getOwn_setOwn; now rewrite String.eqb_refl|].
  split; [reflexivity|].
  split; [apply lookup_insert_eq|].
  destruct eh as [pn bn dt el co cl wt]; simpl.
  repeat split.
  - now destruct pn.
  - destruct el; simpl; rewrite ?orb_false_l, ?orb_false_r; reflexivity.
  - now destruct co.
  - destruct wt; simpl; rewrite ?orb_false_l, ?orb_false_r; reflexivity.
Qed.

(** A record with the placeholder elevation and no project name takes
    both from the next fragment of its borehole. *)
Lemma C3_witness :
  let h : heap :=
    {[ 1%nat := Sample.hdr "A" "0.00" "" "2024-01-01";
       2%nat := Sample.hdr "A" "13.0" "Harbour" "2024-02-02" ]} in
  let existing := Sample.frag "f1" 1 [] [] in
  let item := Sample.frag "f2" 2 [] [] in
  exists mergedMap' h' eh',
    mergeItem item [("A"%string, existing)] h = Normal (mergedMap', h')
    /\ h' !! 1%nat = Some eh'
    /\ projectName eh' = "Harbour"%string
    /\ elevation eh' = "13.0"%string
    /\ boreholeName eh' = "A"%string.
Proof.
  intros h existing item.
  destruct (C3_header_backfill h item [("A"%string, existing)]
              (Sample.hdr "A" "13.0" "Harbour" "2024-02-02") existing
              (Sample.hdr "A" "0.00" "" "2024-01-01"))
    as (m' & h' & merged & eh' & Hrun & Hget & Hhd & Hlook & Hp & He & _ & _ & Hb & _);
    [reflexivity | discriminate | reflexivity | reflexivity |].
  exists m', h', eh'.
  rewrite Hhd in Hlook.
  split; [exact Hrun|]. split; [exact Hlook|].
  split; [exact Hp|]. split; [exact He|]. exact Hb.
Defined.

(** ** The records of the output (claims C4 and C5) *)

Lemma fold_appendLayers_empty ls : forall l0,
  (forall inc, In inc ls -> inc = []) -> fold_left appendLayers ls l0 = l0.
Proof.
  induction ls as [|x r IH]; simpl; intros l0 H; [reflexivity|].
  rewrite (H x (or_introl eq_refl)). simpl. apply IH. auto.
Qed.

Lemma fold_appendSpt_empty ls : forall l0,
  (forall inc, In inc ls -> inc = []) -> fold_left appendSpt ls l0 = l0.
Proof.
  induction ls as [|x r IH]; simpl; intros l0 H; [reflexivity|].
  rewrite (H x (or_introl eq_refl)). simpl. apply IH. auto.
Qed.

Lemma fold_appendLayers_sorted ls : forall l0,
  (StronglySorted byDepthFrom l0 /\ DistinctLayers l0)
  \/ (exists inc, In inc ls /\ inc <> []) ->
  StronglySorted byDepthFrom (fold_left appendLayers ls l0)
  /\ DistinctLayers (fold_left appendLayers ls l0).
Proof.
  induction ls as [|x r IH]; simpl; intros l0 H.
  - destruct H as [H|(inc & [] & _)]. exact H.
  - apply IH. destruct x as [|y x'].
    + simpl. destruct H as [H|(inc & [<-|Hin] & Hne)]; eauto. congruence.
    + left. rewrite appendLayers_nonempty by discriminate.
      split; [apply mergeLayers_sorted | apply mergeLayers_distinct].
Qed.

Lemma fold_appendSpt_sorted ls : forall l0,
  (StronglySorted byDepth l0 /\ DistinctDepths l0)
  \/ (exists inc, In inc ls /\ inc <> []) ->
  StronglySorted byDepth (fold_left appendSpt ls l0)
  /\ DistinctDepths (fold_left appendSpt ls l0).
Proof.
  induction ls as [|x r IH]; simpl; intros l0 H.
  - destruct H as [H|(inc & [] & _)]. exact H.
  - apply IH. destruct x as [|y x'].
    + simpl. destruct H as [H|(inc & [<-|Hin] & Hne)]; eauto. congruence.
    + left. rewrite appendSpt_nonempty by discriminate.
      split; [apply mergeSpt_sorted | apply mergeSpt_distinct].
Qed.

(** C4, as stated: every record of the output has its layers in order of
    depth and without a repeated [(depthFrom, depthTo)] pair, also when a
    single fragment contributed to it.  A record made of one fragment
    carries the layers and the SPT records of that fragment as they came:
    here out of order and with a repetition. *)
Lemma C4_counterexample :
  let h : heap := {[ 1%nat := Sample.hdr "A" "" "" "" ]} in
  let only :=
    Sample.frag "f1" 1
      [Sample.layer "a" 2 3 "sand"; Sample.layer "b" 0 1 "clay";
       Sample.layer "c" 0 1 "silt"]
      [Sample.test "s1" 6 20; Sample.test "s2" 3 12; Sample.test "s3" 3 15] in
  exists bh h',
    mergeBoreholes Sample.primary [only] h = Normal ([bh], h')
    /\ ~ StronglySorted byDepthFrom (layers bh)
    /\ ~ DistinctLayers (layers bh)
    /\ ~ StronglySorted byDepth (spt bh)
    /\ ~ DistinctDepths (spt bh).
Proof.
  simpl. eexists _, _. split; [vm_compute; reflexivity|].
  simpl. repeat split; intros H.
  - inversion H as [|? ? _ HF]; subst.
    inversion HF as [|? ? Hle _]; subst.
    unfold leNum, Qle in Hle. simpl in Hle. lia.
  - inversion H as [|? ? _ Hrest]; subst.
    inversion Hrest as [|? ? HF _]; subst.
    inversion HF as [|? ? Hk _]; subst. discriminate Hk.
  - inversion H as [|? ? _ HF]; subst.
    inversion HF as [|? ? Hle _]; subst.
    unfold leNum, Qle in Hle. simpl in Hle. lia.
  - inversion H as [|? ? _ Hrest]; subst.
    inversion Hrest as [|? ? HF _]; subst.
    inversion HF as [|? ? Hk _]; subst. discriminate Hk.
Qed.

(** C4, amended: a record of the output is the fold of the fragments
    that carry its name, in arrival order.  If one of the fragments after
    the first carries layers, the layers of the record are in ascending
    order of [depthFrom] and no two of them have the same
    [(depthFrom, depthTo)] pair; if none does (in particular when there is
    one fragment only), the record has the layers of the first fragment
    as they came.  The same holds for the SPT records and their depth. *)
Theorem C4_layers_of_output primary (h0 : heap) rawList out h :
  mergeBoreholes primary rawList h0 = Normal (out, h) ->
  forall bh, In bh out ->
  exists first later,
    fragmentsOf h0 (nameOf h0 bh) rawList = first :: later
    /\ ((exists f, In f later /\ layers f <> []) ->
        StronglySorted byDepthFrom (layers bh) /\ DistinctLayers (layers bh))
    /\ ((forall f, In f later -> layers f = []) -> layers bh = layers first)
    /\ ((exists f, In f later /\ spt f <> []) ->
        StronglySorted byDepth (spt bh) /\ DistinctDepths (spt bh))
    /\ ((forall f, In f later -> spt f = []) -> spt bh = spt first).
Proof.
  intros Hrun bh Hin.
  apply (mergeBoreholes_In primary _ _ _ _ Hrun) in Hin as (k & Hk & Hrec).
  rewrite (reconcile_name _ _ _ _ Hrec).
  destruct (fragmentsOf h0 k rawList) as [|first later]; [discriminate|].
  injection Hrec as <-. exists first, later.
  split; [reflexivity|].
  rewrite layers_fold_mergeData, spt_fold_mergeData.
  split; [|split; [|split]].
  - intros (f & Hf & Hne). apply fold_appendLayers_sorted. right.
    exists (layers f). split; [now apply in_map|assumption].
  - intros Hall. apply fold_appendLayers_empty.
    intros inc (f & <- & Hf)%in_map_iff. now apply Hall.
  - intros (f & Hf & Hne). apply fold_appendSpt_sorted. right.
    exists (spt f). split; [now apply in_map|assumption].
  - intros Hall. apply fold_appendSpt_empty.
    intros inc (f & <- & Hf)%in_map_iff. now apply Hall.
Qed.

(** A second fragment with a layer puts the layers of the record in
    order. *)
Lemma C4_witness :
  let h : heap :=
    {[ 1%nat := Sample.hdr "A" "" "" ""; 2%nat := Sample.hdr "A" "" "" "" ]} in
  let rawList :=
    [ Sample.frag "f1" 1
        [Sample.layer "a" 2 3 "sand"; Sample.layer "b" 0 1 "clay"] [];
      Sample.frag "f2" 2 [Sample.layer "c" 0 1 "silt"] [] ] in
  exists out h',
    mergeBoreholes Sample.primary rawList h = Normal (out, h')
    /\ forall bh, In bh out ->
         StronglySorted byDepthFrom (layers bh) /\ DistinctLayers (layers bh).
Proof.
  intros h rawList.
  assert (Hrun : mergeBoreholes Sample.primary rawList h
                 = Normal ([Sample.frag "f1" 1
                              [Sample.layer "b" 0 1 "clay";
                               Sample.layer "a" 2 3 "sand"] []],
                           h)).
  { vm_compute. reflexivity. }
  eexists _, _. split; [exact Hrun|].
  intros bh Hin.
  destruct (C4_layers_of_output Sample.primary h rawList _ _ Hrun bh Hin)
    as (first & later & Hfr & Hl & _).
  destruct Hin as [<-|[]].
  vm_compute in Hfr. injection Hfr as <- <-.
  apply Hl. eexists. split; [left; reflexivity|discriminate].
Defined.
















(** ** The order of the output (claim C7) *)

Lemma compareElement_refl x : compareElement x x = Eq.
Proof.
  destruct (compareElement_spec x x) as [_|H|H];
    [reflexivity | now apply ltElement_irrefl in H..].
Qed.

(** Two names made of the same letters and a number compare like their
    numbers. *)
Lemma localeCompare_BH primary (sm sn : string) (m n : N) :
  sortKeyFrom primary sm None = [(primary "0"%char, m)] ->
  sortKeyFrom primary sn None = [(primary "0"%char, n)] ->
  localeCompare primary ("BH-" ++ sm) ("BH-" ++ sn)
  = match (m ?= n)%N with Lt => (-1)%Q | Eq => 0%Q | Gt => 1%Q end.
Proof.
  intros Hm Hn. unfold localeCompare, sortKey.
  change (sortKeyFrom primary ("BH-" ++ sm) None)
    with ((primary "B"%char, 0%N) :: (primary "H"%char, 0%N)
          :: (primary "-"%char, 0%N) :: sortKeyFrom primary sm None).
  change (sortKeyFrom primary ("BH-" ++ sn) None)
    with ((primary "B"%char, 0%N) :: (primary "H"%char, 0%N)
          :: (primary "-"%char, 0%N) :: sortKeyFrom primary sn None).
  cbn [compareKeys].
  rewrite !compareElement_refl, Hm, Hn. simpl.
  unfold compareElement. simpl. rewrite N.compare_refl.
  now destruct (m ?= n)%N.
Qed.

(** C7: the output is in the order of the collation of the borehole names
    read in the headers, every earlier record before or level with every
    later one, whenever the engine returns, and it returns when every
    fragment has a header and no name is that of a built-in of
    [Object.prototype]; the collation compares runs of digits by their
    value, so fragments named BH-2, BH-10 and BH-1 come out as BH-1, BH-2,
    BH-10, whatever the weights of the other characters. *)
Theorem C7_output_sorted_by_name primary :
  (forall (h0 : heap) rawList,
     (forall item, In item rawList ->
        is_Some (h0 !! header item)
        /\ isPrototypeKey (nameOf h0 item) = false) ->
     exists out h,
       mergeBoreholes primary rawList h0 = Normal (out, h)
       /\ StronglySorted (nameOrder primary h) out)
  /\ (let h0 : heap :=
        {[ 1%nat := Sample.hdr "BH-2" "" "" "";
           2%nat := Sample.hdr "BH-10" "" "" "";
           3%nat := Sample.hdr "BH-1" "" "" "" ]} in
      let rawList :=
        [Sample.frag "x" 1 [] []; Sample.frag "y" 2 [] [];
         Sample.frag "z" 3 [] []] in
      exists out h,
        mergeBoreholes primary rawList h0 = Normal (out, h)
        /\ List.map (nameIn h) out = ["BH-1"; "BH-2"; "BH-10"]%string).
Proof.
  split.
  - intros h0 rawList Hok.
    destruct (mergeBoreholes_returns primary h0 rawList Hok) as (out & h & Hrun).
    exists out, h. split; [assumption|].
    now destruct (mergeBoreholes_spec primary _ _ _ _ Hrun) as (_ & _ & _ & Hs).
  - intros h0 rawList. eexists _, _. split.
    + unfold mergeBoreholes.
      erewrite bind_Normal by (vm_compute; reflexivity).
      unfold sortByName.
      erewrite bind_Normal by (vm_compute; reflexivity).
      unfold ret.
      assert (H1 : localeCompare primary "BH-10" "BH-1" = 1%Q)
        by exact (localeCompare_BH primary "10" "1" 10 1 eq_refl eq_refl).
      assert (H2 : localeCompare primary "BH-2" "BH-1" = 1%Q)
        by exact (localeCompare_BH primary "2" "1" 2 1 eq_refl eq_refl).
      assert (H3 : localeCompare primary "BH-2" "BH-10" = (-1)%Q)
        by exact (localeCompare_BH primary "2" "10" 2 10 eq_refl eq_refl).
      cbn -[localeCompare]. rewrite H1.
      change (0 ?= 1)%Q with Lt. cbn -[localeCompare]. rewrite H2.
      change (0 ?= 1)%Q with Lt. cbn -[localeCompare]. rewrite H3.
      reflexivity.
    + reflexivity.
Qed.

(** Four fragments, one of them without a name, two of the same
    borehole. *)
Lemma C7_witness :
  let h0 : heap :=
    {[ 1%nat := Sample.hdr "bh 12" "" "" ""; 2%nat := Sample.hdr "BH 7" "" "" "";
       3%nat := Sample.hdr "  " "" "" ""; 4%nat := Sample.hdr "BH 7 " "" "" "" ]} in
  let rawList :=
    [Sample.frag "x" 1 [] []; Sample.frag "y" 2 [] [];
     Sample.frag "z" 3 [] []; Sample.frag "w" 4 [] []] in
  exists out h,
    mergeBoreholes Sample.primary rawList h0 = Normal (out, h)
    /\ StronglySorted (nameOrder Sample.primary h) out.
Proof.
  intros h0 rawList.
  apply (proj1 (C7_output_sorted_by_name Sample.primary) h0 rawList).
  intros item [<-|[<-|[<-|[<-|[]]]]];
    (split; [eexists; vm_compute; reflexivity | vm_compute; reflexivity]).
Defined.

(** ** Names that the plain object already knows (claim C8) *)

Lemma isPrototypeKey_nonempty k : isPrototypeKey k = true -> k <> EmptyString.
Proof. intros H ->. discriminate. Qed.

Lemma forEach_mergeItem_throws h0 todo : forall done m h,
  MergeInv h0 done m h ->
  (exists item, In item todo /\ is_Some (h0 !! header item)
                /\ isPrototypeKey (nameOf h0 item) = true) ->
  exists e, forEach mergeItem todo m h = Throw e.
Proof.
  induction todo as [|x r IH]; simpl; intros done m h Inv (item & Hin & Ha & Hp);
    [tauto|].
  unfold bind.
  destruct (mergeItem x m h) as [[m1 h1]|e] eqn:E; [|eauto].
  destruct Hin as [->|Hin].
  - exfalso.
    destruct (is_Some_inv h0 h _ (inv_names _ _ _ _ Inv) Ha) as [ih Hh].
    pose proof (nameOf_inv h0 h item ih (inv_names _ _ _ _ Inv) Hh) as Hname.
    rewrite Hname in Hp.
    assert (Hown : getOwn m (trim (boreholeName ih)) = None).
    { rewrite (inv_own _ _ _ _ Inv) by now apply isPrototypeKey_nonempty.
      destruct (fragmentsOf h0 (trim (boreholeName ih)) done) as [|f fs] eqn:Ef;
        [reflexivity|].
      assert (Hf : In f (fragmentsOf h0 (trim (boreholeName ih)) done))
        by (rewrite Ef; now left).
      apply fragmentsOf_In in Hf as [Hf Hn].
      pose proof (inv_proto _ _ _ _ Inv f Hf) as Hnp.
      rewrite Hn in Hnp. congruence. }
    rewrite (mergeItem_inherited item m h ih Hh Hown Hp) in E. discriminate.
  - eapply (IH (done ++ [x])).
    + eapply mergeItem_preserves; eassumption.
    + eauto.
Qed.

(** Any list with a fragment named like a built-in makes the engine
    throw. *)
Lemma mergeBoreholes_throws primary (h0 : heap) rawList :
  (exists item, In item rawList /\ is_Some (h0 !! header item)
                /\ isPrototypeKey (nameOf h0 item) = true) ->
  exists e, mergeBoreholes primary rawList h0 = Throw e.
Proof.
  intros H.
  destruct (forEach_mergeItem_throws h0 rawList [] [] h0 (MergeInv_init h0) H)
    as [e He].
  exists e. unfold mergeBoreholes, bind. now rewrite He.
Qed.

(** Fragments without a name leave no record, and a list of such
    fragments only gives the empty output. *)
Lemma mergeBoreholes_unnamed primary (h0 : heap) rawList :
  (forall item, In item rawList ->
     is_Some (h0 !! header item) /\ nameOf h0 item = EmptyString) ->
  exists h, mergeBoreholes primary rawList h0 = Normal ([], h).
Proof.
  intros Hok.
  destruct (mergeBoreholes_returns primary h0 rawList) as (out & h & Hrun).
  { intros item Hin. destruct (Hok item Hin) as [Ha Hn].
    split; [assumption|]. now rewrite Hn. }
  exists h. destruct out as [|d out]; [assumption|]. exfalso.
  destruct (proj1 (mergeBoreholes_In primary _ _ _ _ Hrun d) (or_introl eq_refl))
    as (k & Hk & Hrec).
  destruct (reconcile_header _ _ Hrec) as (first & Hin & _).
  apply fragmentsOf_In in Hin as [Hin Hn].
  destruct (Hok first Hin) as [_ Hn']. congruence.
Qed.

(** C8: a fragment whose name is the name of a built-in of
    [Object.prototype] makes the engine throw: [mergedMap["constructor"]]
    is the inherited function, the fragment is taken for a later fragment
    of a known borehole, and reading the header of that record fails. *)
Theorem C8_builtin_name_throws :
  let h : heap :=
    {[ 1%nat := Sample.hdr "BH-1" "" "" "";
       2%nat := Sample.hdr "constructor" "" "" "" ]} in
  mergeBoreholes Sample.primary
    [Sample.frag "f1" 1 [] []; Sample.frag "f2" 2 [] []] h
  = Throw TypeError.
Proof. vm_compute. reflexivity. Qed.

(** ** The chart: what a successful render has computed *)

Lemma headerElevation_spec (h : heap) d :
  headerElevation d h
  = match h !! header d with
    | Some hd => Normal (parseElevation (elevation hd), h)
    | None => Throw TypeError
    end.
Proof. unfold headerElevation, bind, deref, ret. now destruct (h !! header d). Qed.

Lemma mapM_headerElevation (h : heap) data :
  (forall d, In d data -> is_Some (h !! header d)) ->
  mapM headerElevation data h = Normal (elevationsOf h data, h).
Proof.
  induction data as [|d r IH]; simpl; intros Hok; [reflexivity|].
  destruct (Hok d (or_introl eq_refl)) as [hd Hd].
  erewrite bind_Normal by (rewrite headerElevation_spec, Hd; reflexivity).
  erewrite bind_Normal by (apply IH; intros; apply Hok; now right).
  unfold elevationsOf, headerOf. simpl. now rewrite Hd.
Qed.

Lemma mapM_headerElevation_inv (h : heap) data elevations h' :
  mapM headerElevation data h = Normal (elevations, h') ->
  forall d, In d data -> is_Some (h !! header d).
Proof.
  revert elevations h'.
  induction data as [|d r IH]; simpl; intros elevations h' Hrun x; [tauto|].
  apply bind_inv in Hrun as (a & h1 & H1 & Hrun).
  apply bind_inv in Hrun as (rest & h2 & H2 & Hrun).
  rewrite headerElevation_spec in H1.
  destruct (h !! header d) as [hd|] eqn:Hd; [|discriminate].
  injection H1 as <- <-.
  intros [<-|Hin]; [rewrite Hd; eauto|]. eapply IH; eauto.
Qed.

Lemma column_spec top plot (h : heap) bh idx :
  is_Some (h !! header bh) ->
  column top plot bh idx h = Normal (columnFor top plot (headerOf h bh) bh idx, h).
Proof.
  intros [hd Hd]. unfold column, bind, deref, ret, headerOf. now rewrite Hd.
Qed.

Lemma mapiMFrom_column top plot (h : heap) data : forall i,
  (forall d, In d data -> is_Some (h !! header d)) ->
  mapiMFrom (column top plot) i data h
  = Normal (mapiFrom (fun bh idx => columnFor top plot (headerOf h bh) bh idx)
              i data, h).
Proof.
  induction data as [|d r IH]; simpl; intros i Hok; [reflexivity|].
  erewrite bind_Normal by (apply column_spec, Hok; now left).
  erewrite bind_Normal by (apply IH; intros; apply Hok; now right).
  reflexivity.
Qed.

Lemma map_mapiFrom {A B C} (g : B -> C) (f : A -> nat -> B) l : forall i,
  List.map g (mapiFrom f i l) = mapiFrom (fun x idx => g (f x idx)) i l.
Proof.
  induction l as [|x r IH]; simpl; intros i; [reflexivity|]. now rewrite IH.
Qed.

Lemma mapiFrom_const {A B} (f : A -> B) l : forall i,
  mapiFrom (fun x _ => f x) i l = List.map f l.
Proof.
  induction l as [|x r IH]; simpl; intros i; [reflexivity|]. now rewrite IH.
Qed.

Lemma Array_from_length_inv n (h : heap) indices h' :
  Array_from_length n h = Normal (indices, h') ->
  h' = h /\ indices = seq 0 (Z.to_nat (toLength n)).
Proof.
  unfold Array_from_length.
  destruct (2 ^ 32 - 1 <? toLength n)%Z; [discriminate|].
  unfold ret. now intros [= <- <-].
Qed.

(** What a render that returns has computed. *)
Lemma SoilProfileChart_inv data (h : heap) lm data' h' :
  SoilProfileChart data h = Normal ((lm, data'), h') ->
  h' = h
  /\ data <> []
  /\ (forall d, In d data -> is_Some (h !! header d))
  /\ relativeMode lm = modeOf h data
  /\ topElevation lm = topOf h data
  /\ grid lm
     = List.map (gridLine (modeOf h data) (topOf h data) (canvasWidthOf data))
         (seq 0 (Z.to_nat (toLength
            (Num.ceil (topOf h data - bottomOf h data) + Fin 1)%num)))
  /\ columns lm
     = mapi (fun bh idx =>
               fst (columnFor (topOf h data) (plotOf h data) (headerOf h bh)
                      bh idx)) data
  /\ data' = List.map sortedSpt data.
Proof.
  intros Hrun. unfold SoilProfileChart in Hrun.
  apply bind_inv in Hrun as (elevations & h1 & Helev & Hrun).
  pose proof (mapM_headerElevation_inv _ _ _ _ Helev) as Hok.
  rewrite (mapM_headerElevation h data Hok) in Helev.
  injection Helev as <- <-.
  fold (modeOf h data) in Hrun. fold (plotOf h data) in Hrun.
  pose proof (eq_refl (topOf h data)) as Htop.
  pose proof (eq_refl (bottomOf h data)) as Hbot.
  unfold topOf at 2 in Htop. unfold bottomOf at 2 in Hbot.
  destruct (extentFrom (plotOf h data) 0 data (NegInfinity, Infinity))
    as [maxAbs minAbs] eqn:Hext.
  simpl in Htop, Hbot. rewrite <- Htop, <- Hbot in Hrun.
  apply bind_inv in Hrun as (indices & h2 & Hidx & Hrun).
  apply Array_from_length_inv in Hidx as [-> ->].
  apply bind_inv in Hrun as (cols & h3 & Hcols & Hrun).
  rewrite (mapiMFrom_column _ _ h data 0 Hok) in Hcols.
  injection Hcols as <- <-.
  rewrite map_mapiFrom in Hrun. simpl in Hrun.
  rewrite mapiFrom_const in Hrun.
  destruct data as [|first rest]; [discriminate|].
  simpl in Hrun.
  apply bind_inv in Hrun as (hd & h4 & Hd & Hrun).
  unfold deref in Hd. simpl in Hd.
  destruct (h !! header first); [|discriminate].
  injection Hd as <- <-. injection Hrun as <- <- <-.
  simpl. repeat split; try assumption; try reflexivity.
  - discriminate.
  - now rewrite map_mapiFrom.
Qed.

(** ** The elevation mode (claim C1) *)

Lemma parseFloat_cases s : parseFloat s = NaN \/ exists q, parseFloat s = Fin q.
Proof.
  unfold parseFloat.
  destruct (trimStart s) as [|c r].
  - destruct (parseUnsigned ""); eauto.
  - destruct c as [[] [] [] [] [] [] [] []];
      match goal with
      | |- context [parseUnsigned ?x] => destruct (parseUnsigned x); eauto
      end.
Qed.

Lemma parseElevation_fin s : exists q, parseElevation s = Fin q.
Proof.
  unfold parseElevation.
  destruct (parseFloat_cases (stripNonNumeric s)) as [->|[q ->]]; simpl; eauto.
Qed.

Lemma elevationsOf_fin (h : heap) data :
  exists qs, elevationsOf h data = List.map Fin qs.
Proof.
  unfold elevationsOf. induction data as [|d r [qs IH]]; simpl.
  - now exists [].
  - destruct (parseElevation_fin (elevation (headerOf h d))) as [q ->].
    exists (q :: qs). simpl. now rewrite IH.
Qed.

Lemma max2_fin a x :
  ((a < x)%Q /\ Num.max2 (Fin a) (Fin x) = Fin x)
  \/ ((x <= a)%Q /\ Num.max2 (Fin a) (Fin x) = Fin a).
Proof.
  unfold Num.max2, Num.ltb.
  destruct (a ?= x)%Q eqn:E; [right|left|right]; (split; [|reflexivity]).
  - apply Qeq_alt in E. lra.
  - now apply Qlt_alt in E.
  - apply Qgt_alt in E. lra.
Qed.

Lemma min2_fin a x :
  ((x < a)%Q /\ Num.min2 (Fin a) (Fin x) = Fin x)
  \/ ((a <= x)%Q /\ Num.min2 (Fin a) (Fin x) = Fin a).
Proof.
  unfold Num.min2, Num.ltb.
  destruct (x ?= a)%Q eqn:E; [right|left|right]; (split; [|reflexivity]).
  - apply Qeq_alt in E. lra.
  - now apply Qlt_alt in E.
  - apply Qgt_alt in E. lra.
Qed.

Lemma fold_max2_fin qs : forall a,
  exists M, fold_left Num.max2 (List.map Fin qs) (Fin a) = Fin M
            /\ (M = a \/ In M qs) /\ (a <= M)%Q
            /\ forall q, In q qs -> (q <= M)%Q.
Proof.
  induction qs as [|x r IH]; cbn [fold_left List.map]; intros a.
  - exists a. split; [reflexivity|]. split; [now left|].
    split; [apply Qle_refl|]. intros q [].
  - destruct (max2_fin a x) as [[H ->]|[H ->]].
    + destruct (IH x) as (M & HM & Hin & Ha & Hall).
      exists M. split; [exact HM|]. split; [destruct Hin as [->|Hin]; simpl; auto|]. split; [lra|].
      intros q [<-|Hq]; [lra|auto].
    + destruct (IH a) as (M & HM & Hin & Ha & Hall).
      exists M. split; [exact HM|]. split; [destruct Hin as [->|Hin]; simpl; auto|].
      split; [exact Ha|].
      intros q [<-|Hq]; [lra|auto].
Qed.

Lemma fold_min2_fin qs : forall a,
  exists m, fold_left Num.min2 (List.map Fin qs) (Fin a) = Fin m
            /\ (m = a \/ In m qs) /\ (m <= a)%Q
            /\ forall q, In q qs -> (m <= q)%Q.
Proof.
  induction qs as [|x r IH]; cbn [fold_left List.map]; intros a.
  - exists a. split; [reflexivity|]. split; [now left|].
    split; [apply Qle_refl|]. intros q [].
  - destruct (min2_fin a x) as [[H ->]|[H ->]].
    + destruct (IH x) as (M & HM & Hin & Ha & Hall).
      exists M. split; [exact HM|]. split; [destruct Hin as [->|Hin]; simpl; auto|]. split; [lra|].
      intros q [<-|Hq]; [lra|auto].
    + destruct (IH a) as (M & HM & Hin & Ha & Hall).
      exists M. split; [exact HM|]. split; [destruct Hin as [->|Hin]; simpl; auto|].
      split; [exact Ha|].
      intros q [<-|Hq]; [lra|auto].
Qed.

(** [Math.max] and [Math.min] of finitely many finite numbers are the
    greatest and the least of them. *)
Lemma Num_max_fin qs :
  qs <> [] ->
  exists M, Num.max (List.map Fin qs) = Fin M /\ In M qs
            /\ forall q, In q qs -> (q <= M)%Q.
Proof.
  destruct qs as [|x r]; [congruence|]. intros _.
  unfold Num.max. simpl.
  destruct (fold_max2_fin r x) as (M & HM & Hin & Ha & Hall).
  exists M. split; [assumption|]. split; [simpl; intuition auto|].
  intros q [<-|Hq]; auto.
Qed.

Lemma Num_min_fin qs :
  qs <> [] ->
  exists m, Num.min (List.map Fin qs) = Fin m /\ In m qs
            /\ forall q, In q qs -> (m <= q)%Q.
Proof.
  destruct qs as [|x r]; [congruence|]. intros _.
  unfold Num.min. simpl.
  destruct (fold_min2_fin r x) as (M & HM & Hin & Ha & Hall).
  exists M. split; [assumption|]. split; [simpl; intuition auto|].
  intros q [<-|Hq]; auto.
Qed.

Lemma mapiFrom_at {A} (data : list A) (l : list number) : forall i,
  (List.length data + i = List.length l)%nat ->
  mapiFrom (fun _ idx => at_ l idx) i data = drop i l.
Proof.
  induction data as [|x r IH]; simpl; intros i Hlen.
  - symmetry. apply drop_ge. lia.
  - destruct (l !! i) as [v|] eqn:E.
    + rewrite (drop_S l v i E). unfold at_ at 1. rewrite E. f_equal.
      apply IH. lia.
    + apply lookup_ge_None in E. lia.
Qed.

Lemma plotElevations_relative data elevations :
  plotElevations data elevations true = List.map (fun _ => Fin 0) data.
Proof. unfold plotElevations, mapi. apply mapiFrom_const. Qed.

Lemma plotElevations_absolute data elevations :
  List.length elevations = List.length data ->
  plotElevations data elevations false = elevations.
Proof.
  intros Hlen. unfold plotElevations, mapi.
  rewrite mapiFrom_at by lia. apply drop_0.
Qed.

Lemma elevationsOf_length (h : heap) data :
  List.length (elevationsOf h data) = List.length data.
Proof. unfold elevationsOf. apply List.length_map. Qed.

Lemma plotOf_cases (h : heap) data :
  plotOf h data
  = if modeOf h data then List.map (fun _ => Fin 0) data
    else elevationsOf h data.
Proof.
  unfold plotOf. destruct (modeOf h data).
  - apply plotElevations_relative.
  - apply plotElevations_absolute, elevationsOf_length.
Qed.

Lemma plotOf_length (h : heap) data :
  List.length (plotOf h data) = List.length data.
Proof.
  rewrite plotOf_cases. destruct (modeOf h data).
  - apply List.length_map.
  - apply elevationsOf_length.
Qed.


(** ** A render of records with readable headers returns *)

Lemma modeOf_spec (h : heap) data qs M m :
  elevationsOf h data = List.map Fin qs ->
  Num.max (List.map Fin qs) = Fin M ->
  Num.min (List.map Fin qs) = Fin m ->
  modeOf h data = true <-> (50 < M - m)%Q \/ (List.length data < 2)%nat.
Proof.
  intros Hqs HM Hm.
  unfold modeOf, isRelativeMode. rewrite Hqs, HM, Hm.
  rewrite orb_true_iff, Nat.ltb_lt.
  unfold Num.gtb, Num.sub, Num.neg, Num.add, Num.ltb.
  destruct (50 ?= M + - m)%Q eqn:E.
  - apply Qeq_alt in E. split; [intros [?|?]; [discriminate|auto]|].
    intros [?|?]; [lra|auto].
  - apply Qlt_alt in E. split; [intros _; left; lra|auto].
  - apply Qgt_alt in E. split; [intros [?|?]; [discriminate|auto]|].
    intros [?|?]; [lra|auto].
Qed.

Lemma at_map_Fin ps : forall idx p,
  ps !! idx = Some p -> at_ (List.map Fin ps) idx = Fin p.
Proof.
  induction ps as [|x r IH]; intros [|idx] p; simpl; try discriminate.
  - now intros [= ->].
  - intros H. unfold at_. simpl. now apply IH.
Qed.


Lemma plotOf_fin (h : heap) data :
  data <> [] ->
  exists ps lo, plotOf h data = List.map Fin ps
                /\ forall p, In p ps -> (lo <= p)%Q /\ (p <= lo + 50)%Q.
Proof.
  intros Hne. rewrite plotOf_cases.
  destruct (modeOf h data) eqn:Hmode.
  - exists (List.map (fun _ => 0%Q) data), 0%Q. split.
    + now rewrite List.map_map.
    + intros p (d & <- & _)%in_map_iff. lra.
  - destruct (elevationsOf_fin h data) as [qs Hqs].
    assert (Hqne : qs <> []).
    { intros ->. destruct data; [congruence|]. discriminate Hqs. }
    destruct (Num_max_fin qs Hqne) as (M & HM & HinM & HleM).
    destruct (Num_min_fin qs Hqne) as (m & Hm & Hinm & Hlem).
    exists qs, m. split; [assumption|].
    intros p Hp. split; [now apply Hlem|].
    assert (Hspread : ~ (50 < M - m)%Q).
    { intros Hs.
      assert (modeOf h data = true)
        by (apply (modeOf_spec h data qs M m Hqs HM Hm); now left).
      congruence. }
    specialize (HleM p Hp). lra.
Qed.

Section Extent.
Variables (B lo : Q) (ps : list Q).
Hypothesis B_ge_10 : (10 <= B)%Q.
Hypothesis ps_range : forall p, In p ps -> (lo <= p)%Q /\ (p <= lo + 50)%Q.


End Extent.





(** With two boreholes at 10 and 8 the chart is absolute. *)
Example mode_absolute_10_8 :
  let h : heap :=
    {[ 1%nat := Sample.hdr "BH-1" "10" "" ""; 2%nat := Sample.hdr "BH-2" "8" "" "" ]} in
  let data := [Sample.frag "a" 1 [] []; Sample.frag "b" 2 [] []] in
  modeOf h data = false /\ plotOf h data = [Fin 10; Fin 8].
Proof. split; vm_compute; reflexivity. Qed.

(** ** The shared vertical scale (claim C6) *)

Lemma same_refl a : (a ≃ a)%num.
Proof. destruct a; simpl; auto. reflexivity. Qed.

Lemma same_sym a b : (a ≃ b)%num -> (b ≃ a)%num.
Proof. destruct a, b; simpl; auto. intros H. now symmetry. Qed.

Lemma same_trans a b c : (a ≃ b)%num -> (b ≃ c)%num -> (a ≃ c)%num.
Proof.
  destruct a, b, c; simpl; auto; try tauto. intros H1 H2. now rewrite H1.
Qed.

#[global] Instance same_equivalence : Equivalence Num.same.
Proof.
  split.
  - intros a. apply same_refl.
  - intros a b. apply same_sym.
  - intros a b c. apply same_trans.
Qed.

Lemma add_same a a' b b' :
  (a ≃ a')%num -> (b ≃ b')%num -> (a + b ≃ a' + b')%num.
Proof.
  destruct a, a', b, b'; simpl; auto; try tauto.
  intros H1 H2. now rewrite H1, H2.
Qed.

Lemma neg_same a a' : (a ≃ a')%num -> (Num.neg a ≃ Num.neg a')%num.
Proof. destruct a, a'; simpl; auto. intros H. now rewrite H. Qed.

Lemma sub_same a a' b b' :
  (a ≃ a')%num -> (b ≃ b')%num -> (a - b ≃ a' - b')%num.
Proof. intros H1 H2. apply add_same; [assumption|now apply neg_same]. Qed.

Lemma scaleInf_same pos x y : (x == y)%Q -> Num.scaleInf pos x = Num.scaleInf pos y.
Proof.
  intros H. unfold Num.scaleInf.
  assert (E : (0 ?= x)%Q = (0 ?= y)%Q) by now rewrite H.
  now rewrite E.
Qed.

Lemma mul_same a a' b b' :
  (a ≃ a')%num -> (b ≃ b')%num -> (a * b ≃ a' * b')%num.
Proof.
  destruct a, a', b, b'; simpl; auto; try tauto.
  - intros _ H. rewrite (scaleInf_same _ _ _ H). apply same_refl.
  - intros H _. rewrite (scaleInf_same _ _ _ H). apply same_refl.
  - intros H1 H2. now rewrite H1, H2.
  - intros H _. rewrite (scaleInf_same _ _ _ H). apply same_refl.
  - intros _ H. rewrite (scaleInf_same _ _ _ H). apply same_refl.
Qed.

Lemma getY_same top e e' : (e ≃ e')%num -> (getY top e ≃ getY top e')%num.
Proof.
  intros H. unfold getY.
  apply add_same; [apply same_refl|].
  apply mul_same; [|apply same_refl].
  apply sub_same; [apply same_refl|assumption].
Qed.

#[global] Instance getY_proper top : Proper (Num.same ==> Num.same) (getY top).
Proof. intros e e' H. now apply getY_same. Qed.




(** ** No borehole at all (claim C9) *)

(** C9: without any borehole the component throws: the grid and the
    columns are empty, the extents are infinite, and the title block reads
    the header of [data[0]], which is undefined. *)
Theorem C9_no_borehole_throws (h : heap) :
  SoilProfileChart [] h = Throw TypeError.
Proof. reflexivity. Qed.

(** ** What the engines leave behind (claim C10) *)

(** C10: both engines change the records they are given.  The merge
    writes into the header object of the first fragment of a borehole,
    which the record of [mergedMap] shares; the chart sorts the SPT array
    of every record in place. *)
Theorem C10_inputs_are_changed :
  (let h : heap :=
     {[ 1%nat := Sample.hdr "A" "0.00" "" "2024-01-01";
        2%nat := Sample.hdr "A" "12.5" "Harbour" "2024-02-02" ]} in
   let first := Sample.frag "f1" 1 [] [] in
   let second := Sample.frag "f2" 2 [] [] in
   exists out h',
     mergeBoreholes Sample.primary [first; second] h = Normal (out, h')
     /\ h !! header first = Some (Sample.hdr "A" "0.00" "" "2024-01-01")
     /\ h' !! header first
        = Some (Sample.hdr "A" "12.5" "Harbour" "2024-01-01"))
  /\ (let h : heap := {[ 1%nat := Sample.hdr "A" "10" "" "" ]} in
      let bh :=
        Sample.frag "f1" 1 [] [Sample.test "s1" 6 20; Sample.test "s2" 3 12] in
      exists lm data' h',
        SoilProfileChart [bh] h = Normal ((lm, data'), h')
        /\ List.map spt data'
           = [[Sample.test "s2" 3 12; Sample.test "s1" 6 20]]
        /\ List.map spt data' <> List.map spt [bh]).
Proof.
  split.
  - simpl. eexists _, _. split; [vm_compute; reflexivity|].
    split; reflexivity.
  - simpl. eexists _, _, _. split; [vm_compute; reflexivity|].
    split; [reflexivity|discriminate].
Qed.

(** ** The geometry of a render *)

Lemma Array_from_length_bound n (h : heap) indices h' :
  Array_from_length n h = Normal (indices, h') ->
  (toLength n <= 2 ^ 32 - 1)%Z.
Proof.
  unfold Array_from_length.
  destruct (2 ^ 32 - 1 <? toLength n)%Z eqn:E; [discriminate|].
  intros _. now apply Z.ltb_ge in E.
Qed.

(** The fields of the layout that [SoilProfileChart_inv] leaves out. *)
Lemma SoilProfileChart_canvas data (h : heap) lm data' h' :
  SoilProfileChart data h = Normal ((lm, data'), h') ->
  bottomElevation lm = bottomOf h data
  /\ chartHeight lm = ((topOf h data - bottomOf h data) * PIXELS_PER_METER)%num
  /\ canvasWidth lm = canvasWidthOf data
  /\ canvasHeight lm = (chartHeight lm + MARGIN_TOP + MARGIN_BOTTOM)%num
  /\ legendX lm = (canvasWidth lm - Fin 450)%num
  /\ legendY lm = (canvasHeight lm - Fin 180)%num
  /\ (toLength (Num.ceil (topOf h data - bottomOf h data) + Fin 1)%num
      <= 2 ^ 32 - 1)%Z
  /\ exists first rest, data = first :: rest
       /\ legendProject lm = projectName (headerOf h first).
Proof.
  intros Hrun. unfold SoilProfileChart in Hrun.
  apply bind_inv in Hrun as (elevations & h1 & Helev & Hrun).
  pose proof (mapM_headerElevation_inv _ _ _ _ Helev) as Hok.
  rewrite (mapM_headerElevation h data Hok) in Helev.
  injection Helev as <- <-.
  fold (modeOf h data) in Hrun. fold (plotOf h data) in Hrun.
  pose proof (eq_refl (topOf h data)) as Htop.
  pose proof (eq_refl (bottomOf h data)) as Hbot.
  unfold topOf at 2 in Htop. unfold bottomOf at 2 in Hbot.
  destruct (extentFrom (plotOf h data) 0 data (NegInfinity, Infinity))
    as [maxAbs minAbs] eqn:Hext.
  simpl in Htop, Hbot. rewrite <- Htop, <- Hbot in Hrun.
  apply bind_inv in Hrun as (indices & h2 & Hidx & Hrun).
  pose proof (Array_from_length_bound _ _ _ _ Hidx) as Hbound.
  apply Array_from_length_inv in Hidx as [-> ->].
  apply bind_inv in Hrun as (cols & h3 & Hcols & Hrun).
  rewrite (mapiMFrom_column _ _ h data 0 Hok) in Hcols.
  injection Hcols as <- <-.
  rewrite map_mapiFrom in Hrun. simpl in Hrun.
  rewrite mapiFrom_const in Hrun.
  destruct data as [|first rest]; [discriminate|].
  simpl in Hrun.
  apply bind_inv in Hrun as (hd & h4 & Hd & Hrun).
  unfold deref in Hd. simpl in Hd.
  destruct (h !! header first) eqn:Hfirst; [|discriminate].
  injection Hd as <- <-. injection Hrun as <- <- <-.
  cbn [bottomElevation chartHeight canvasWidth canvasHeight legendX legendY
       legendProject].
  repeat (split; [reflexivity|]). split; [exact Hbound|].
  exists first, rest. split; [reflexivity|].
  unfold headerOf. now rewrite Hfirst.
Qed.

(** The deepest thing of a borehole is a finite depth of at least 10 that
    no layer bottom and no SPT record exceeds. *)
Lemma maxDepth_bound bh :
  exists d, maxDepth bh = Fin d /\ (10 <= d)%Q
            /\ (forall l, In l (layers bh) -> (depthTo l <= d)%Q)
            /\ (forall s, In s (spt bh) -> (depth s <= d)%Q).
Proof.
  unfold maxDepth.
  replace (List.map (fun l => Fin (depthTo l)) (layers bh)
           ++ List.map (fun s => Fin (depth s)) (spt bh) ++ [Fin 10])
    with (List.map Fin (List.map depthTo (layers bh)
                        ++ List.map depth (spt bh) ++ [10%Q]))
    by now rewrite !List.map_app, !List.map_map.
  destruct (Num_max_fin (List.map depthTo (layers bh)
                         ++ List.map depth (spt bh) ++ [10%Q]))
    as (d & Hd & Hin & Hall).
  { intros E. apply app_eq_nil in E as [_ E].
    apply app_eq_nil in E as [_ E]. discriminate. }
  exists d. split; [assumption|]. split; [|split].
  - apply Hall. rewrite !in_app_iff. right. right. now left.
  - intros l Hl. apply Hall. rewrite in_app_iff. left.
    apply in_map_iff. eauto.
  - intros s Hs. apply Hall. rewrite !in_app_iff. right. left.
    apply in_map_iff. eauto.
Qed.

Lemma lookup_In {A} (l : list A) i x : l !! i = Some x -> In x l.
Proof.
  intros H. apply list_elem_of_In. eapply list_elem_of_lookup_2. eassumption.
Qed.

(** The loop over the boreholes keeps the highest surface and the lowest
    bottom: every surface is below the first, every bottom above the
    second. *)
Lemma extentFrom_encloses ps data : forall idx a b,
  (List.length data + idx = List.length ps)%nat ->
  exists a' b',
    extentFrom (List.map Fin ps) idx data (Fin a, Fin b) = (Fin a', Fin b')
    /\ (a <= a')%Q /\ (b' <= b)%Q /\ (a' = a \/ In a' ps)
    /\ forall k bh p, data !! k = Some bh -> ps !! (idx + k)%nat = Some p ->
         (p <= a')%Q
         /\ exists d, maxDepth bh = Fin d /\ (b' <= p - d)%Q.
Proof.
  induction data as [|bh r IH]; intros idx a b Hlen.
  - exists a, b. split; [reflexivity|]. split; [lra|]. split; [lra|].
    split; [now left|].
    intros k bh p Hk. destruct k; discriminate.
  - simpl in Hlen. cbn [extentFrom].
    destruct (ps !! idx) as [p|] eqn:Ep;
      [|apply lookup_ge_None in Ep; lia].
    rewrite (at_map_Fin ps idx p Ep).
    destruct (maxDepth_bound bh) as (d & Hd & _).
    rewrite Hd.
    assert (Hstep : exists a1 b1,
      ((if (Fin p >? fst (Fin a, Fin b))%num then Fin p else fst (Fin a, Fin b)),
       (if ((Fin p - Fin d) <? snd (Fin a, Fin b))%num then (Fin p - Fin d)%num
        else snd (Fin a, Fin b))) = (Fin a1, Fin b1)
      /\ (a <= a1)%Q /\ (p <= a1)%Q /\ (b1 <= b)%Q /\ (b1 <= p - d)%Q
      /\ (a1 = a \/ a1 = p)).
    { simpl.
      destruct (a ?= p)%Q eqn:E1;
        [apply Qeq_alt in E1|apply Qlt_alt in E1|apply Qgt_alt in E1];
        (destruct (p + - d ?= b)%Q eqn:E2;
         [apply Qeq_alt in E2|apply Qlt_alt in E2|apply Qgt_alt in E2]);
        eexists _, _; (split; [reflexivity|]);
        (repeat (split; [lra|])); auto. }
    destruct Hstep as (a1 & b1 & -> & Ha1 & Hpa & Hb1 & Hpb & Hmem).
    assert (Hpin : In p ps) by (eapply lookup_In; eassumption).
    destruct (IH (S idx) a1 b1 ltac:(lia))
      as (a' & b' & -> & Ha' & Hb' & Hin & Hall).
    exists a', b'. split; [reflexivity|]. split; [lra|]. split; [lra|].
    split; [destruct Hin as [->|Hin]; [destruct Hmem as [->| ->]|]; auto|].
    intros k bh' p' Hk Hp'. destruct k as [|k].
    + simpl in Hk. injection Hk as <-.
      rewrite Nat.add_0_r in Hp'. rewrite Ep in Hp'. injection Hp' as <-.
      split; [lra|]. exists d. split; [assumption|lra].
    + simpl in Hk. apply (Hall k bh' p' Hk).
      now replace (S idx + k)%nat with (idx + S k)%nat by lia.
Qed.

Lemma extentFrom_encloses_all ps data :
  data <> [] ->
  List.length data = List.length ps ->
  exists a b,
    extentFrom (List.map Fin ps) 0 data (NegInfinity, Infinity) = (Fin a, Fin b)
    /\ In a ps
    /\ forall k bh p, data !! k = Some bh -> ps !! k = Some p ->
         (p <= a)%Q /\ exists d, maxDepth bh = Fin d /\ (b <= p - d)%Q.
Proof.
  destruct data as [|bh r]; [congruence|]. intros _ Hlen.
  simpl in Hlen. cbn [extentFrom].
  destruct (ps !! 0%nat) as [p|] eqn:Ep;
    [|apply lookup_ge_None in Ep; lia].
  rewrite (at_map_Fin ps 0 p Ep).
  destruct (maxDepth_bound bh) as (d & Hd & _). rewrite Hd.
  cbn [fst snd Num.gtb Num.ltb Num.sub Num.add Num.neg].
  destruct (extentFrom_encloses ps r 1 p (p + - d) ltac:(lia))
    as (a & b & -> & Ha & Hb & Hin & Hall).
  exists a, b. split; [reflexivity|].
  split; [destruct Hin as [->|Hin]; [eapply lookup_In; eassumption|assumption]|].
  intros k bh' p' Hk Hp'. destruct k as [|k].
  - simpl in Hk. injection Hk as <-. rewrite Ep in Hp'. injection Hp' as <-.
    split; [lra|]. exists d. split; [assumption|lra].
  - simpl in Hk. apply (Hall k bh' p' Hk). exact Hp'.
Qed.

(** What a render that returns has measured: finite surfaces, the
    highest of them [a], a bottom [b] that is below the deepest thing of
    every borehole, and the two rounded away from the drawing by one
    unit. *)
Lemma SoilProfileChart_extent data (h : heap) lm data' h' :
  SoilProfileChart data h = Normal ((lm, data'), h') ->
  exists ps a b,
    plotOf h data = List.map Fin ps
    /\ List.length ps = List.length data
    /\ In a ps
    /\ topElevation lm = Fin (inject_Z (Qceiling a) + 1)
    /\ bottomElevation lm = Fin (inject_Z (Qfloor b) + - (1))
    /\ chartHeight lm
       = Fin ((inject_Z (Qceiling a) + 1 + - (inject_Z (Qfloor b) + - (1))) * 70)
    /\ forall k bh p, data !! k = Some bh -> ps !! k = Some p ->
         (p <= a)%Q /\ exists d, maxDepth bh = Fin d /\ (b <= p - d)%Q.
Proof.
  intros Hrun.
  destruct (SoilProfileChart_inv _ _ _ _ _ Hrun)
    as (_ & Hne & _ & _ & Htop & _ & _ & _).
  destruct (SoilProfileChart_canvas _ _ _ _ _ Hrun)
    as (Hbot & Hheight & _).
  destruct (plotOf_fin h data Hne) as (ps & lo & Hps & _).
  assert (Hlen : List.length data = List.length ps).
  { rewrite <- (plotOf_length h data), Hps. apply List.length_map. }
  destruct (extentFrom_encloses_all ps data Hne Hlen)
    as (a & b & Hext & Hin & Hall).
  exists ps, a, b.
  split; [assumption|]. split; [now symmetry|]. split; [assumption|].
  assert (Ht : topOf h data = Fin (inject_Z (Qceiling a) + 1)).
  { unfold topOf. rewrite Hps, Hext. reflexivity. }
  assert (Hb : bottomOf h data = Fin (inject_Z (Qfloor b) + - (1))).
  { unfold bottomOf. rewrite Hps, Hext. reflexivity. }
  split; [now rewrite Htop|]. split; [now rewrite Hbot|].
  split; [rewrite Hheight, Ht, Hb; reflexivity|].
  exact Hall.
Qed.

(** The surface of the column at a place of the list. *)
Lemma plot_lookup (h : heap) data ps idx (bh : ExtractedData) :
  plotOf h data = List.map Fin ps ->
  data !! idx = Some bh -> exists p, ps !! idx = Some p.
Proof.
  intros Hps Hidx. apply lookup_lt_is_Some.
  assert (List.length (plotOf h data) = List.length ps)
    by (rewrite Hps; apply List.length_map).
  rewrite <- H, plotOf_length. apply lookup_lt_is_Some. eauto.
Qed.

(** The column of the borehole at a place of the list. *)
Lemma In_mapi_lookup {A B} (f : A -> nat -> B) l y :
  In y (mapi f l) -> exists x idx, l !! idx = Some x /\ y = f x idx.
Proof.
  unfold mapi.
  assert (G : forall i, In y (mapiFrom f i l) ->
                exists x idx, l !! idx = Some x /\ y = f x (i + idx)%nat).
  { induction l as [|x r IH]; simpl; intros i; [tauto|].
    intros [<-|H].
    - exists x, 0%nat. now rewrite Nat.add_0_r.
    - destruct (IH _ H) as (x' & idx & Hin & ->).
      exists x', (S idx). split; [assumption|]. f_equal. lia. }
  intros H. apply (G 0%nat H).
Qed.

(** What a column of a render that returns is made of. *)
Lemma SoilProfileChart_column data (h : heap) lm data' h' c :
  SoilProfileChart data h = Normal ((lm, data'), h') ->
  In c (columns lm) ->
  exists bh idx, data !! idx = Some bh
    /\ c = fst (columnFor (topElevation lm) (plotOf h data) (headerOf h bh)
                  bh idx).
Proof.
  intros Hrun Hc.
  destruct (SoilProfileChart_inv _ _ _ _ _ Hrun)
    as (_ & _ & _ & _ & Htop & _ & Hcols & _).
  rewrite Hcols in Hc. apply In_mapi_lookup in Hc as (bh & idx & Hidx & ->).
  exists bh, idx. now rewrite Htop.
Qed.


Lemma lookup_mapiFrom {A B} (f : A -> nat -> B) l : forall i k,
  mapiFrom f i l !! k = (fun x => f x (i + k)%nat) <$> l !! k.
Proof.
  induction l as [|x r IH]; intros i k; [now destruct k|].
  destruct k as [|k]; simpl.
  - now rewrite Nat.add_0_r.
  - rewrite IH. now replace (S i + k)%nat with (i + S k)%nat by lia.
Qed.

Lemma lookup_mapi {A B} (f : A -> nat -> B) l k :
  mapi f l !! k = (fun x => f x k) <$> l !! k.
Proof. unfold mapi. now rewrite lookup_mapiFrom. Qed.

(** The column at a place of a render that returns. *)
Lemma SoilProfileChart_column_at data (h : heap) lm data' h' idx c :
  SoilProfileChart data h = Normal ((lm, data'), h') ->
  columns lm !! idx = Some c ->
  exists bh, data !! idx = Some bh
    /\ c = fst (columnFor (topElevation lm) (plotOf h data) (headerOf h bh)
                  bh idx).
Proof.
  intros Hrun Hc.
  destruct (SoilProfileChart_inv _ _ _ _ _ Hrun)
    as (_ & _ & _ & _ & Htop & _ & Hcols & _).
  rewrite Hcols, lookup_mapi in Hc.
  destruct (data !! idx) as [bh|]; [|discriminate].
  injection Hc as <-. exists bh. now rewrite Htop.
Qed.

Lemma length_mapiFrom {A B} (f : A -> nat -> B) l : forall i,
  List.length (mapiFrom f i l) = List.length l.
Proof.
  induction l as [|x r IH]; simpl; intros i; [reflexivity|]. now rewrite IH.
Qed.

Lemma columns_length data (h : heap) lm data' h' :
  SoilProfileChart data h = Normal ((lm, data'), h') ->
  List.length (columns lm) = List.length data.
Proof.
  intros Hrun.
  destruct (SoilProfileChart_inv _ _ _ _ _ Hrun)
    as (_ & _ & _ & _ & _ & _ & Hcols & _).
  rewrite Hcols. apply length_mapiFrom.
Qed.



(** X4: the columns stand side by side: column [idx] starts at
    [130 + 470 idx], so two neighbours are 50 pixels apart; its five
    sub-columns (depth 30, section 50, parameters 100, description 140,
    SPT 100) tile its 420 pixels; and the canvas, [210 + 470 n] wide for
    [n] boreholes, leaves 130 pixels to the right of the last column. *)
Theorem columns_side_by_side data (h : heap) lm data' h' :
  SoilProfileChart data h = Normal ((lm, data'), h') ->
  exists W, canvasWidth lm = Fin W
    /\ (W == 210 + 470 * inject_Z (Z.of_nat (List.length data)))%Q
    /\ List.length (columns lm) = List.length data
    /\ forall idx c, columns lm !! idx = Some c ->
         exists x, startX c = Fin x
           /\ (x == 130 + 470 * inject_Z (Z.of_nat idx))%Q
           /\ (forall b, In b (columnLayers c) ->
                 (boxX b ≃ Fin (x + 30))%num
                 /\ (boxParamsX b ≃ Fin (x + 30 + 50))%num
                 /\ (boxDescX b ≃ Fin (x + 30 + 50 + 100))%num)
           /\ (sptX c ≃ Fin (x + 30 + 50 + 100 + 140))%num
           /\ (x + 30 + 50 + 100 + 140 + 100 == x + 420)%Q
           /\ (x + 420 <= W - 130)%Q.
Proof.
  intros Hrun.
  destruct (SoilProfileChart_canvas _ _ _ _ _ Hrun)
    as (_ & _ & HW & _).
  pose proof (columns_length _ _ _ _ _ Hrun) as Hlen.
  eexists. split; [rewrite HW; reflexivity|].
  split; [simpl; ring|]. split; [assumption|].
  intros idx c Hc.
  assert (Hidx : (idx < List.length data)%nat).
  { rewrite <- Hlen. apply lookup_lt_is_Some. eauto. }
  destruct (SoilProfileChart_column_at _ _ _ _ _ _ _ Hrun Hc)
    as (bh & Hbh & ->).
  simpl. eexists. split; [reflexivity|]. split; [ring|].
  split; [|split; [|split]].
  - intros b Hb. apply in_map_iff in Hb as (l & <- & _). simpl.
    repeat split; ring.
  - ring.
  - ring.
  - apply Nat2Z.inj_lt in Hidx. apply Z.le_succ_l in Hidx.
    rewrite Zle_Qle in Hidx. unfold Z.succ in Hidx.
    rewrite inject_Z_plus in Hidx. change (inject_Z 1) with 1%Q in Hidx.
    lra.
Qed.






Lemma map_const_inv {A} (ps : list Q) (l : list A) q p :
  List.map Fin ps = List.map (fun _ => Fin q) l -> In p ps -> p = q.
Proof.
  revert l. induction ps as [|x r IH]; intros l E Hin; [destruct Hin|].
  destruct l as [|y l]; [discriminate|]. simpl in E.
  injection E as E1 E2. destruct Hin as [<-|Hin]; [assumption|eauto].
Qed.

(** X6: in relative mode every borehole starts at elevation 0 and the top
    of the frame is at elevation 1, so the grid line labelled [-i m] lies
    at the depth [i - 1]: the ground surface is on the line labelled
    [-1m], and a layer boundary at the depth [d] is on the line labelled
    [-(d + 1)m]. *)
Theorem relative_grid_labels data (h : heap) lm data' h' :
  SoilProfileChart data h = Normal ((lm, data'), h') ->
  relativeMode lm = true ->
  topElevation lm = Fin 1
  /\ (forall c, In c (columns lm) -> surfElev c = Fin 0)
  /\ forall g, In g (grid lm) ->
       gridLabel g = DepthLabel (gridIndex g)
       /\ (gridElev g ≃ Fin (1 - inject_Z (Z.of_nat (gridIndex g))))%num
       /\ forall c b, In c (columns lm) -> In b (columnLayers c) ->
            ((depthFrom (boxLayer b) + 1
              == inject_Z (Z.of_nat (gridIndex g)))%Q ->
             (boxYTop b ≃ gridY g)%num)
            /\ ((depthTo (boxLayer b) + 1
                 == inject_Z (Z.of_nat (gridIndex g)))%Q ->
                (boxYBot b ≃ gridY g)%num).
Proof.
  intros Hrun Hrel.
  destruct (SoilProfileChart_inv _ _ _ _ _ Hrun)
    as (_ & Hne & _ & Hmode & Htop & Hgrid & _).
  destruct (SoilProfileChart_extent _ _ _ _ _ Hrun)
    as (ps & a & lo & Hps & Hlen & Hin & HT & _).
  rewrite Hrel in Hmode.
  pose proof (plotOf_cases h data) as Hplot.
  rewrite <- Hmode, Hps in Hplot.
  assert (Ha : a = 0%Q) by (eapply map_const_inv; eassumption).
  subst a.
  assert (Htop1 : topElevation lm = Fin 1) by (rewrite HT; reflexivity).
  assert (Hsurf : forall c, In c (columns lm) -> surfElev c = Fin 0).
  { intros c Hc.
    destruct (SoilProfileChart_column _ _ _ _ _ _ Hrun Hc)
      as (bh & idx & Hidx & ->).
    destruct (plot_lookup h data ps idx bh Hps Hidx) as [p Hp].
    simpl. rewrite Hps, (at_map_Fin ps idx p Hp). f_equal.
    eapply map_const_inv; [eassumption|]. eapply lookup_In; eassumption. }
  split; [assumption|]. split; [assumption|].
  intros g Hg. rewrite Hgrid in Hg.
  apply in_map_iff in Hg as (i & <- & _).
  cbn [gridIndex gridElev gridY gridLabel]. rewrite <- Hmode, <- Htop, Htop1.
  split; [reflexivity|]. split; [simpl; reflexivity|].
  intros c b Hc Hb.
  pose proof (Hsurf c Hc) as Hs.
  destruct (SoilProfileChart_column _ _ _ _ _ _ Hrun Hc)
    as (bh & idx & Hidx & ->).
  cbn [fst columnFor columnLayers surfElev] in Hb, Hs.
  apply in_map_iff in Hb as (l & <- & _).
  cbn [boxLayer boxYTop boxYBot layerBox]. rewrite Hs, Htop1.
  split; intros E; simpl; rewrite <- E; ring.
Qed.

(** X7: the SPT polyline of a column visits the records of its borehole
    in ascending order of depth, each record once and records of one
    depth in the order of the record list, and the circles are drawn at
    the vertices of the polyline, in the same order. *)
Theorem spt_polyline_by_depth data (h : heap) lm data' h' :
  SoilProfileChart data h = Normal ((lm, data'), h') ->
  forall idx c bh, columns lm !! idx = Some c -> data !! idx = Some bh ->
    let visited := List.map pointRecord (sptPolyline c) in
    sptCircles c = sptPolyline c
    /\ StronglySorted (leNum depth) visited
    /\ Permutation visited (spt bh)
    /\ forall d, List.filter (inClass depth d) visited
                 = List.filter (inClass depth d) (spt bh).
Proof.
  intros Hrun idx c bh Hc Hbh.
  destruct (SoilProfileChart_column_at _ _ _ _ _ _ _ Hrun Hc)
    as (bh' & Hbh' & ->).
  rewrite Hbh in Hbh'. injection Hbh' as <-.
  cbn [fst columnFor sptCircles sptPolyline set_spt spt].
  rewrite List.map_map. cbn [pointRecord sptPoint]. rewrite List.map_id.
  split; [reflexivity|].
  split; [apply (sortByNum_sorted depth)|].
  split; [apply Array_sort_perm|].
  intros d. apply (sortByNum_stable depth).
  intros x y Hx Hy. unfold inClass in *.
  apply Qeq_bool_iff in Hx, Hy. now rewrite Hx, Hy.
Qed.


(** ** The review tables (components/ValidationTables.tsx) *)

Lemma alloc_spec hd (h : heap) :
  exists l, alloc hd h = Normal (l, <[l := hd]> h) /\ h !! l = None.
Proof.
  unfold alloc. eexists. split; [reflexivity|].
  apply not_elem_of_dom, is_fresh.
Qed.

Lemma alloc_inv hd (h : heap) l h' :
  alloc hd h = Normal (l, h') -> h !! l = None /\ h' = <[l := hd]> h.
Proof.
  destruct (alloc_spec hd h) as (l0 & E & Hl). rewrite E.
  now intros [= <- <-].
Qed.

Lemma deref_spec (h : heap) l hd :
  h !! l = Some hd -> deref l h = Normal (hd, h).
Proof. intros E. unfold deref. now rewrite E. Qed.

Lemma deref_inv (h : heap) l hd h' :
  deref l h = Normal (hd, h') -> h' = h /\ h !! l = Some hd.
Proof.
  unfold deref. destruct (h !! l); [|discriminate]. now intros [= <- <-].
Qed.

(** The decimal form of a number determines the number. *)
Lemma decimal_inj m n : decimal m = decimal n -> m = n.
Proof.
  unfold decimal. intros E.
  assert (Hnil : forall k, N.to_uint k <> Decimal.Nil).
  { intros [|p]; [discriminate|apply DecimalPos.Unsigned.to_uint_nonnil]. }
  apply (f_equal DecimalString.NilZero.uint_of_string) in E.
  rewrite !DecimalString.NilZero.usu in E by apply Hnil.
  injection E as E. now apply DecimalN.Unsigned.to_uint_inj.
Qed.

Lemma withNewHeader_spec field value (h0 h : heap) item :
  h0 ⊆ h -> is_Some (h0 !! header item) ->
  exists l,
    withNewHeader field value item h
    = Normal (set_header l item,
              <[l := assignHeader field value (headerOf h0 item)]> h)
    /\ h !! l = None.
Proof.
  intros Hsub [hd Hhd].
  unfold withNewHeader.
  erewrite bind_Normal
    by (apply deref_spec; eapply lookup_weaken; eassumption).
  destruct (alloc_spec (assignHeader field value hd) h) as (l & E & Hl).
  erewrite bind_Normal by exact E.
  exists l. unfold ret, headerOf. now rewrite Hhd.
Qed.

Lemma mapM_withNewHeader field value (h0 : heap) items : forall h : heap,
  h0 ⊆ h ->
  (forall d, In d items -> is_Some (h0 !! header d)) ->
  exists out h',
    mapM (withNewHeader field value) items h = Normal (out, h')
    /\ h ⊆ h'
    /\ Forall2 (fun d d' =>
                  d' = set_header (header d') d
                  /\ h !! header d' = None
                  /\ h' !! header d'
                     = Some (assignHeader field value (headerOf h0 d)))
         items out
    /\ NoDup (List.map header out).
Proof.
  induction items as [|d r IH]; intros h Hsub Hok.
  - exists [], h. split; [reflexivity|]. split; [reflexivity|].
    split; constructor.
  - destruct (withNewHeader_spec field value h0 h d Hsub
                (Hok d (or_introl eq_refl))) as (l & E & Hl).
    set (h1 := <[l := assignHeader field value (headerOf h0 d)]> h) in *.
    assert (Hsub1 : h ⊆ h1) by (apply insert_subseteq; assumption).
    destruct (IH h1 ltac:(etrans; eassumption)
                ltac:(intros; apply Hok; now right))
      as (out & h' & Hrun & Hsub' & Hall & Hnd).
    exists (set_header l d :: out), h'.
    split.
    { cbn [mapM]. erewrite bind_Normal by exact E.
      erewrite bind_Normal by exact Hrun. reflexivity. }
    split; [etrans; eassumption|].
    assert (Hfresh : forall d', In d' out -> h1 !! header d' = None).
    { clear -Hall.
      induction Hall as [|x y ? ? (_ & Hn & _) _ IH]; intros d' Hd';
        [destruct Hd'|]. destruct Hd' as [<-|Hd']; auto. }
    split.
    + constructor.
      * split; [reflexivity|]. split; [exact Hl|].
        eapply lookup_weaken; [|exact Hsub']. unfold h1. simpl.
        apply lookup_insert_eq.
      * eapply Forall2_impl; [exact Hall|].
        intros x y (Hy & Hn & Hs). split; [assumption|].
        split; [|assumption].
        destruct (h !! header y) eqn:E'; [|reflexivity].
        rewrite (lookup_weaken _ _ _ _ E' Hsub1) in Hn. discriminate.
    + simpl. constructor; [|assumption].
      intros Hin. apply list_elem_of_In, in_map_iff in Hin as (d' & Hd' & Hin).
      specialize (Hfresh d' Hin). rewrite Hd' in Hfresh.
      unfold h1 in Hfresh. rewrite lookup_insert_eq in Hfresh. discriminate.
Qed.

Lemma getCurrentData_spec dataList activeTab (h : heap) :
  getCurrentData dataList activeTab h
  = match dataList !! activeTab with
    | Some d => Normal (d, h)
    | None => Throw TypeError
    end.
Proof. unfold getCurrentData. now destruct (dataList !! activeTab). Qed.

(** X9: a change of [projectName] or of [client] reaches every borehole
    of the list, not only the one of the open tab: every record gets a
    header object of its own, new in the store, that is its old header
    with the field changed; the identifier, the layers and the SPT
    records of every record stay, and no object that was in the store is
    written. *)
Theorem project_wide_header_change dataList activeTab field value (h : heap) :
  isProjectWide field = true ->
  (activeTab < List.length dataList)%nat ->
  (forall d, In d dataList -> is_Some (h !! header d)) ->
  exists out h',
    handleHeaderChange dataList activeTab field value h = Normal (out, h')
    /\ h ⊆ h'
    /\ List.length out = List.length dataList
    /\ (forall i d, dataList !! i = Some d ->
          exists d', out !! i = Some d'
            /\ internalId d' = internalId d
            /\ layers d' = layers d /\ spt d' = spt d
            /\ h !! header d' = None
            /\ h' !! header d'
               = Some (assignHeader field value (headerOf h d)))
    /\ NoDup (List.map header out).
Proof.
  intros Hwide Hlt Hok.
  destruct (lookup_lt_is_Some_2 dataList activeTab Hlt) as [cur Hcur].
  destruct (Hok cur (lookup_In _ _ _ Hcur)) as [hd Hhd].
  unfold handleHeaderChange.
  erewrite bind_Normal by (rewrite getCurrentData_spec, Hcur; reflexivity).
  erewrite bind_Normal by (apply deref_spec; eassumption).
  destruct (alloc_spec (assignHeader field value hd) h) as (l & E & Hl).
  erewrite bind_Normal by exact E.
  rewrite Hwide.
  set (h1 := <[l := assignHeader field value hd]> h).
  assert (Hsub1 : h ⊆ h1) by (apply insert_subseteq; assumption).
  destruct (mapM_withNewHeader field value h dataList h1 Hsub1 Hok)
    as (out & h' & Hrun & Hsub' & Hall & Hnd).
  exists out, h'. split; [exact Hrun|].
  split; [etrans; eassumption|].
  split; [symmetry; eapply Forall2_length; eassumption|].
  split; [|assumption].
  intros i d Hd.
  destruct (Forall2_lookup_l _ _ _ _ _ Hall Hd) as (d' & Hd' & Hset & Hn & Hs).
  exists d'. split; [assumption|].
  rewrite Hset. cbn [set_header internalId layers spt header].
  repeat (split; [reflexivity|]).
  split; [|assumption].
  destruct (h !! header d') eqn:E'; [|reflexivity].
  rewrite (lookup_weaken _ _ _ _ E' Hsub1) in Hn. discriminate.
Qed.


(** X10: a change of any other header field touches the borehole of the
    open tab only: its record gets a new header object, and every other
    record of the list is handed on as it is and reads the header it read
    before, also when it shares its header object with the record that
    was edited. *)
Theorem single_header_change dataList activeTab field value (h : heap) cur :
  isProjectWide field = false ->
  dataList !! activeTab = Some cur ->
  (forall d, In d dataList -> is_Some (h !! header d)) ->
  exists out h' cur',
    handleHeaderChange dataList activeTab field value h = Normal (out, h')
    /\ h ⊆ h'
    /\ List.length out = List.length dataList
    /\ out !! activeTab = Some cur'
    /\ internalId cur' = internalId cur
    /\ layers cur' = layers cur /\ spt cur' = spt cur
    /\ h !! header cur' = None
    /\ h' !! header cur' = Some (assignHeader field value (headerOf h cur))
    /\ forall i d, i <> activeTab -> dataList !! i = Some d ->
         out !! i = Some d /\ h' !! header d = h !! header d.
Proof.
  intros Hwide Hcur Hok.
  destruct (Hok cur (lookup_In _ _ _ Hcur)) as [hd Hhd].
  unfold handleHeaderChange.
  erewrite bind_Normal by (rewrite getCurrentData_spec, Hcur; reflexivity).
  erewrite bind_Normal by (apply deref_spec; eassumption).
  destruct (alloc_spec (assignHeader field value hd) h) as (l & E & Hl).
  erewrite bind_Normal by exact E.
  rewrite Hwide.
  eexists _, _, (set_header l cur). split; [reflexivity|].
  split; [apply insert_subseteq; assumption|].
  split; [apply length_insert|].
  split; [apply list_lookup_insert_eq; eapply lookup_lt_Some; eassumption|].
  cbn [set_header internalId layers spt header].
  repeat (split; [reflexivity|]). split; [assumption|].
  split; [unfold headerOf; rewrite Hhd; apply lookup_insert_eq|].
  intros i d Hi Hd.
  split; [rewrite list_lookup_insert_ne by congruence; assumption|].
  destruct (Hok d (lookup_In _ _ _ Hd)) as [hd' Hhd'].
  rewrite lookup_insert_ne; [reflexivity|]. congruence.
Qed.

Lemma set_layers_same d : set_layers (layers d) d = d.
Proof. now destruct d. Qed.

Lemma set_spt_same d : set_spt (spt d) d = d.
Proof. now destruct d. Qed.

Lemma set_spt_twice v w d : set_spt v (set_spt w d) = set_spt v d.
Proof. reflexivity. Qed.

Lemma spt_set_spt v d : spt (set_spt v d) = v.
Proof. reflexivity. Qed.

Lemma filter_other_ids (ss : list SPTRecord) id :
  (forall s, In s ss -> sptId s <> id) ->
  List.filter (fun x => negb (String.eqb (sptId x) id)) ss = ss.
Proof.
  induction ss as [|s r IH]; intros H; simpl; [reflexivity|].
  destruct (String.eqb_spec (sptId s) id) as [E|_]; simpl.
  - exfalso. apply (H s); [now left|assumption].
  - f_equal. apply IH. intros; apply H; now right.
Qed.

(** X11: the SPT record that the add button appends gets the identifier
    [new-] followed by the clock value, and the delete button removes
    every record with the identifier of its row.  So a record that was
    added is deleted again without a trace when no other record has its
    identifier; two records added at one value of the clock share their
    identifier, and deleting one of them deletes both; added at different
    values they are told apart, and deleting the second leaves the
    first. *)
Theorem added_spt_deleted_again dataList activeTab activeData now1 now2 :
  dataList !! activeTab = Some activeData ->
  (forall s, In s (spt activeData) -> sptId s <> ("new-" ++ decimal now1)%string) ->
  (forall s, In s (spt activeData) -> sptId s <> ("new-" ++ decimal now2)%string) ->
  let once := addSpt dataList activeTab activeData now1 in
  exists shown1,
    once !! activeTab = Some shown1
    /\ List.length (spt shown1) = S (List.length (spt activeData))
    /\ deleteSpt once activeTab shown1 ("new-" ++ decimal now1)%string = dataList
    /\ let twice := addSpt once activeTab shown1 now2 in
       exists shown2,
         twice !! activeTab = Some shown2
         /\ List.length (spt shown2) = S (S (List.length (spt activeData)))
         /\ deleteSpt twice activeTab shown2 ("new-" ++ decimal now2)%string
            = (if N.eqb now1 now2 then dataList else once).
Proof.
  intros Hcur Hfresh1 Hfresh2 once.
  assert (Hlt : (activeTab < List.length dataList)%nat)
    by (eapply lookup_lt_Some; eassumption).
  eexists. split.
  { unfold once, addSpt, updateActiveBorehole.
    apply list_lookup_insert_eq. exact Hlt. }
  split; [rewrite spt_set_spt, List.length_app; simpl; lia|].
  split.
  { unfold deleteSpt, once, addSpt, updateActiveBorehole.
    rewrite spt_set_spt, set_spt_twice.
    rewrite List.filter_app, filter_other_ids by assumption.
    cbn [List.filter sptId]. rewrite String.eqb_refl. cbn [negb].
    rewrite app_nil_r, list_insert_insert_eq, set_spt_same.
    apply list_insert_id. assumption. }
  intros twice. eexists. split.
  { unfold twice, addSpt, updateActiveBorehole.
    apply list_lookup_insert_eq. unfold once, addSpt, updateActiveBorehole.
    rewrite length_insert. exact Hlt. }
  split; [rewrite !spt_set_spt, !List.length_app; simpl; lia|].
  unfold deleteSpt, twice, once, addSpt, updateActiveBorehole.
  rewrite !spt_set_spt, !set_spt_twice.
  rewrite !List.filter_app, filter_other_ids by assumption.
  cbn [List.filter sptId]. rewrite String.eqb_refl. cbn [negb].
  rewrite !list_insert_insert_eq.
  destruct (N.eqb_spec now1 now2) as [->|Hne].
  - rewrite String.eqb_refl. cbn [negb]. rewrite !app_nil_r, set_spt_same.
    apply list_insert_id. assumption.
  - destruct (String.eqb_spec ("new-" ++ decimal now1) ("new-" ++ decimal now2))
      as [E|_].
    + exfalso. apply Hne, decimal_inj. now injection E.
    + cbn [negb]. rewrite app_nil_r. reflexivity.
Qed.

Lemma withNewHeader_inv field value (h : heap) item d' h' :
  withNewHeader field value item h = Normal (d', h') ->
  h ⊆ h' /\ internalId d' = internalId item.
Proof.
  unfold withNewHeader. intros Hrun.
  apply bind_inv in Hrun as (hd & h1 & Hd & Hrun).
  apply deref_inv in Hd as [-> _].
  apply bind_inv in Hrun as (l & h2 & Hl & Hrun).
  apply alloc_inv in Hl as [Hl ->].
  injection Hrun as <- <-. split; [|reflexivity].
  now apply insert_subseteq.
Qed.

Lemma mapM_withNewHeader_inv field value items : forall (h : heap) out h',
  mapM (withNewHeader field value) items h = Normal (out, h') ->
  h ⊆ h' /\ List.map internalId out = List.map internalId items.
Proof.
  induction items as [|d r IH]; intros h out h' Hrun.
  - injection Hrun as <- <-. split; reflexivity.
  - cbn [mapM] in Hrun.
    apply bind_inv in Hrun as (d' & h1 & Hd & Hrun).
    apply bind_inv in Hrun as (out' & h2 & Hr & Hrun).
    injection Hrun as <- <-.
    apply withNewHeader_inv in Hd as [Hsub1 Hid].
    apply IH in Hr as [Hsub2 Hids].
    split; [etrans; eassumption|]. simpl. now rewrite Hid, Hids.
Qed.

Lemma map_internalId_insert (l : list ExtractedData) i cur new :
  l !! i = Some cur -> internalId new = internalId cur ->
  List.map internalId (<[i := new]> l) = List.map internalId l.
Proof.
  intros Hcur Hid.
  change (List.map internalId) with (fmap (M := list) internalId).
  rewrite list_fmap_insert, Hid.
  apply list_insert_id. rewrite list_lookup_fmap, Hcur. reflexivity.
Qed.

Lemma handleHeaderChange_inv dataList activeTab field value (h : heap) out h' :
  handleHeaderChange dataList activeTab field value h = Normal (out, h') ->
  h ⊆ h' /\ List.map internalId out = List.map internalId dataList.
Proof.
  unfold handleHeaderChange. intros Hrun.
  apply bind_inv in Hrun as (cur & h1 & Hcur & Hrun).
  rewrite getCurrentData_spec in Hcur.
  destruct (dataList !! activeTab) as [cur'|] eqn:Hat; [|discriminate].
  injection Hcur as <- <-.
  apply bind_inv in Hrun as (hd & h1 & Hd & Hrun).
  apply deref_inv in Hd as [-> _].
  apply bind_inv in Hrun as (l & h2 & Hl & Hrun).
  apply alloc_inv in Hl as [Hl ->].
  assert (Hsub : h ⊆ <[l := assignHeader field value hd]> h)
    by now apply insert_subseteq.
  destruct (isProjectWide field).
  - apply mapM_withNewHeader_inv in Hrun as [Hsub' Hids].
    split; [etrans; eassumption|assumption].
  - injection Hrun as <- <-. split; [assumption|].
    now apply map_internalId_insert with (cur := cur').
Qed.

Lemma handleLayerChange_spec dataList activeTab id a (h : heap) cur :
  dataList !! activeTab = Some cur ->
  handleLayerChange dataList activeTab id a h
  = Normal (<[activeTab :=
               set_layers
                 (List.map (fun l => if String.eqb (layerId l) id
                                     then assignLayer a l else l)
                    (layers cur)) cur]> dataList, h).
Proof.
  intros Hcur. unfold handleLayerChange.
  erewrite bind_Normal by (rewrite getCurrentData_spec, Hcur; reflexivity).
  reflexivity.
Qed.

Lemma handleSPTChange_spec dataList activeTab id a (h : heap) cur :
  dataList !! activeTab = Some cur ->
  handleSPTChange dataList activeTab id a h
  = Normal (<[activeTab :=
               set_spt
                 (List.map (fun s => if String.eqb (sptId s) id
                                     then assignSpt a s else s)
                    (spt cur)) cur]> dataList, h).
Proof.
  intros Hcur. unfold handleSPTChange.
  erewrite bind_Normal by (rewrite getCurrentData_spec, Hcur; reflexivity).
  reflexivity.
Qed.

Lemma mapM_deref_Normal (l : list ExtractedData) (h : heap) :
  (forall d, In d l -> is_Some (h !! header d)) ->
  exists hs, mapM (fun item => deref (header item)) l h = Normal (hs, h).
Proof.
  induction l as [|d r IH]; intros Hok.
  - exists []. reflexivity.
  - destruct (Hok d (or_introl eq_refl)) as [hd Hhd].
    destruct IH as [hs Hrun]; [intros; apply Hok; now right|].
    exists (hd :: hs). cbn [mapM].
    erewrite bind_Normal by (apply deref_spec; exact Hhd).
    erewrite bind_Normal by exact Hrun. reflexivity.
Qed.

Lemma mapM_deref_inv (l : list ExtractedData) : forall (h : heap) r,
  mapM (fun item => deref (header item)) l h = Normal r ->
  forall d, In d l -> is_Some (h !! header d).
Proof.
  induction l as [|x r IH]; intros h [res hres] Hrun d Hd; [destruct Hd|].
  cbn [mapM] in Hrun.
  apply bind_inv in Hrun as (hd & h1 & Hx & Hrun).
  apply deref_inv in Hx as [-> Hx].
  apply bind_inv in Hrun as (hs & h2 & Hr & _).
  destruct Hd as [<-|Hd]; [eauto|]. eapply IH; eassumption.
Qed.

Lemma rendered_inv t (h : heap) activeData :
  rendered t h = Some activeData ->
  dataList t !! activeTab t = Some activeData
  /\ forall d, In d (dataList t) -> is_Some (h !! header d).
Proof.
  unfold rendered.
  destruct (dataList t !! activeTab t) as [a|]; [|discriminate].
  destruct (mapM _ (dataList t) h) as [r|] eqn:Hall; [|discriminate].
  intros [= ->]. split; [reflexivity|]. eapply mapM_deref_inv; eassumption.
Qed.

Lemma rendered_intro t (h : heap) :
  (activeTab t < List.length (dataList t))%nat ->
  (forall d, In d (dataList t) -> is_Some (h !! header d)) ->
  rendered t h <> None.
Proof.
  intros Hlt Hok. unfold rendered.
  destruct (lookup_lt_is_Some_2 _ _ Hlt) as [a ->].
  destruct (mapM_deref_Normal _ h Hok) as [hs ->]. discriminate.
Qed.

Lemma In_insert (l : list ExtractedData) i new d :
  In d (<[i := new]> l) -> d = new \/ In d l.
Proof.
  intros Hd. apply list_elem_of_In, list_elem_of_lookup_1 in Hd as [k Hk].
  destruct (decide (k = i)) as [->|Hne].
  - apply list_lookup_insert_Some in Hk as [(_ & -> & _)|(Hne & _)];
      [now left|congruence].
  - rewrite list_lookup_insert_ne in Hk by congruence.
    right. eapply lookup_In; eassumption.
Qed.

(** A change of a header returns when the headers are there, and the
    headers of the new list are there. *)
Lemma handleHeaderChange_returns dataList activeTab field value (h : heap) cur :
  dataList !! activeTab = Some cur ->
  (forall d, In d dataList -> is_Some (h !! header d)) ->
  exists out h',
    handleHeaderChange dataList activeTab field value h = Normal (out, h')
    /\ forall d, In d out -> is_Some (h' !! header d).
Proof.
  intros Hcur Hok.
  destruct (Hok cur (lookup_In _ _ _ Hcur)) as [hd Hhd].
  unfold handleHeaderChange.
  erewrite bind_Normal by (rewrite getCurrentData_spec, Hcur; reflexivity).
  erewrite bind_Normal by (apply deref_spec; eassumption).
  destruct (alloc_spec (assignHeader field value hd) h) as (l & E & Hl).
  erewrite bind_Normal by exact E.
  set (h1 := <[l := assignHeader field value hd]> h).
  assert (Hsub1 : h ⊆ h1) by (apply insert_subseteq; assumption).
  destruct (isProjectWide field).
  - destruct (mapM_withNewHeader field value h dataList h1 Hsub1 Hok)
      as (out & h' & Hrun & _ & Hall & _).
    exists out, h'. split; [exact Hrun|].
    intros d' Hd'.
    apply list_elem_of_In, list_elem_of_lookup_1 in Hd' as [i Hi].
    destruct (Forall2_lookup_r _ _ _ _ _ Hall Hi) as (d & _ & _ & _ & Hh).
    eauto.
  - eexists _, _. split; [reflexivity|].
    intros d Hd. apply In_insert in Hd as [->|Hd].
    + cbn [set_header header]. unfold h1. rewrite lookup_insert_eq. eauto.
    + destruct (Hok d Hd) as [hd' Hhd'].
      exists hd'. eapply lookup_weaken; eassumption.
Qed.

Lemma dispatch_inv t (h : heap) e m :
  dispatch t h e = Some m ->
  exists t' h',
    m h = Normal (t', h')
    /\ h ⊆ h'
    /\ List.map internalId (dataList t') = List.map internalId (dataList t)
    /\ (activeTab t' < List.length (dataList t'))%nat
    /\ forall d, In d (dataList t') -> is_Some (h' !! header d).
Proof.
  unfold dispatch.
  destruct (rendered t h) as [activeData|] eqn:Hshown; [|discriminate].
  apply rendered_inv in Hshown as [Hat Hok].
  pose proof (lookup_lt_Some _ _ _ Hat) as Hlt.
  assert (Hins : forall new,
    internalId new = internalId activeData ->
    header new = header activeData ->
    exists t' h',
      ret {| dataList := <[activeTab t := new]> (dataList t);
             activeTab := activeTab t |} h
      = Normal (t', h')
      /\ h ⊆ h'
      /\ List.map internalId (dataList t') = List.map internalId (dataList t)
      /\ (activeTab t' < List.length (dataList t'))%nat
      /\ forall d, In d (dataList t') -> is_Some (h' !! header d)).
  { intros new Hid Hhd. eexists _, _. split; [reflexivity|].
    cbn [dataList activeTab]. split; [reflexivity|].
    split; [now apply map_internalId_insert with (cur := activeData)|].
    split; [now rewrite length_insert|].
    intros d Hd. apply In_insert in Hd as [->|Hd]; [|now apply Hok].
    rewrite Hhd. apply Hok. eapply lookup_In; eassumption. }
  assert (Hlen : forall l1 l2 : list ExtractedData,
            List.map internalId l1 = List.map internalId l2 ->
            List.length l1 = List.length l2).
  { intros l1 l2 E. apply (f_equal (@List.length _)) in E.
    now rewrite !List.length_map in E. }
  destruct e as [idx|field value|id a|id a|id|id|now].
  - destruct (Nat.ltb_spec idx (List.length (dataList t))); [|discriminate].
    intros [= <-]. eexists _, _. split; [reflexivity|].
    cbn [dataList activeTab].
    split; [reflexivity|]. split; [reflexivity|]. split; assumption.
  - intros [= <-]. unfold withDataList.
    destruct (handleHeaderChange_returns _ _ field value h _ Hat Hok)
      as (out & h' & Hrun & Hok').
    erewrite bind_Normal by exact Hrun.
    eexists _, _. split; [reflexivity|]. cbn [dataList activeTab].
    apply handleHeaderChange_inv in Hrun as [Hsub Hids].
    split; [assumption|]. split; [assumption|].
    split; [now rewrite (Hlen _ _ Hids)|assumption].
  - intros [= <-]. unfold withDataList.
    erewrite bind_Normal by (apply handleLayerChange_spec; eassumption).
    apply Hins; reflexivity.
  - intros [= <-]. unfold withDataList.
    erewrite bind_Normal by (apply handleSPTChange_spec; eassumption).
    apply Hins; reflexivity.
  - intros [= <-]. apply Hins; reflexivity.
  - intros [= <-]. apply Hins; reflexivity.
  - intros [= <-]. apply Hins; reflexivity.
Qed.

Lemma steps_inv s es s' :
  steps s es s' ->
  snd s ⊆ snd s'
  /\ List.map internalId (dataList (fst s'))
     = List.map internalId (dataList (fst s))
  /\ (rendered (fst s) (snd s) <> None ->
      rendered (fst s') (snd s') <> None).
Proof.
  induction 1 as [s|s e s1 es s2 Hstep _ IH].
  - repeat split; auto.
  - destruct Hstep as [t0 h0 e m t1 h1 Hd Hrun]. cbn [fst snd] in *.
    destruct (dispatch_inv _ _ _ _ Hd)
      as (t1' & h1' & Hrun' & Hsub1 & Hids1 & Hlt1 & Hok1).
    rewrite Hrun in Hrun'. injection Hrun' as <- <-.
    destruct IH as (Hsub2 & Hids2 & Hshown2).
    split; [etrans; eassumption|]. split; [congruence|].
    intros _. apply Hshown2. now apply rendered_intro.
Qed.

(** X12: the tabs, the fields of the header, of the layers and of the SPT
    records, the delete buttons and the button that adds an SPT record
    work whenever the tables are shown: the handler returns, it writes no
    object that was in the store, it keeps the boreholes of the list, as
    many, in the same order and under the same identifiers, and the
    tables are shown again afterwards, with a borehole in the open tab
    and a header for every record. *)
Theorem every_control_works t (h : heap) e m :
  dispatch t h e = Some m ->
  exists t' h',
    m h = Normal (t', h')
    /\ h ⊆ h'
    /\ List.map internalId (dataList t') = List.map internalId (dataList t)
    /\ rendered t' h' <> None.
Proof.
  intros Hd.
  destruct (dispatch_inv _ _ _ _ Hd) as (t' & h' & Hrun & Hsub & Hids & Hlt & Hok).
  exists t', h'. split; [assumption|]. split; [assumption|].
  split; [assumption|]. now apply rendered_intro.
Qed.

(** X13: whatever the user does with these controls, in any number and
    order, the list that the confirm button hands over has the boreholes
    the tables were opened with, as many, in the same order and under
    the same identifiers; no object that was in the store at the start
    is written, so the list the component was given is still what it
    was; and tables that were shown at the start are shown at the end. *)
Theorem review_session_keeps_boreholes t (h : heap) es t' h' :
  steps (t, h) es (t', h') ->
  h ⊆ h'
  /\ List.length (dataList t') = List.length (dataList t)
  /\ List.map internalId (dataList t') = List.map internalId (dataList t)
  /\ (rendered t h <> None -> rendered t' h' <> None).
Proof.
  intros Hsteps.
  destruct (steps_inv _ _ _ Hsteps) as (Hsub & Hids & Hlt). cbn [fst snd] in *.
  split; [assumption|]. split; [|split; assumption].
  apply (f_equal (@List.length _)) in Hids.
  now rewrite !List.length_map in Hids.
Qed.


(** ** Text *)

Example utf16_sand : utf16 "חול" = [1495; 1493; 1500]%N.
Proof. reflexivity. Qed.

Example utf16_ascii : utf16 "429" = [52; 50; 57]%N.
Proof. reflexivity. Qed.


Lemma startsWith_app s p q :
  startsWith s (p ++ q) = true -> startsWith s p = true.
Proof.
  revert s. induction p as [|y p IH]; intros s; [reflexivity|].
  destruct s as [|x s]; simpl; [discriminate|].
  rewrite !andb_true_iff. intros [H1 H2]. auto.
Qed.

Lemma startsWith_app_l s t p :
  startsWith s p = true -> startsWith (s ++ t) p = true.
Proof.
  revert s. induction p as [|y p IH]; intros s; [reflexivity|].
  destruct s as [|x s]; simpl; [discriminate|].
  rewrite !andb_true_iff. intros [H1 H2]. auto.
Qed.

Lemma includes_app_l s t p :
  includes s p = true -> includes (s ++ t) p = true.
Proof.
  induction s as [|x s IH]; simpl.
  - rewrite orb_false_r. intros H. destruct p; [|discriminate].
    destruct t; reflexivity.
  - rewrite !orb_true_iff. intros [H|H].
    + left. now apply (startsWith_app_l (x :: s)).
    + right. auto.
Qed.

Lemma includes_app_r s t p :
  includes t p = true -> includes (s ++ t) p = true.
Proof.
  induction s as [|x s IH]; simpl; [trivial|].
  intros H. rewrite orb_true_iff. right. auto.
Qed.

Lemma includes_prefix s p q :
  includes s (p ++ q) = true -> includes s p = true.
Proof.
  induction s as [|x s IH]; simpl.
  - rewrite !orb_false_r. apply (startsWith_app []).
  - rewrite !orb_true_iff. intros [H|H].
    + left. now apply (startsWith_app (x :: s)) in H.
    + right. auto.
Qed.

Lemma trimTextStart_suffix s : exists pre, s = pre ++ trimTextStart s.
Proof.
  induction s as [|c r [pre IH]]; simpl.
  - now exists [].
  - destruct (isWhiteSpaceUnit c).
    + exists (c :: pre). simpl. now rewrite <- IH.
    + now exists [].
Qed.

Lemma trimTextEnd_prefix s : exists suf, s = trimTextEnd s ++ suf.
Proof.
  induction s as [|c r [suf IH]]; simpl.
  - now exists [].
  - destruct (trimTextEnd r) as [|x r'] eqn:E.
    + destruct (isWhiteSpaceUnit c).
      * now exists (c :: r).
      * exists r. reflexivity.
    + exists suf. simpl. now rewrite IH at 1.
Qed.

Lemma includes_trimText s p :
  includes (trimText s) p = true -> includes s p = true.
Proof.
  unfold trimText. intros H.
  destruct (trimTextStart_suffix s) as [pre Hs].
  destruct (trimTextEnd_prefix (trimTextStart s)) as [suf He].
  rewrite Hs. apply includes_app_r. rewrite He. now apply includes_app_l.
Qed.

(** ** Cleaning the answer of the model *)

Lemma fenceLength_none s :
  startsWith s [96; 96; 96]%N = false -> fenceLength s = 0%nat.
Proof.
  intros H. unfold fenceLength.
  change (utf16 "```json" ++ [10%N]) with ([96; 96; 96]%N ++ utf16 "json" ++ [10%N]).
  change (utf16 "```json") with ([96; 96; 96]%N ++ utf16 "json").
  change (utf16 "```") with [96; 96; 96]%N.
  destruct (startsWith s ([96; 96; 96]%N ++ utf16 "json" ++ [10%N])) eqn:E1.
  { apply startsWith_app in E1. congruence. }
  destruct (startsWith s ([96; 96; 96]%N ++ utf16 "json")) eqn:E2.
  { apply startsWith_app in E2. congruence. }
  now rewrite H.
Qed.

Lemma fenceLength_some s :
  startsWith s [96; 96; 96]%N = true -> fenceLength s <> 0%nat.
Proof.
  intros H. unfold fenceLength.
  change (utf16 "```") with [96; 96; 96]%N. rewrite H.
  repeat match goal with
         | |- context [if ?b then _ else _] => destruct b
         end; lia.
Qed.

Lemma stripFences_keeps c r :
  fenceLength (c :: r) = 0%nat ->
  stripFencesFrom 0 (c :: r) = c :: stripFencesFrom 0 r.
Proof. intros H. cbn [stripFencesFrom]. now rewrite H. Qed.

Lemma stripFences_drops c r k :
  fenceLength (c :: r) = S k ->
  stripFencesFrom 0 (c :: r) = stripFencesFrom k r.
Proof. intros H. cbn [stripFencesFrom]. now rewrite H. Qed.

(** The first code units that are kept are the first of the text. *)
Lemma stripFences_first s :
  startsWith (stripFencesFrom 0 s) [96]%N = true ->
  startsWith s [96]%N = true.
Proof.
  destruct s as [|c r]; [discriminate|].
  destruct (startsWith (c :: r) [96; 96; 96]%N) eqn:E.
  - intros _. now apply (startsWith_app (c :: r) [96]%N [96; 96]%N).
  - rewrite stripFences_keeps by now apply fenceLength_none. trivial.
Qed.

Lemma stripFences_first_two s :
  startsWith (stripFencesFrom 0 s) [96; 96]%N = true ->
  startsWith s [96; 96]%N = true.
Proof.
  destruct s as [|c r]; [discriminate|].
  destruct (startsWith (c :: r) [96; 96; 96]%N) eqn:E.
  - intros _. now apply (startsWith_app (c :: r) [96; 96]%N [96]%N).
  - rewrite stripFences_keeps by now apply fenceLength_none.
    cbn [startsWith]. rewrite !andb_true_iff. intros [Hc Hr].
    split; [assumption|]. apply stripFences_first in Hr. exact Hr.
Qed.

Lemma stripFences_no_fence_first s : forall k,
  startsWith (stripFencesFrom k s) [96; 96; 96]%N = false.
Proof.
  induction s as [|c r IH]; intros k; [reflexivity|].
  destruct k as [|k]; [|apply IH].
  destruct (fenceLength (c :: r)) as [|n] eqn:E.
  - rewrite stripFences_keeps by assumption.
    destruct (startsWith (c :: stripFencesFrom 0 r) [96; 96; 96]%N) eqn:Hs;
      [|reflexivity].
    exfalso. cbn [startsWith] in Hs. apply andb_true_iff in Hs as [Hc Hr].
    apply (stripFences_first_two r) in Hr.
    apply (fenceLength_some (c :: r)); [|assumption].
    cbn [startsWith]. now rewrite Hc.
  - rewrite (stripFences_drops _ _ _ E). apply IH.
Qed.

Lemma stripFences_no_fence s : forall k,
  includes (stripFencesFrom k s) [96; 96; 96]%N = false.
Proof.
  induction s as [|c r IH]; intros k; [reflexivity|].
  destruct k as [|k]; [|apply IH].
  destruct (fenceLength (c :: r)) as [|n] eqn:E.
  - pose proof (stripFences_no_fence_first (c :: r) 0) as Hf.
    rewrite stripFences_keeps in * by assumption.
    cbn [includes]. now rewrite Hf, IH.
  - rewrite (stripFences_drops _ _ _ E). apply IH.
Qed.

Lemma stripFences_plain s :
  ~ In 96%N s -> stripFencesFrom 0 s = s.
Proof.
  induction s as [|c r IH]; intros H; [reflexivity|].
  rewrite stripFences_keeps.
  - f_equal. apply IH. intros Hin. apply H. now right.
  - apply fenceLength_none. cbn [startsWith].
    destruct (N.eqb_spec c 96) as [->|_]; [|reflexivity].
    exfalso. apply H. now left.
Qed.

(** X15: the text that is handed to [JSON.parse] holds no code fence:
    taking the fences out does not let the backticks around them close
    up to a new one.  A text without a backtick is only trimmed. *)
Theorem cleanText_has_no_fence (s : text) :
  includes (cleanText s) (utf16 "```") = false
  /\ (~ In 96%N s -> cleanText s = trimText s).
Proof.
  split.
  - destruct (includes (cleanText s) (utf16 "```")) eqn:E; [|reflexivity].
    apply includes_trimText in E.
    unfold stripFences in E.
    change (utf16 "```") with [96; 96; 96]%N in E.
    now rewrite stripFences_no_fence in E.
  - intros H. unfold cleanText, stripFences. now rewrite stripFences_plain.
Qed.

(** ** The classification of a layer *)

Lemma toUpperCase_empty uscs :
  (if truthy uscs then toUpperCase uscs else []) = toUpperCase uscs.
Proof. now destruct uscs. Qed.

(** X16: the pattern of a layer depends on four letters and one word of
    its capitalised USCS code only: dots for an S without C and M,
    diagonal for any C, circles for a G, solid for FILL, and diagonal for
    everything else; the tests for the words CLAY and GRAVEL decide
    nothing, and the pattern [none] is never given. *)
Theorem pattern_by_letters (uscs : string) :
  let code := toUpperCase uscs in
  mapUSCSToPattern uscs
  = (if includes code (utf16 "S") && negb (includes code (utf16 "C"))
        && negb (includes code (utf16 "M"))
     then dots
     else if includes code (utf16 "C") then diagonal
     else if includes code (utf16 "G") then circles
     else if includes code (utf16 "FILL") then solid
     else diagonal)
  /\ mapUSCSToPattern uscs <> none.
Proof.
  intros code. unfold mapUSCSToPattern. rewrite toUpperCase_empty.
  fold code.
  assert (HC : includes code (utf16 "CLAY") = true ->
               includes code (utf16 "C") = true)
    by apply (includes_prefix code (utf16 "C") (utf16 "LAY")).
  assert (HG : includes code (utf16 "GRAVEL") = true ->
               includes code (utf16 "G") = true)
    by apply (includes_prefix code (utf16 "G") (utf16 "RAVEL")).
  destruct (includes code (utf16 "S")), (includes code (utf16 "C")) eqn:EC,
    (includes code (utf16 "M")), (includes code (utf16 "G")) eqn:EG,
    (includes code (utf16 "CLAY")) eqn:ECl,
    (includes code (utf16 "GRAVEL")) eqn:EGr,
    (includes code (utf16 "FILL"));
    cbn [andb orb negb]; try (split; [reflexivity|discriminate]);
    try (specialize (HC eq_refl); discriminate);
    try (specialize (HG eq_refl); discriminate).
Qed.

Lemma upperUnit_lower c :
  upperUnit (let n := codeUnit c in
             if ((65 <=? n) && (n <=? 90))%N then ascii_of_N (n + 32) else c)
  = upperUnit c.
Proof.
  destruct c as [[] [] [] [] [] [] [] []]; vm_compute; reflexivity.
Qed.

Lemma toUpperCase_lowerAscii s : toUpperCase (lowerAscii s) = toUpperCase s.
Proof.
  unfold toUpperCase, lowerAscii.
  rewrite list_ascii_of_string_of_list_ascii.
  induction (list_ascii_of_string s) as [|c r IH]; [reflexivity|].
  cbn [List.map List.flat_map]. now rewrite upperUnit_lower, IH.
Qed.

Lemma truthy_lowerAscii s : truthy (lowerAscii s) = truthy s.
Proof. destruct s; reflexivity. Qed.

(** X17: the pattern and the colour of a USCS code do not depend on the
    case of its letters: a code written in small letters is classified
    as the code in capitals is; sp gets the dots and the colour of SP. *)
Theorem classification_ignores_case (uscs : string) :
  mapUSCSToPattern (lowerAscii uscs) = mapUSCSToPattern uscs
  /\ mapUSCSToColor (lowerAscii uscs) = mapUSCSToColor uscs
  /\ mapUSCSToPattern "sp" = dots
  /\ mapUSCSToColor "sp" = "#FEF9C3"%string.
Proof.
  unfold mapUSCSToPattern, mapUSCSToColor.
  rewrite truthy_lowerAscii, toUpperCase_lowerAscii.
  repeat split; reflexivity.
Qed.

Section Inference.
Variable host : Host.

(** X18: a description gets one of five codes, SP, SC, CH, CL or Fill, and
    with it the pattern and the colour of the table below; gravel and
    the pattern of circles are never inferred.  The empty description is
    CL, and a description that mentions clay is never taken for fill. *)
Theorem inferred_classification (desc : text) :
  let u := inferUSCS host desc in
  let d := toLowerCase host desc in
  In (u, mapUSCSToPattern u, mapUSCSToColor u)
     [ ("SP", dots, "#FEF9C3"); ("SC", diagonal, "#FFFFFF");
       ("CH", diagonal, "#D7CCC8"); ("CL", diagonal, "#FFFFFF");
       ("Fill", solid, "#DCFCE7") ]%string
  /\ (desc = [] -> u = "CL"%string)
  /\ (includes d (utf16 "חרסית") = true -> u <> "Fill"%string)
  /\ (u = "Fill"%string -> includes d (utf16 "מילוי") = true).
Proof.
  intros u d. subst u. unfold inferUSCS. fold d.
  assert (Hcl : includes d (utf16 "חרסיתי") = true ->
                includes d (utf16 "חרסית") = true)
    by apply (includes_prefix d (utf16 "חרסית") (utf16 "י")).
  destruct desc as [|c r].
  { split; [simpl; tauto|]. split; [reflexivity|].
    split; [discriminate|discriminate]. }
  destruct (includes d (utf16 "חול")), (includes d (utf16 "כורכר")),
    (includes d (utf16 "נקי")), (includes d (utf16 "חרסיתי")) eqn:E1,
    (includes d (utf16 "חרסית")) eqn:E2, (includes d (utf16 "שמנה")),
    (includes d (utf16 "מילוי"));
    cbn [andb orb];
    try (specialize (Hcl eq_refl); discriminate);
    (split; [simpl; tauto|]); (split; [discriminate|]);
    split; try discriminate; try reflexivity; intros; discriminate.
Qed.
End Inference.

(** ** Identifiers *)

Lemma afterDraws_0 w : afterDraws 0 w = w.
Proof. now destruct w. Qed.

Lemma afterDraws_S n w :
  afterDraws n (afterDraws 1 w) = afterDraws (S n) w.
Proof. unfold afterDraws. simpl. f_equal. lia. Qed.

Section Identifiers.
Variable host : Host.
Hypothesis random_range :
  forall n, (0 <= random host n)%Q /\ (random host n < 1)%Q.

Lemma Math_random_spec w :
  Math_random host w = (Fulfilled (random host (drawn w)), afterDraws 1 w).
Proof. reflexivity. Qed.

(** A random number times 16, cut to an integer, is one of 0 to 15. *)
Lemma toInt32_digit q :
  (0 <= q)%Q -> (q < 1)%Q -> (0 <= toInt32 (q * 16) < 16)%Z.
Proof.
  intros H0 H1. unfold toInt32.
  assert (Hle : Qle_bool 0 (q * 16) = true).
  { apply Qle_bool_iff. nra. }
  rewrite Hle.
  assert (Hlo : (0 <= Qfloor (q * 16))%Z).
  { change 0%Z with (Qfloor 0). apply Qfloor_resp_le. nra. }
  assert (Hhi : (Qfloor (q * 16) < 16)%Z).
  { rewrite Zlt_Qlt. pose proof (Qfloor_le (q * 16)).
    change (inject_Z 16) with 16%Q. nra. }
  change (2 ^ 31)%Z with 2147483648%Z. change (2 ^ 32)%Z with 4294967296%Z.
  rewrite Z.mod_small by lia. lia.
Qed.

Lemma digit_cases (k : Z) :
  (0 <= k < 16)%Z ->
  In k [0; 1; 2; 3; 4; 5; 6; 7; 8; 9; 10; 11; 12; 13; 14; 15]%Z.
Proof. simpl. lia. Qed.

Lemma toString16_digit (k : Z) :
  (0 <= k < 16)%Z ->
  exists c, toString16 k = String c EmptyString /\ isHexDigit c = true.
Proof.
  intros H. apply digit_cases in H. simpl in H.
  repeat (destruct H as [<-|H]; [eexists; split; reflexivity|]).
  destruct H.
Qed.

Lemma toString16_variant (k : Z) :
  (0 <= k < 16)%Z ->
  exists c, toString16 (Z.lor (Z.land k 3) 8) = String c EmptyString
            /\ (Ascii.eqb c "8" || Ascii.eqb c "9" || Ascii.eqb c "a"
                || Ascii.eqb c "b") = true.
Proof.
  intros H. apply digit_cases in H. simpl in H.
  repeat (destruct H as [<-|H]; [eexists; split; reflexivity|]).
  destruct H.
Qed.

Lemma andThen_Fulfilled {A B} (m : Task A) (k : A -> Task B) w a w' :
  m w = (Fulfilled a, w') -> andThen m k w = k a w'.
Proof. intros H. unfold andThen. now rewrite H. Qed.

Lemma andThen_Rejected {A B} (m : Task A) (k : A -> Task B) w e w' :
  m w = (Rejected e, w') -> andThen m k w = (Rejected e, w').
Proof. intros H. unfold andThen. now rewrite H. Qed.

Lemma randomDigit_spec c w :
  randomDigit host c w
  = (Fulfilled
       (toString16
          (let r := toInt32 (random host (drawn w) * 16) in
           if Ascii.eqb c "x" then r else Z.lor (Z.land r 3) 8)),
     afterDraws 1 w).
Proof. reflexivity. Qed.

Lemma replaceXY_spec template : forall w,
  exists s,
    replaceXY host template w = (Fulfilled s, afterDraws (marks template) w)
    /\ matchesTemplate template s = true.
Proof.
  induction template as [|c r IH]; intros w.
  - exists EmptyString. cbn [replaceXY marks]. rewrite afterDraws_0.
    split; reflexivity.
  - cbn [replaceXY marks matchesTemplate].
    destruct (random_range (drawn w)) as [H0 H1].
    pose proof (toInt32_digit _ H0 H1) as Hk.
    destruct (Ascii.eqb c "x") eqn:Ex; [|destruct (Ascii.eqb c "y") eqn:Ey];
      cbn [orb].
    + destruct (IH (afterDraws 1 w)) as (rest & Hrun & Hm).
      destruct (toString16_digit _ Hk) as (d & Hd & Hhex).
      exists (String d rest). split.
      * erewrite andThen_Fulfilled by apply randomDigit_spec.
        erewrite andThen_Fulfilled by exact Hrun.
        cbn zeta. rewrite Ex, Hd, afterDraws_S. reflexivity.
      * now rewrite Hhex, Hm.
    + destruct (IH (afterDraws 1 w)) as (rest & Hrun & Hm).
      destruct (toString16_variant _ Hk) as (d & Hd & Hv).
      exists (String d rest). split.
      * erewrite andThen_Fulfilled by apply randomDigit_spec.
        erewrite andThen_Fulfilled by exact Hrun.
        cbn zeta. rewrite Ex, Hd, afterDraws_S. reflexivity.
      * now rewrite Hv, Hm.
    + destruct (IH w) as (rest & Hrun & Hm).
      exists (String c rest). split.
      * erewrite andThen_Fulfilled by exact Hrun. reflexivity.
      * now rewrite Ascii.eqb_refl, Hm.
Qed.

Lemma matchesTemplate_length template : forall s,
  matchesTemplate template s = true -> String.length s = String.length template.
Proof.
  induction template as [|t tr IH]; intros [|c sr]; simpl; try discriminate;
    [reflexivity|].
  rewrite andb_true_iff. intros [_ H]. f_equal. auto.
Qed.

(** X19: where the platform has no [crypto.randomUUID], the identifier is
    made of 31 random numbers and has the form of a version 4 UUID: 36
    characters, hyphens after 8, 13, 18 and 23 of them, the digit 4 at
    the head of the third group, one of 8, 9, a and b at the head of the
    fourth, and small hexadecimal digits everywhere else.  Where the
    platform has it, the identifier is the one it issues. *)
Theorem generateId_form (w : World) :
  match randomUUID host with
  | None =>
      exists s,
        generateId host w = (Fulfilled s, afterDraws 31 w)
        /\ matchesTemplate "xxxxxxxx-xxxx-4xxx-yxxx-xxxxxxxxxxxx" s = true
        /\ String.length s = 36%nat
  | Some uuid =>
      fst (generateId host w) = Fulfilled (uuid (issued w))
      /\ issued (snd (generateId host w)) = S (issued w)
      /\ drawn (snd (generateId host w)) = drawn w
  end.
Proof.
  unfold generateId. destruct (randomUUID host) as [uuid|].
  - repeat split; reflexivity.
  - destruct (replaceXY_spec "xxxxxxxx-xxxx-4xxx-yxxx-xxxxxxxxxxxx" w)
      as (s & Hrun & Hm).
    exists s. split; [exact Hrun|]. split; [exact Hm|].
    now rewrite (matchesTemplate_length _ _ Hm).
Qed.
End Identifiers.

(** ** Asking the model again *)

Section Retry.
Variable host : Host.

Lemma askModel_spec contents w :
  askModel host contents w
  = (generateContent host (List.length (sent w)) contents,
     afterAttempts host contents 0 0 w).
Proof.
  unfold askModel, afterAttempts. simpl. now rewrite app_nil_r.
Qed.

Lemma afterAttempts_next contents i k w :
  afterAttempts host contents (S i) k
    {| store := store w; drawn := S (drawn w); issued := issued w;
       sent := contents :: sent w;
       timers := timers w ++ [waitTime i (random host (drawn w))];
       alerts := alerts w; app := app w |}
  = afterAttempts host contents i (S k) w.
Proof.
  unfold afterAttempts. cbn [store drawn issued sent timers alerts app].
  f_equal.
  - lia.
  - change (contents :: sent w) with ([contents] ++ sent w).
    rewrite List.app_assoc, <- List.repeat_cons. reflexivity.
  - rewrite <- List.app_assoc. f_equal. cbn [seq List.map app].
    rewrite !Nat.add_0_r. f_equal.
    rewrite <- seq_shift, List.map_map. apply List.map_ext.
    intros t. f_equal; [lia|]. f_equal. lia.
Qed.

Lemma retryFrom_spec contents maxRetries : forall k i w lastError,
  (i + k < maxRetries)%nat ->
  (forall j, (j < k)%nat ->
     quotaRejection host
       (generateContent host (List.length (sent w) + j) contents) = true) ->
  (i + k = maxRetries - 1)%nat
  \/ quotaRejection host
       (generateContent host (List.length (sent w) + k) contents) = false ->
  retryFrom host (askModel host contents) maxRetries (maxRetries - i) i
    lastError w
  = (generateContent host (List.length (sent w) + k) contents,
     afterAttempts host contents i k w).
Proof.
  induction k as [|k IH]; intros i w lastError Hlt Hquota Hlast.
  - destruct (maxRetries - i)%nat as [|left] eqn:El; [lia|].
    cbn [retryFrom]. unfold tryCatch.
    rewrite Nat.add_0_r.
    change (askModel host contents w)
      with (generateContent host (List.length (sent w)) contents,
            {| store := store w; drawn := drawn w; issued := issued w;
               sent := contents :: sent w; timers := timers w;
               alerts := alerts w; app := app w |}).
    assert (Hw : {| store := store w; drawn := drawn w; issued := issued w;
                    sent := contents :: sent w; timers := timers w;
                    alerts := alerts w; app := app w |}
                 = afterAttempts host contents i 0 w).
    { unfold afterAttempts. simpl. now rewrite app_nil_r. }
    destruct (generateContent host (List.length (sent w)) contents)
      as [a|e] eqn:Er; [now rewrite Hw|].
    assert (Hno : isQuotaError host e
                  && (Z.of_nat i <? Z.of_nat maxRetries - 1)%Z = false).
    { rewrite !Nat.add_0_r in Hlast. destruct Hlast as [Hi|Hq].
      - apply andb_false_iff. right. apply Z.ltb_ge. lia.
      - rewrite Er in Hq. simpl in Hq. now rewrite Hq. }
    rewrite Hno. unfold reject. now rewrite Hw.
  - destruct (maxRetries - i)%nat as [|left] eqn:El; [lia|].
    cbn [retryFrom]. unfold tryCatch.
    change (askModel host contents w)
      with (generateContent host (List.length (sent w)) contents,
            {| store := store w; drawn := drawn w; issued := issued w;
               sent := contents :: sent w; timers := timers w;
               alerts := alerts w; app := app w |}).
    pose proof (Hquota 0%nat ltac:(lia)) as H0. rewrite Nat.add_0_r in H0.
    destruct (generateContent host (List.length (sent w)) contents)
      as [a|e] eqn:Er; [discriminate|].
    simpl in H0. rewrite H0.
    assert (Hi : (Z.of_nat i <? Z.of_nat maxRetries - 1)%Z = true)
      by (apply Z.ltb_lt; lia).
    rewrite Hi. cbn [andb].
    set (w2 := {| store := store w; drawn := S (drawn w); issued := issued w;
                  sent := contents :: sent w;
                  timers := timers w ++ [waitTime i (random host (drawn w))];
                  alerts := alerts w; app := app w |}).
    match goal with
    | |- _ = ?rhs =>
        change (retryFrom host (askModel host contents) maxRetries left (S i)
                  e w2 = rhs)
    end.
    replace left with (maxRetries - S i)%nat by lia.
    rewrite IH.
    + cbn [sent List.length w2].
      replace (S (List.length (sent w)) + k)%nat
        with (List.length (sent w) + S k)%nat by lia.
      f_equal. apply afterAttempts_next.
    + lia.
    + intros j Hj. cbn [sent List.length w2].
      replace (S (List.length (sent w)) + j)%nat
        with (List.length (sent w) + S j)%nat by lia.
      apply Hquota. lia.
    + cbn [sent List.length w2].
      replace (S (List.length (sent w)) + k)%nat
        with (List.length (sent w) + S k)%nat by lia.
      destruct Hlast as [Hl|Hl]; [left; lia|now right].
Qed.

(** X20: a request is sent again only after a failure on the quota (a
    message with 429, RESOURCE_EXHAUSTED or quota in it) and only while
    fewer than [maxRetries] attempts were made.  If the first [k]
    answers are such failures and the next one is not, or is the last
    attempt allowed, the result is that answer, whatever it is; [k + 1]
    requests were sent, and before the attempt [i + 1] the program
    waited 5000 times 2 to the [i] milliseconds and up to 1000 more,
    drawn at random.  With [maxRetries] 0 nothing is asked and
    [undefined] is thrown. *)
Theorem callWithRetry_attempts contents maxRetries k w :
  (k < maxRetries)%nat ->
  (forall j, (j < k)%nat ->
     quotaRejection host
       (generateContent host (List.length (sent w) + j) contents) = true) ->
  (k = maxRetries - 1)%nat
  \/ quotaRejection host
       (generateContent host (List.length (sent w) + k) contents) = false ->
  callWithRetry host (askModel host contents) maxRetries w
  = (generateContent host (List.length (sent w) + k) contents,
     {| store := store w; drawn := k + drawn w; issued := issued w;
        sent := repeat contents (S k) ++ sent w;
        timers := timers w
                  ++ List.map (fun i => waitTime i (random host (drawn w + i)))
                       (seq 0 k);
        alerts := alerts w; app := app w |})
  /\ callWithRetry host (askModel host contents) 0 w
     = (Rejected UndefinedThrown, w).
Proof.
  intros Hlt Hquota Hlast. split; [|reflexivity].
  unfold callWithRetry.
  replace maxRetries with (maxRetries - 0)%nat at 2 by lia.
  rewrite (retryFrom_spec contents maxRetries k 0 w) by (simpl; auto).
  reflexivity.
Qed.
End Retry.

(** ** What the service returns *)

Section Parse.
Variable host : Host.

Lemma replaceXY_total template : forall w,
  exists s n, replaceXY host template w = (Fulfilled s, afterDraws n w).
Proof.
  induction template as [|c r IH]; intros w.
  - exists EmptyString, 0%nat. cbn [replaceXY]. now rewrite afterDraws_0.
  - cbn [replaceXY].
    destruct (Ascii.eqb c "x" || Ascii.eqb c "y").
    + destruct (IH (afterDraws 1 w)) as (rest & n & Hrun).
      eexists _, (S n).
      erewrite andThen_Fulfilled by apply randomDigit_spec.
      erewrite andThen_Fulfilled by exact Hrun.
      now rewrite afterDraws_S.
    + destruct (IH w) as (rest & n & Hrun).
      eexists _, n. erewrite andThen_Fulfilled by exact Hrun. reflexivity.
Qed.

Lemma generateId_total w :
  exists s w',
    generateId host w = (Fulfilled s, w')
    /\ store w' = store w /\ sameTraffic w w'.
Proof.
  unfold generateId. destruct (randomUUID host) as [uuid|].
  - eexists _, _. split; [reflexivity|]. repeat split.
  - destruct (replaceXY_total "xxxxxxxx-xxxx-4xxx-yxxx-xxxxxxxxxxxx" w)
      as (s & n & Hrun).
    eexists _, _. split; [exact Hrun|]. repeat split.
Qed.

Lemma toExtractedData_spec raw w :
  exists d w',
    toExtractedData host raw w = (Fulfilled d, w')
    /\ store w !! header d = None
    /\ store w' = <[header d := toHeader raw]> (store w)
    /\ layers d = mapi (toLayer host (internalId d)) (orEmpty (Raw.layers raw))
    /\ spt d = mapi (toSpt (internalId d)) (orEmpty (Raw.spt raw))
    /\ sameTraffic w w'.
Proof.
  unfold toExtractedData.
  destruct (generateId_total w) as (id & w1 & Hid & Hstore & Hs1 & Ht1 & Ha1 & Hp1).
  erewrite andThen_Fulfilled by exact Hid.
  destruct (alloc_spec (toHeader raw) (store w1)) as (l & Hl & Hfresh).
  erewrite andThen_Fulfilled
    by (unfold liftJS; rewrite Hl; reflexivity).
  eexists _, _. split; [reflexivity|].
  cbn [header layers spt internalId set_store store sent timers alerts app].
  rewrite <- Hstore.
  repeat split; try assumption; reflexivity.
Qed.

Lemma mapTask_toExtractedData raws : forall w,
  exists out w',
    mapTask (toExtractedData host) raws w = (Fulfilled out, w')
    /\ store w ⊆ store w'
    /\ sameTraffic w w'
    /\ NoDup (List.map header out)
    /\ Forall2 (extractedFrom host w w') raws out.
Proof.
  induction raws as [|raw r IH]; intros w.
  - exists [], w. split; [reflexivity|]. split; [reflexivity|].
    split; [repeat split|]. split; constructor.
  - destruct (toExtractedData_spec raw w)
      as (d & w1 & Hd & Hfresh & Hstore & Hl & Hs & Htr1).
    destruct (IH w1) as (out & w' & Hrun & Hsub & Htr2 & Hnd & Hall).
    assert (Hsub1 : store w ⊆ store w1)
      by (rewrite Hstore; now apply insert_subseteq).
    exists (d :: out), w'. split.
    { cbn [mapTask]. erewrite andThen_Fulfilled by exact Hd.
      erewrite andThen_Fulfilled by exact Hrun. reflexivity. }
    split; [etrans; eassumption|].
    split.
    { destruct Htr1 as (? & ? & ? & ?), Htr2 as (? & ? & ? & ?).
      repeat split; congruence. }
    assert (Hin1 : store w1 !! header d = Some (toHeader raw))
      by (rewrite Hstore; apply lookup_insert_eq).
    split.
    + simpl. constructor; [|assumption].
      intros Hin. apply list_elem_of_In, in_map_iff in Hin as (d' & Hd' & Hin).
      apply list_elem_of_In, list_elem_of_lookup_1 in Hin as [i Hi].
      destruct (Forall2_lookup_r _ _ _ _ _ Hall Hi) as (x & _ & Hn & _).
      rewrite Hd' in Hn. congruence.
    + constructor.
      * split; [assumption|]. split; [|split; assumption].
        eapply lookup_weaken; eassumption.
      * eapply Forall2_impl; [exact Hall|].
        intros x y (Hn & Hsome & Hly & Hsp).
        split; [|split; [assumption|split; assumption]].
        destruct (store w !! header y) eqn:E; [|reflexivity].
        rewrite (lookup_weaken _ _ _ _ E Hsub1) in Hn. discriminate.
Qed.


Lemma tryCatch_Rejected {A} (m : Task A) handler w e w' :
  m w = (Rejected e, w') -> tryCatch m handler w = handler e w'.
Proof. intros H. unfold tryCatch. now rewrite H. Qed.


Lemma callWithRetry_once contents w :
  quotaRejection host (generateContent host (List.length (sent w)) contents)
  = false ->
  callWithRetry host (askModel host contents) 3 w
  = (generateContent host (List.length (sent w)) contents,
     afterAttempts host contents 0 0 w).
Proof.
  intros H.
  pose proof (retryFrom_spec host contents 3 0 0 w UndefinedThrown
                ltac:(simpl; lia) ltac:(intros; lia)
                ltac:(right; rewrite Nat.add_0_r; exact H)) as Hcall.
  now rewrite Nat.add_0_r in Hcall.
Qed.

(** X22: a page fails without a second request when the model answers
    without a text or with an empty one (the error [No data]), when the
    text does not parse (the error of [JSON.parse]), and when the
    request is rejected for another reason than the quota (that error);
    in each case the store, the alerts and the state of the application
    are as they were and nothing was waited for. *)
Theorem parseBoreholeLog_failures input w :
  let contents := partsOf input in
  let answer := generateContent host (List.length (sent w)) contents in
  let w' := {| store := store w; drawn := drawn w; issued := issued w;
               sent := contents :: sent w; timers := timers w;
               alerts := alerts w; app := app w |} in
  (answer = Fulfilled None \/ answer = Fulfilled (Some []) ->
   parseBoreholeLog host input w
   = (Rejected (ErrorObject (utf16 "No data")), w'))
  /\ (forall text, answer = Fulfilled (Some text) -> text <> [] ->
      JSON_parse host (cleanText text) = None ->
      parseBoreholeLog host input w = (Rejected JSONSyntaxError, w'))
  /\ (forall e, answer = Rejected e -> isQuotaError host e = false ->
      parseBoreholeLog host input w = (Rejected e, w')).
Proof.
  intros contents answer w'.
  assert (Hw : afterAttempts host contents 0 0 w = w').
  { unfold afterAttempts, w'. simpl. now rewrite app_nil_r. }
  split; [|split].
  - intros Hans.
    assert (Hq : quotaRejection host answer = false)
      by (destruct Hans as [-> | ->]; reflexivity).
    pose proof (callWithRetry_once contents w Hq) as Hcall.
    fold answer in Hcall. rewrite Hw in Hcall.
    unfold parseBoreholeLog. fold contents.
    erewrite tryCatch_Rejected; [reflexivity|].
    destruct Hans as [E|E]; rewrite E in Hcall;
      erewrite andThen_Fulfilled by exact Hcall; reflexivity.
  - intros text Hans Hne Hparse.
    assert (Hq : quotaRejection host answer = false) by now rewrite Hans.
    pose proof (callWithRetry_once contents w Hq) as Hcall.
    fold answer in Hcall. rewrite Hw, Hans in Hcall.
    unfold parseBoreholeLog. fold contents.
    erewrite tryCatch_Rejected; [reflexivity|].
    erewrite andThen_Fulfilled by exact Hcall.
    destruct text as [|c r]; [congruence|]. now rewrite Hparse.
  - intros e Hans Hno.
    assert (Hq : quotaRejection host answer = false) by now rewrite Hans.
    pose proof (callWithRetry_once contents w Hq) as Hcall.
    fold answer in Hcall. rewrite Hw, Hans in Hcall.
    unfold parseBoreholeLog. fold contents.
    erewrite tryCatch_Rejected; [reflexivity|].
    erewrite andThen_Rejected by exact Hcall. reflexivity.
Qed.
End Parse.

(** ** The headers of the service and the merge *)

Lemma headerField_given raw key fallback :
  headerField raw key fallback = default fallback (given raw key).
Proof.
  unfold headerField, given, orElse.
  destruct (Raw.header raw) as [hd|]; [|reflexivity].
  destruct (key hd) as [s|]; [|reflexivity]. now destruct (truthy s).
Qed.

Lemma given_truthy raw key v : given raw key = Some v -> truthy v = true.
Proof.
  unfold given. destruct (Raw.header raw) as [hd|]; [|discriminate].
  destruct (key hd) as [s|]; [|discriminate].
  destruct (truthy s) eqn:E; [|discriminate]. now intros [= <-].
Qed.

(** X23: the header that the service makes of an answer is complete: the
    borehole name, the elevation and the water table are never empty
    (they are [?], [0.00] and [-] when the answer has none), the client
    is always empty, and the fall-back elevation reads as 0 in the
    chart.  The merge drops such a record only when the name of the
    answer is made of white space. *)
Theorem parsed_header_complete (raw : Raw.Data) :
  let hd := toHeader raw in
  boreholeName hd <> EmptyString
  /\ elevation hd <> EmptyString
  /\ waterTable hd <> EmptyString
  /\ client hd = EmptyString
  /\ (Raw.header raw = None ->
      hd = {| projectName := ""; boreholeName := "?"; date := "";
              elevation := "0.00"; coordinates := ""; client := "";
              waterTable := "-" |})
  /\ (parseElevation "0.00" ≃ Fin 0)%num
  /\ (trim (boreholeName hd) = EmptyString ->
      exists name, given raw (fun h => Some (Raw.boreholeName h)) = Some name
                   /\ trim name = EmptyString).
Proof.
  intros hd. unfold hd, toHeader. cbn [boreholeName elevation waterTable client].
  rewrite !headerField_given.
  assert (Hne : forall key fb, fb <> EmptyString ->
            default fb (given raw key) <> EmptyString).
  { intros key fb Hfb. destruct (given raw key) as [v|] eqn:E; simpl; [|assumption].
    apply given_truthy in E. now destruct v. }
  split; [now apply Hne|]. split; [now apply Hne|]. split; [now apply Hne|].
  split; [reflexivity|]. split.
  - intros Hnone. unfold headerField, given. rewrite Hnone. reflexivity.
  - split; [vm_compute; reflexivity|].
    destruct (given raw (fun h => Some (Raw.boreholeName h))) as [v|] eqn:E;
      simpl; [eauto|discriminate].
Qed.

(** X24: when the merge fills the header of the first fragment of a
    borehole from a later one, both made by the service, the project
    name and the coordinates are those of the first answer that has
    them; the elevation and the water table too, but an elevation [0.00]
    and a water table [-] in the first answer count as missing and give
    way to what the later answer has; the date is the one of the first
    answer or stays empty. *)
Theorem parsed_headers_merge (raw1 raw2 : Raw.Data) (h : heap) l1 l2 :
  h !! l1 = Some (toHeader raw1) ->
  h !! l2 = Some (toHeader raw2) ->
  exists hd,
    mergeHeaders l1 l2 h = Normal (tt, <[l1 := hd]> h)
    /\ projectName hd
       = match given raw1 Raw.projectName with
         | Some v => v
         | None => default "" (given raw2 Raw.projectName)
         end
    /\ elevation hd
       = match given raw1 Raw.elevation with
         | Some v => if String.eqb v "0.00"
                     then default "0.00" (given raw2 Raw.elevation) else v
         | None => default "0.00" (given raw2 Raw.elevation)
         end
    /\ coordinates hd
       = match given raw1 Raw.coordinates with
         | Some v => v
         | None => default "" (given raw2 Raw.coordinates)
         end
    /\ waterTable hd
       = match given raw1 Raw.waterTable with
         | Some v => if String.eqb v "-"
                     then default "-" (given raw2 Raw.waterTable) else v
         | None => default "-" (given raw2 Raw.waterTable)
         end
    /\ date hd = default "" (given raw1 Raw.date)
    /\ boreholeName hd = boreholeName (toHeader raw1)
    /\ client hd = EmptyString.
Proof.
  intros H1 H2. eexists. split; [apply mergeHeaders_spec; eassumption|].
  unfold backfilled, toHeader.
  cbn [projectName elevation coordinates waterTable date boreholeName client].
  rewrite !headerField_given.
  split; [|split; [|split; [|split]]].
  - destruct (given raw1 Raw.projectName) as [v|] eqn:E; simpl; [|reflexivity].
    now rewrite (given_truthy _ _ _ E).
  - destruct (given raw1 Raw.elevation) as [v|] eqn:E; simpl; [|reflexivity].
    rewrite (given_truthy _ _ _ E). simpl. reflexivity.
  - destruct (given raw1 Raw.coordinates) as [v|] eqn:E; simpl; [|reflexivity].
    now rewrite (given_truthy _ _ _ E).
  - destruct (given raw1 Raw.waterTable) as [v|] eqn:E; simpl; [|reflexivity].
    rewrite (given_truthy _ _ _ E). simpl. now rewrite orb_false_r.
  - repeat split; reflexivity.
Qed.

(** ** The identifiers of the layers of a record of the service *)

Lemma append_inj_l (p a b : string) : (p ++ a)%string = (p ++ b)%string -> a = b.
Proof. induction p as [|c p IH]; simpl; [trivial|]. intros [= H]. auto. Qed.

Lemma layerIds_mapiFrom host id ls : forall i,
  List.map layerId (mapiFrom (toLayer host id) i ls)
  = List.map (fun k => (id ++ "-layer-" ++ decimal (N.of_nat k))%string)
      (seq i (List.length ls)).
Proof.
  induction ls as [|l r IH]; intros i; [reflexivity|].
  cbn [mapiFrom List.map List.length seq]. now rewrite IH.
Qed.

Lemma sptIds_mapiFrom id ss : forall i,
  List.map sptId (mapiFrom (toSpt id) i ss)
  = List.map (fun k => (id ++ "-spt-" ++ decimal (N.of_nat k))%string)
      (seq i (List.length ss)).
Proof.
  induction ss as [|l r IH]; intros i; [reflexivity|].
  cbn [mapiFrom List.map List.length seq]. now rewrite IH.
Qed.

Lemma numbered_NoDup (p q : string) i n :
  NoDup (List.map (fun k => (p ++ q ++ decimal (N.of_nat k))%string) (seq i n)).
Proof.
  apply (NoDup_fmap_2_strong
           (fun k => (p ++ q ++ decimal (N.of_nat k))%string)).
  - intros a b _ _ E. apply append_inj_l, append_inj_l, decimal_inj in E. lia.
  - apply NoDup_ListNoDup, List.seq_NoDup.
Qed.

Lemma layerIds_NoDup host id ls :
  NoDup (List.map layerId (mapi (toLayer host id) ls)).
Proof.
  unfold mapi. rewrite layerIds_mapiFrom. apply numbered_NoDup.
Qed.

Lemma sptIds_NoDup id ss :
  NoDup (List.map sptId (mapi (toSpt id) ss)).
Proof.
  unfold mapi. rewrite sptIds_mapiFrom. apply numbered_NoDup.
Qed.

Section UniqueKeys.
Context {A : Type}.
Variable key : A -> string.

Lemma map_at_unique_key (g : A -> A) (L : list A) : forall k l,
  NoDup (List.map key L) -> L !! k = Some l ->
  List.map (fun x => if String.eqb (key x) (key l) then g x else x) L
  = <[k := g l]> L.
Proof.
  induction L as [|x r IH]; intros k l Hnd Hk; [destruct k; discriminate|].
  simpl in Hnd. apply NoDup_cons in Hnd as [Hx Hnd].
  destruct k as [|k]; simpl in Hk.
  - injection Hk as ->. cbn [List.map]. rewrite String.eqb_refl. simpl. f_equal.
    rewrite <- (List.map_id r) at 2. apply List.map_ext_in.
    intros y Hy. destruct (String.eqb_spec (key y) (key l)) as [E|_]; [|reflexivity].
    exfalso. apply Hx. rewrite <- E. apply list_elem_of_In, in_map_iff. eauto.
  - cbn [List.map]. simpl.
    destruct (String.eqb_spec (key x) (key l)) as [E|_].
    + exfalso. apply Hx. rewrite E. apply list_elem_of_In, in_map_iff.
      exists l. split; [reflexivity|]. eapply lookup_In; eassumption.
    + f_equal. now apply IH.
Qed.

Lemma filter_at_unique_key (L : list A) : forall k l,
  NoDup (List.map key L) -> L !! k = Some l ->
  List.filter (fun x => negb (String.eqb (key x) (key l))) L = delete k L.
Proof.
  induction L as [|x r IH]; intros k l Hnd Hk; [destruct k; discriminate|].
  simpl in Hnd. apply NoDup_cons in Hnd as [Hx Hnd].
  destruct k as [|k]; simpl in Hk.
  - injection Hk as ->. cbn [List.filter]. rewrite String.eqb_refl. simpl.
    assert (Hall : forall y, In y r -> key y <> key l).
    { intros y Hy E. apply Hx. rewrite <- E.
      apply list_elem_of_In, in_map_iff. eauto. }
    clear -Hall. induction r as [|y r IHr]; [reflexivity|].
    cbn [List.filter].
    destruct (String.eqb_spec (key y) (key l)) as [E|_].
    + exfalso. apply (Hall y); [now left|assumption].
    + simpl. f_equal. apply IHr. intros z Hz. apply Hall. now right.
  - cbn [List.filter]. simpl.
    destruct (String.eqb_spec (key x) (key l)) as [E|_].
    + exfalso. apply Hx. rewrite E. apply list_elem_of_In, in_map_iff.
      exists l. split; [reflexivity|]. eapply lookup_In; eassumption.
    + simpl. f_equal. now apply IH.
Qed.
End UniqueKeys.

(** X25: the layers of a record that the service has made carry
    identifiers that differ from one another, and so do its SPT records;
    no layer has the identifier of an SPT record.  In the review tables
    a change typed into the row of such a layer therefore changes that
    layer and no other, and its delete button removes that layer and no
    other. *)
Theorem parsed_layer_edited_alone host dataList activeTab cur id ls ss k l a
    (h : heap) :
  dataList !! activeTab = Some cur ->
  layers cur = mapi (toLayer host id) ls ->
  spt cur = mapi (toSpt id) ss ->
  layers cur !! k = Some l ->
  NoDup (List.map layerId (layers cur))
  /\ NoDup (List.map sptId (spt cur))
  /\ (forall s, In s (spt cur) -> sptId s <> layerId l)
  /\ handleLayerChange dataList activeTab (layerId l) a h
     = Normal (<[activeTab :=
                  set_layers (<[k := assignLayer a l]> (layers cur)) cur]>
                 dataList, h)
  /\ deleteLayer dataList activeTab cur (layerId l)
     = <[activeTab := set_layers (delete k (layers cur)) cur]> dataList.
Proof.
  intros Hcur Hl Hs Hk.
  assert (Hnd : NoDup (List.map layerId (layers cur)))
    by (rewrite Hl; apply layerIds_NoDup).
  split; [exact Hnd|]. split; [rewrite Hs; apply sptIds_NoDup|].
  split.
  { intros s Hin E. rewrite Hs in Hin. rewrite Hl in Hk.
    apply In_mapi_lookup in Hin as (s0 & i & _ & ->).
    rewrite lookup_mapi in Hk. destruct (ls !! k) as [l0|]; [|discriminate].
    injection Hk as <-. cbn [sptId toSpt layerId toLayer] in E.
    apply append_inj_l in E. discriminate E. }
  split.
  - rewrite (handleLayerChange_spec _ _ _ _ _ _ Hcur).
    now rewrite (map_at_unique_key layerId (assignLayer a) _ k l Hnd Hk).
  - unfold deleteLayer, updateActiveBorehole.
    now rewrite (filter_at_unique_key layerId _ k l Hnd Hk).
Qed.

(** ** The upload of the sources *)

Lemma message_or_default (message : text) :
  message <> [] ->
  match message with [] => analysisFailed | n :: l => n :: l end = message.
Proof. now destruct message. Qed.

Section Upload.
Variable host : Host.

Lemma retryFrom_frame contents maxRetries : forall left i e w,
  let w' := snd (retryFrom host (askModel host contents) maxRetries left i e w)
  in alerts w' = alerts w /\ app w' = app w /\ store w' = store w.
Proof.
  induction left as [|left IH]; intros i e w; [repeat split|].
  cbn [retryFrom]. unfold tryCatch, askModel.
  destruct (generateContent host (List.length (sent w)) contents) as [a|e'];
    [repeat split|].
  destruct (isQuotaError host e' && (Z.of_nat i <? Z.of_nat maxRetries - 1)%Z);
    [|repeat split].
  unfold andThen at 1. cbn [Math_random]. unfold andThen at 1. cbn [sleep].
  match goal with
  | |- context [retryFrom _ _ _ _ _ _ ?w2] =>
      destruct (IH (S i) e' w2) as (Ha & Hp & Hs)
  end.
  cbn [alerts app store] in Ha, Hp, Hs. cbv zeta. auto.
Qed.

Lemma parseBoreholeLog_frame input w :
  let w' := snd (parseBoreholeLog host input w) in
  alerts w' = alerts w /\ app w' = app w /\ store w ⊆ store w'.
Proof.
  unfold parseBoreholeLog, tryCatch.
  assert (Hbody : forall (m : Task (list ExtractedData)),
            (let w' := snd (m w) in
             alerts w' = alerts w /\ app w' = app w /\ store w ⊆ store w') ->
            let w' := snd (match m w with
                           | (Fulfilled a, w1) => (Fulfilled a, w1)
                           | (Rejected e, w1) => reject e w1
                           end) in
            alerts w' = alerts w /\ app w' = app w /\ store w ⊆ store w').
  { intros m H. destruct (m w) as [[a|e] w1]; exact H. }
  apply Hbody. clear Hbody.
  unfold andThen, callWithRetry.
  pose proof (retryFrom_frame (partsOf input) 3 3 0 UndefinedThrown w) as Hf.
  destruct (retryFrom host (askModel host (partsOf input)) 3 3 0
              UndefinedThrown w) as [[response|e] w1];
    cbn [snd] in Hf; destruct Hf as (Ha & Hp & Hs).
  - destruct response as [[|c r]|];
      try (cbn [snd reject]; rewrite Ha, Hp, Hs; repeat split; reflexivity).
    destruct (JSON_parse host (cleanText (c :: r))) as [raws|];
      [|cbn [snd reject]; rewrite Ha, Hp, Hs; repeat split; reflexivity].
    destruct (mapTask_toExtractedData host raws w1)
      as (out & w' & -> & Hsub & (_ & _ & Ha' & Hp') & _).
    cbn [snd]. rewrite Ha', Hp', <- Hs. auto.
  - cbn [snd]. rewrite Ha, Hp, Hs. repeat split; reflexivity.
Qed.

Lemma extractPages_frame total sources : forall i acc w,
  exists acc' w',
    extractPages host total sources i acc w = (Fulfilled acc', w')
    /\ alerts w' = alerts w /\ sameScreen (app w) (app w')
    /\ (fst acc <> [] -> fst acc' <> []).
Proof.
  induction sources as [|source rest IH]; intros i acc w.
  - exists acc, w. repeat split; auto.
  - cbn [extractPages].
    unfold andThen at 1. cbn [setLoadingProgress].
    set (w1 := set_app _ w).
    assert (H1 : alerts w1 = alerts w /\ sameScreen (app w) (app w1))
      by (repeat split).
    assert (Hwait : exists w2,
      (if (0 <? i)%nat
       then setLoadingProgress (waitingForPage i) ;;~
            sleep 5000 ;;~ setLoadingProgress (analysingPage i total)
       else resolve tt) w1 = (Fulfilled tt, w2)
      /\ alerts w2 = alerts w /\ sameScreen (app w) (app w2)).
    { destruct (0 <? i)%nat; eexists; (split; [reflexivity|]);
        repeat split. }
    destruct Hwait as (w2 & Hw2 & Ha2 & Hs2).
    erewrite andThen_Fulfilled by exact Hw2.
    pose proof (parseBoreholeLog_frame source w2) as (Ha3 & Hp3 & _).
    assert (Hpage : exists acc1 w3,
      tryCatch (arrayResult <~ parseBoreholeLog host source ;;
                resolve (fst acc ++ arrayResult, snd acc))
               (fun _ => resolve (fst acc, S (snd acc))) w2
      = (Fulfilled acc1, w3)
      /\ alerts w3 = alerts w2 /\ app w3 = app w2
      /\ (fst acc <> [] -> fst acc1 <> [])).
    { unfold tryCatch, andThen.
      destruct (parseBoreholeLog host source w2) as [[arrayResult|e] w3];
        cbn [snd] in Ha3, Hp3; eexists _, _; (split; [reflexivity|]);
        (split; [assumption|]); (split; [assumption|]); cbn [fst]; auto.
      intros Hne E. apply app_eq_nil in E as [E _]. auto. }
    destruct Hpage as (acc1 & w3 & Hrun & Ha4 & Hp4 & Hne).
    erewrite andThen_Fulfilled by exact Hrun.
    destruct (IH (S i) acc1 w3) as (acc' & w' & Hrest & Ha5 & Hs5 & Hne').
    exists acc', w'. split; [exact Hrest|].
    split; [congruence|]. split; [|auto].
    rewrite Hp4 in Hs5. destruct Hs2 as (? & ? & ?), Hs5 as (? & ? & ?).
    repeat split; congruence.
Qed.

Lemma liftJS_merge_cases pages w :
  (exists merged h,
     mergeBoreholes (weights host) pages (store w) = Normal (merged, h)
     /\ liftJS (mergeBoreholes (weights host) pages) w
        = (Fulfilled merged, set_store h w))
  \/ (exists e,
        liftJS (mergeBoreholes (weights host) pages) w
        = (Rejected (Native e), w)).
Proof.
  unfold liftJS.
  destruct (mergeBoreholes (weights host) pages (store w)) as [[merged h]|e];
    [left|right]; eauto.
Qed.

(** The run of the handler: the pages, then [afterUpload]. *)
Lemma handleFilesSelect_run sources w :
  exists pages failed w1,
    alerts w1 = alerts w
    /\ sameScreen (app w) (app w1)
    /\ handleFilesSelect host sources w
       = (Fulfilled tt, afterUpload host pages failed w1).
Proof.
  unfold handleFilesSelect.
  unfold andThen at 1. cbn [setLoading].
  unfold andThen at 1. cbn [setLoadingProgress].
  set (w0 := set_app _ (set_app _ w)).
  assert (H0 : alerts w0 = alerts w /\ sameScreen (app w) (app w0))
    by (repeat split).
  destruct H0 as (Ha0 & Hst0 & Hl0 & Hg0).
  destruct (extractPages_frame (List.length sources) sources 0 ([], 0%nat) w0)
    as ([pages failed] & w1 & Hpages & Ha1 & (Hst1 & Hl1 & Hg1) & _).
  exists pages, failed, w1.
  split; [congruence|]. split; [repeat split; congruence|].
  unfold tryFinally, tryCatch.
  erewrite andThen_Fulfilled by exact Hpages.
  unfold afterUpload.
  destruct pages as [|p ps].
  - cbn beta iota zeta. unfold reject. cbn beta iota. cbn [messageOf].
    rewrite (message_or_default noPageExtracted) by discriminate.
    reflexivity.
  - cbn beta iota zeta.
    destruct (liftJS_merge_cases (p :: ps) w1)
      as [(merged & h & Hmerge & Hlift)|(e & Hlift)].
    + erewrite andThen_Fulfilled by exact Hlift. rewrite Hmerge.
      destruct (0 <? failed)%nat; reflexivity.
    + erewrite andThen_Rejected by exact Hlift.
      unfold liftJS in Hlift.
      destruct (mergeBoreholes (weights host) (p :: ps) (store w1))
        as [[merged h]|e']; [discriminate|].
      injection Hlift as <-.
      cbn beta iota. cbn [messageOf].
      destruct (nativeMessage host (Native e')); reflexivity.
Qed.

(** The state of the application after an upload. *)
Lemma afterUpload_cases pages failed w :
  let w' := afterUpload host pages failed w in
  loading (app w') = false
  /\ loadingProgress (app w') = []
  /\ isGeneratingPDF (app w') = isGeneratingPDF (app w)
  /\ ((stage (app w') = validation
       /\ (exists merged,
             pages <> []
             /\ mergeBoreholes (weights host) pages (store w)
                = Normal (merged, store w')
             /\ extractedDataList (app w') = Some merged)
       /\ (alerts w' = alerts w
           \/ ((0 < failed)%nat
               /\ alerts w' = alerts w ++ [somePagesFailed failed])))
      \/ (stage (app w') = stage (app w)
          /\ extractedDataList (app w') = extractedDataList (app w)
          /\ exists message, message <> []
                /\ alerts w' = alerts w ++ [message])).
Proof.
  assert (Hfail : forall message,
    message <> [] ->
    let w' := settled (alerted message w) in
    loading (app w') = false
    /\ loadingProgress (app w') = []
    /\ isGeneratingPDF (app w') = isGeneratingPDF (app w)
    /\ stage (app w') = stage (app w)
    /\ extractedDataList (app w') = extractedDataList (app w)
    /\ exists message, message <> [] /\ alerts w' = alerts w ++ [message]).
  { intros message Hm w'. repeat (split; [reflexivity|]).
    exists message. split; [exact Hm|reflexivity]. }
  unfold afterUpload.
  destruct pages as [|p ps].
  - destruct (Hfail noPageExtracted ltac:(discriminate))
      as (H1 & H2 & H3 & H4 & H5 & H6).
    cbv zeta. auto 10.
  - destruct (mergeBoreholes (weights host) (p :: ps) (store w))
      as [[merged h]|e] eqn:Hmerge.
    + cbv zeta.
      destruct (Nat.ltb_spec 0 failed) as [Hpos|_].
      * repeat (split; [reflexivity|]). left. split; [reflexivity|].
        split; [exists merged; repeat split; discriminate|].
        right. split; [exact Hpos|reflexivity].
      * repeat (split; [reflexivity|]). left. split; [reflexivity|].
        split; [exists merged; repeat split; discriminate|].
        left. reflexivity.
    + destruct (Hfail (match nativeMessage host (Native e) with
                       | [] => analysisFailed
                       | n :: l => n :: l
                       end))
        as (H1 & H2 & H3 & H4 & H5 & H6).
      { destruct (nativeMessage host (Native e)); discriminate. }
      cbv zeta. auto 10.
Qed.

(** X26: the upload never fails as a whole and never leaves the progress
    indicator on: whatever the model answers, the handler returns with
    [loading] off and the progress text empty.  Then either the
    application is in the validation stage with the merge of the records
    of the pages that were extracted, at least one, and has told the
    user how many pages failed if any did; or the stage and the list are
    what they were before and the user was told why, by one alert with a
    message that is not empty. *)
Theorem handleFilesSelect_outcome sources w :
  exists w',
    handleFilesSelect host sources w = (Fulfilled tt, w')
    /\ loading (app w') = false
    /\ loadingProgress (app w') = []
    /\ isGeneratingPDF (app w') = isGeneratingPDF (app w)
    /\ ((stage (app w') = validation
         /\ (exists pages merged store1,
               pages <> []
               /\ mergeBoreholes (weights host) pages store1
                  = Normal (merged, store w')
               /\ extractedDataList (app w') = Some merged)
         /\ (alerts w' = alerts w
             \/ exists failed, (0 < failed)%nat
                   /\ alerts w' = alerts w ++ [somePagesFailed failed]))
        \/ (stage (app w') = stage (app w)
            /\ extractedDataList (app w') = extractedDataList (app w)
            /\ exists message, message <> []
                  /\ alerts w' = alerts w ++ [message])).
Proof.
  destruct (handleFilesSelect_run sources w)
    as (pages & failed & w1 & Ha & (Hst & Hl & Hg) & Hrun).
  exists (afterUpload host pages failed w1). split; [exact Hrun|].
  destruct (afterUpload_cases pages failed w1)
    as (Hload & Hprog & Hpdf & Hcases).
  split; [exact Hload|]. split; [exact Hprog|].
  split; [now rewrite Hpdf|].
  rewrite <- Ha, <- Hst, <- Hl.
  destruct Hcases as [(Hstage & (merged & Hne & Hmerge & Hlist) & Halerts)
                     |Hsame].
  - left. split; [exact Hstage|]. split.
    + exists pages, merged, (store w1). auto.
    + destruct Halerts as [Hnone|[Hpos Hone]]; [now left|].
      right. exists failed. auto.
  - right. exact Hsame.
Qed.

(** X27: whatever the user does, the application is never on the
    validation or the result screen without a list of records: from a
    state on the upload screen, or with a list, every sequence of
    uploads, confirmations and answers to the reset question is handled
    without a rejection and ends on the upload screen or with a list. *)
Theorem screen_has_its_records es : forall w,
  stage (app w) = upload \/ extractedDataList (app w) <> None ->
  exists w',
    handleEvents host es w = (Fulfilled tt, w')
    /\ (stage (app w') = upload \/ extractedDataList (app w') <> None).
Proof.
  induction es as [|e es IH]; intros w Hw.
  - exists w. split; [reflexivity|exact Hw].
  - assert (Hstep : exists w1,
              handleEvent host e w = (Fulfilled tt, w1)
              /\ (stage (app w1) = upload
                  \/ extractedDataList (app w1) <> None)).
    { destruct e as [sources|finalData|[|]]; cbn [handleEvent].
      - destruct (handleFilesSelect_run sources w)
          as (pages & failed & w1 & _ & (Hst & Hl & _) & Hrun).
        exists (afterUpload host pages failed w1). split; [exact Hrun|].
        destruct (afterUpload_cases pages failed w1)
          as (_ & _ & _ & [(_ & (merged & _ & _ & Hlist) & _)
                          |(Hs' & Hl' & _)]).
        + right. rewrite Hlist. discriminate.
        + rewrite Hs', Hl', Hst, Hl. exact Hw.
      - eexists. split; [reflexivity|]. right. discriminate.
      - eexists. split; [reflexivity|]. left. reflexivity.
      - exists w. split; [reflexivity|exact Hw]. }
    destruct Hstep as (w1 & Hrun & Hw1).
    destruct (IH w1 Hw1) as (w' & Hrest & Hw').
    exists w'. split; [|exact Hw'].
    cbn [handleEvents]. erewrite andThen_Fulfilled by exact Hrun.
    exact Hrest.
Qed.

End Upload.

(** ** From the merge to the drawing *)





(** ** The examples *)




(** The two columns of the example start at 130 and at 600. *)
Lemma columns_side_by_side_witness :
  let data := Demo.boreholes in
  let h := Demo.headers in
  exists lm data' h',
    SoilProfileChart data h = Normal ((lm, data'), h')
    /\ (
      exists W, canvasWidth lm = Fin W
        /\ (W == 210 + 470 * inject_Z (Z.of_nat (List.length data)))%Q
        /\ List.length (columns lm) = List.length data
        /\ forall idx c, columns lm !! idx = Some c ->
             exists x, startX c = Fin x
               /\ (x == 130 + 470 * inject_Z (Z.of_nat idx))%Q
               /\ (forall b, In b (columnLayers c) ->
                     (boxX b ≃ Fin (x + 30))%num
                     /\ (boxParamsX b ≃ Fin (x + 30 + 50))%num
                     /\ (boxDescX b ≃ Fin (x + 30 + 50 + 100))%num)
               /\ (sptX c ≃ Fin (x + 30 + 50 + 100 + 140))%num
               /\ (x + 30 + 50 + 100 + 140 + 100 == x + 420)%Q
               /\ (x + 420 <= W - 130)%Q).
Proof.
  intros data h.
  destruct (SoilProfileChart data h) as [[[lm data'] h']|] eqn:E;
    [|vm_compute in E; discriminate].
  exists lm, data', h'. split; [reflexivity|].
  exact (columns_side_by_side data h lm data' h' E).
Defined.


(** With the headers 70 apart the example is drawn by depth. *)
Lemma relative_grid_labels_witness :
  let data := Demo.boreholes in
  let h := Demo.farHeaders in
  exists lm data' h',
    SoilProfileChart data h = Normal ((lm, data'), h')
    /\ (
      topElevation lm = Fin 1
      /\ (forall c, In c (columns lm) -> surfElev c = Fin 0)
      /\ forall g, In g (grid lm) ->
           gridLabel g = DepthLabel (gridIndex g)
           /\ (gridElev g ≃ Fin (1 - inject_Z (Z.of_nat (gridIndex g))))%num
           /\ forall c b, In c (columns lm) -> In b (columnLayers c) ->
                ((depthFrom (boxLayer b) + 1
                  == inject_Z (Z.of_nat (gridIndex g)))%Q ->
                 (boxYTop b ≃ gridY g)%num)
                /\ ((depthTo (boxLayer b) + 1
                     == inject_Z (Z.of_nat (gridIndex g)))%Q ->
                    (boxYBot b ≃ gridY g)%num)).
Proof.
  intros data h.
  destruct (SoilProfileChart data h) as [[[lm data'] h']|] eqn:E;
    [|vm_compute in E; discriminate].
  exists lm, data', h'. split; [reflexivity|].
  assert (Hrel : relativeMode lm = true)
    by (clear - E; vm_compute in E; injection E as <- _ _; reflexivity).
  exact (relative_grid_labels data h lm data' h' E Hrel).
Defined.

(** The polyline of the first borehole of the example visits the depth 1 before the depth 3. *)
Lemma spt_polyline_by_depth_witness :
  let data := Demo.boreholes in
  let h := Demo.headers in
  exists lm data' h',
    SoilProfileChart data h = Normal ((lm, data'), h')
    /\ (
      forall idx c bh, columns lm !! idx = Some c -> data !! idx = Some bh ->
        let visited := List.map pointRecord (sptPolyline c) in
        sptCircles c = sptPolyline c
        /\ StronglySorted (leNum depth) visited
        /\ Permutation visited (spt bh)
        /\ forall d, List.filter (inClass depth d) visited
                     = List.filter (inClass depth d) (spt bh)).
Proof.
  intros data h.
  destruct (SoilProfileChart data h) as [[[lm data'] h']|] eqn:E;
    [|vm_compute in E; discriminate].
  exists lm, data', h'. split; [reflexivity|].
  exact (spt_polyline_by_depth data h lm data' h' E).
Defined.


(** A new client for the example reaches both boreholes. *)
Lemma project_wide_header_change_witness :
  exists out h',
    handleHeaderChange Demo.boreholes 1 K_client "ACME" Demo.headers
    = Normal (out, h')
    /\ Demo.headers ⊆ h'
    /\ List.length out = 2%nat
    /\ NoDup (List.map header out).
Proof.
  destruct (project_wide_header_change Demo.boreholes 1 K_client "ACME"
              Demo.headers)
    as (out & h' & Hrun & Hsub & Hlen & _ & Hnd).
  - reflexivity.
  - simpl. lia.
  - intros d [<-|[<-|[]]]; eexists; vm_compute; reflexivity.
  - exists out, h'. auto.
Defined.

(** A new date for the second borehole of the example leaves the first
    as it is. *)
Lemma single_header_change_witness :
  exists out h',
    handleHeaderChange Demo.boreholes 1 K_date "2024-02-02" Demo.headers
    = Normal (out, h')
    /\ out !! 0%nat = Some Demo.first
    /\ h' !! header Demo.first = Demo.headers !! header Demo.first.
Proof.
  destruct (single_header_change Demo.boreholes 1 K_date "2024-02-02"
              Demo.headers Demo.second)
    as (out & h' & cur' & Hrun & _ & _ & _ & _ & _ & _ & _ & _ & Hrest).
  - reflexivity.
  - reflexivity.
  - intros d [<-|[<-|[]]]; eexists; vm_compute; reflexivity.
  - exists out, h'. split; [exact Hrun|].
    apply (Hrest 0%nat Demo.first); [discriminate|reflexivity].
Defined.

(** An SPT record added to the first borehole of the example at the
    clock value 5 is deleted again by its identifier [new-5]. *)
Lemma added_spt_deleted_again_witness :
  exists shown,
    addSpt Demo.boreholes 0 Demo.first 5 !! 0%nat = Some shown
    /\ List.length (spt shown) = 3%nat
    /\ deleteSpt (addSpt Demo.boreholes 0 Demo.first 5) 0 shown "new-5"
       = Demo.boreholes.
Proof.
  destruct (added_spt_deleted_again Demo.boreholes 0 Demo.first 5 7)
    as (shown & Hshown & Hlen & Hdel & _).
  - reflexivity.
  - intros s [<-|[<-|[]]]; discriminate.
  - intros s [<-|[<-|[]]]; discriminate.
  - exists shown. split; [exact Hshown|]. split; [exact Hlen|exact Hdel].
Defined.

(** The client typed into the tables of the example is taken, and the
    tables are shown again. *)
Lemma every_control_works_witness :
  exists t' h',
    withDataList Demo.tables
      (handleHeaderChange Demo.boreholes 0 K_client "ACME") Demo.headers
    = Normal (t', h')
    /\ Demo.headers ⊆ h'
    /\ rendered t' h' <> None.
Proof.
  destruct (every_control_works Demo.tables Demo.headers
              (ChangeHeader K_client "ACME")
              (withDataList Demo.tables
                 (handleHeaderChange Demo.boreholes 0 K_client "ACME")))
    as (t' & h' & Hrun & Hsub & _ & Hshown).
  - reflexivity.
  - exists t', h'. split; [exact Hrun|]. split; [exact Hsub|exact Hshown].
Defined.

(** The session of the example ends with the two boreholes it began
    with. *)
Lemma review_session_keeps_boreholes_witness :
  exists t' h',
    steps (Demo.tables, Demo.headers) Demo.session (t', h')
    /\ Demo.headers ⊆ h'
    /\ List.map internalId (dataList t') = ["a"; "b"]%string
    /\ rendered t' h' <> None.
Proof.
  assert (Hsteps : exists s, steps (Demo.tables, Demo.headers) Demo.session s).
  { unfold Demo.session.
    eexists.
    repeat (eapply steps_next;
            [eapply step_event; [vm_compute; reflexivity
                                |vm_compute; reflexivity]|]).
    apply steps_done. }
  destruct Hsteps as [[t' h'] Hsteps].
  destruct (review_session_keeps_boreholes _ _ _ _ _ Hsteps)
    as (Hsub & _ & Hids & Hshown).
  exists t', h'. split; [exact Hsteps|]. split; [exact Hsub|].
  split; [exact Hids|]. apply Hshown. vm_compute. discriminate.
Defined.


(** The random numbers of the example platform are in the range of
    [Math.random]. *)
Lemma Demo_random_range n :
  (0 <= random Demo.host n)%Q /\ (random Demo.host n < 1)%Q.
Proof.
  pose proof (Nat.mod_upper_bound n 16 ltac:(discriminate)) as Hn.
  unfold Qle, Qlt. cbn [random Demo.host Qnum Qden]. lia.
Qed.

(** On the example platform the first identifier is made of the
    sixteenths in their order. *)
Lemma generateId_form_witness :
  exists s,
    generateId Demo.host Demo.initial
    = (Fulfilled s, afterDraws 31 Demo.initial)
    /\ matchesTemplate "xxxxxxxx-xxxx-4xxx-yxxx-xxxxxxxxxxxx" s = true
    /\ String.length s = 36%nat.
Proof. exact (generateId_form Demo.host Demo_random_range Demo.initial). Defined.

(** The example model is over its quota once: the second request is
    answered, after one wait of 5000 milliseconds. *)
Lemma callWithRetry_attempts_witness :
  exists w',
    callWithRetry Demo.host (askModel Demo.host [Prompt]) 3 Demo.initial
    = (Fulfilled (Some (utf16 "```json[{}]```")), w')
    /\ sent w' = [[Prompt]; [Prompt]]
    /\ timers w' = [waitTime 0 (random Demo.host 0)]
    /\ (waitTime 0 (random Demo.host 0) == 5000)%Q.
Proof.
  destruct (callWithRetry_attempts Demo.host [Prompt] 3 1 Demo.initial)
    as [Hrun _].
  - lia.
  - intros j Hj. assert (j = 0)%nat as -> by lia. reflexivity.
  - right. reflexivity.
  - eexists. split; [exact Hrun|]. repeat split.
Defined.


(** The second answer of the example fills what the first left open: the
    project name, the elevation in place of [0.00], and the water
    table. *)
Lemma parsed_headers_merge_witness :
  let h : heap := {[ 1%nat := toHeader Demo.rawFirst;
                     2%nat := toHeader Demo.rawSecond ]} in
  exists hd,
    mergeHeaders 1 2 h = Normal (tt, <[1%nat := hd]> h)
    /\ projectName hd = "Site A"%string
    /\ elevation hd = "12.5"%string
    /\ waterTable hd = "3.2"%string
    /\ date hd = "2024-01-01"%string.
Proof.
  intros h.
  destruct (parsed_headers_merge Demo.rawFirst Demo.rawSecond h 1 2)
    as (hd & Hrun & Hp & He & _ & Hw & Hd & _).
  - reflexivity.
  - reflexivity.
  - exists hd. split; [exact Hrun|]. split; [exact Hp|].
    split; [exact He|]. split; [exact Hw|exact Hd].
Defined.

(** The second layer of a record made from the example answer is
    deleted alone. *)
Lemma parsed_layer_edited_alone_witness :
  let cur := Sample.frag "id" 1 (mapi (toLayer Demo.host "id") Demo.rawLayers)
               (mapi (toSpt "id") Demo.rawSpt) in
  exists l,
    layers cur !! 1%nat = Some l
    /\ layerId l = "id-layer-1"%string
    /\ deleteLayer [cur] 0 cur "id-layer-1"
       = [set_layers (delete 1%nat (layers cur)) cur].
Proof.
  intros cur.
  assert (Hl : exists l, layers cur !! 1%nat = Some l
                         /\ layerId l = "id-layer-1"%string)
    by (eexists; split; reflexivity).
  destruct Hl as (l & Hl & Hid).
  destruct (parsed_layer_edited_alone Demo.host [cur] 0 cur "id"
              Demo.rawLayers Demo.rawSpt 1 l (A_uscs "SM") ∅)
    as (_ & _ & _ & _ & Hdel).
  - reflexivity.
  - reflexivity.
  - reflexivity.
  - exact Hl.
  - exists l. split; [exact Hl|]. split; [exact Hid|].
    rewrite <- Hid. exact Hdel.
Defined.

(** The visit of the example, two pages, a confirmation and two answers
    to the reset question, ends on the upload screen. *)
Lemma screen_has_its_records_witness :
  exists w',
    handleEvents Demo.host Demo.visit Demo.initial = (Fulfilled tt, w')
    /\ (stage (app w') = upload \/ extractedDataList (app w') <> None).
Proof.
  apply (screen_has_its_records Demo.host Demo.visit Demo.initial).
  left. reflexivity.
Defined.

